(** * A* path finding on a generated maze: model of [src/main.cpp]

    The development embeds the algorithmic core of the program (the grid
    of cells with their four wall segments, the recursive back-tracking
    maze generator and the A* search) and proves the properties the
    specification states about it.

    Conventions of the embedding.
    - C++ [int] values are integers of [Z].  Every index and coordinate
      the program computes lies between [-1] and [COLS * ROWS].  The one
      accumulating quantity is the [g_cost] of a search node; its
      increment is guarded ([int_succ]) and proved to stay below the
      number of cells, hence below [INT_MAX] under the hypothesis
      [COLS * ROWS < INT_MAX].
    - [operator[]] of [std::vector] and [std::array] outside the
      container is undefined behaviour; the model returns [Undefined].
    - Recursion and loops whose termination is not structural take a
      fuel argument and return [OutOfFuel] when it is exhausted.
    - [std::shuffle] with the Mersenne twister and [std::priority_queue]
      are taken through their interfaces: any permutation of the four
      directions, any queue that pops an entry of least [f_cost].
    - The SDL calls draw on the renderer and do not touch the maze or
      the search state.  [Maze::draw], [draw_start_end] and [draw_path]
      are modelled by the list of calls they make on the renderer; the
      progress display inside [a_star] and the set-up and tear-down of
      the window in [main] are left out. *)

From stdpp Require Import base numbers list gmap.
From Stdlib Require Import ZArith Lia.

Local Open Scope Z_scope.

(** ** Outcomes of a run *)

Inductive result (A : Type) : Type :=
  | Ok (a : A)
  | OutOfFuel
  | Undefined.
Arguments Ok {A} a.
Arguments OutOfFuel {A}.
Arguments Undefined {A}.

Definition bind {A B : Type} (r : result A) (k : A -> result B) : result B :=
  match r with
  | Ok a => k a
  | OutOfFuel => OutOfFuel
  | Undefined => Undefined
  end.

Notation "x <- e ;; k" := (bind e (fun x => k))
  (at level 100, e at next level, right associativity).

Fixpoint foldM {A S : Type} (f : S -> A -> result S) (l : list A) (s : S)
  : result S :=
  match l with
  | [] => Ok s
  | a :: l' => s' <- f s a ;; foldM f l' s'
  end.

(** ** Constants of the program *)

Definition NORTH : Z := 0.
Definition SOUTH : Z := 1.
Definition WEST : Z := 2.
Definition EAST : Z := 3.

Definition WIDTH : Z := 1280.
Definition HEIGHT : Z := 720.
Definition CELL_SIZE : Z := 5.
Definition INT_MAX : Z := 2147483647.

(** [i + 1] on [int]: signed overflow is undefined. *)
Definition int_succ (i : Z) : result Z :=
  if i <? INT_MAX then Ok (i + 1) else Undefined.

(** ** Containers *)

(** [std::vector<T>::operator[]] for reading and for writing. *)
Definition vec_get {A : Type} (v : list A) (i : Z) : result A :=
  if bool_decide (0 <= i < Z.of_nat (length v)) then
    match v !! Z.to_nat i with
    | Some a => Ok a
    | None => Undefined
    end
  else Undefined.

Definition vec_set {A : Type} (v : list A) (i : Z) (a : A) : result (list A) :=
  if bool_decide (0 <= i < Z.of_nat (length v)) then Ok (<[Z.to_nat i := a]> v)
  else Undefined.

(** [std::array<T, 4>]. *)
Record array4 (A : Type) : Type := Array4 { a0 : A; a1 : A; a2 : A; a3 : A }.
Arguments Array4 {A}.
Arguments a0 {A}.
Arguments a1 {A}.
Arguments a2 {A}.
Arguments a3 {A}.

Definition array4_get {A : Type} (a : array4 A) (i : Z) : result A :=
  if i =? 0 then Ok (a0 a)
  else if i =? 1 then Ok (a1 a)
  else if i =? 2 then Ok (a2 a)
  else if i =? 3 then Ok (a3 a)
  else Undefined.

Definition array4_set {A : Type} (a : array4 A) (i : Z) (v : A)
  : result (array4 A) :=
  if i =? 0 then Ok (Array4 v (a1 a) (a2 a) (a3 a))
  else if i =? 1 then Ok (Array4 (a0 a) v (a2 a) (a3 a))
  else if i =? 2 then Ok (Array4 (a0 a) (a1 a) v (a3 a))
  else if i =? 3 then Ok (Array4 (a0 a) (a1 a) (a2 a) v)
  else Undefined.

(** ** Grid model *)

Module Segment.
Record t : Type := mk { sx : Z; sy : Z; ex : Z; ey : Z; exist : bool }.

Definition set_exist (s : t) (b : bool) : t :=
  mk (sx s) (sy s) (ex s) (ey s) b.
End Segment.

Module Cell.
Record t : Type :=
  mk { x : Z; y : Z; visited : bool; segments : array4 Segment.t }.

(** [Cell(int x, int y)] *)
Definition new (x y : Z) : t :=
  let rel_x := x * CELL_SIZE in
  let rel_y := y * CELL_SIZE in
  mk x y false
     (Array4
        (Segment.mk rel_x rel_y (rel_x + CELL_SIZE) rel_y true)
        (Segment.mk rel_x (rel_y + CELL_SIZE) (rel_x + CELL_SIZE)
                    (rel_y + CELL_SIZE) true)
        (Segment.mk rel_x rel_y rel_x (rel_y + CELL_SIZE) true)
        (Segment.mk (rel_x + CELL_SIZE) rel_y (rel_x + CELL_SIZE)
                    (rel_y + CELL_SIZE) true)).

Definition set_visited (c : t) (b : bool) : t :=
  mk (x c) (y c) b (segments c).

(** [segments[direction].exist = false] *)
Definition remove_wall (c : t) (direction : Z) : result t :=
  s <- array4_get (segments c) direction ;;
  segs <- array4_set (segments c) direction (Segment.set_exist s false) ;;
  Ok (mk (x c) (y c) (visited c) segs).
End Cell.

Module Node.
Record t : Type := mk { x : Z; y : Z; g_cost : Z; h_cost : Z }.

Definition f_cost (n : t) : Z := g_cost n + h_cost n.

(** [operator>] *)
Definition gt (n other : t) : bool := f_cost other <? f_cost n.
End Node.

(** [opposite] does not read the maze. *)
Definition opposite (dir : Z) : Z :=
  if dir =? NORTH then SOUTH
  else if dir =? SOUTH then NORTH
  else if dir =? WEST then EAST
  else WEST.

(** The coordinate one step away in direction [dir], as both
    [generate_maze] and [a_star] compute it. *)
Definition step_x (x dir : Z) : Z := x + Z.b2z (dir =? EAST) - Z.b2z (dir =? WEST).
Definition step_y (y dir : Z) : Z := y + Z.b2z (dir =? SOUTH) - Z.b2z (dir =? NORTH).

(** ** Instances for running the model *)

(** A generator that rotates the direction list by a growing offset. *)
Definition shuffle_rot (g : nat) (l : list Z) : list Z * nat :=
  (rotate g l, S g).

(** A priority queue kept as a list; [list_pq_pop] takes out the first
    entry of least [f_cost]. *)
Fixpoint list_pq_pop (q : list Node.t) : option (Node.t * list Node.t) :=
  match q with
  | [] => None
  | n :: q' =>
      match list_pq_pop q' with
      | None => Some (n, [])
      | Some (k, r) =>
          if Node.gt n k then Some (k, n :: r) else Some (n, q')
      end
  end.

(** ** Rendering *)

(** The calls a function makes on the SDL renderer, in the order it
    makes them. *)
Inductive Cmd : Type :=
  | SetRenderDrawColor (r g b a : Z)
  | RenderClear
  | RenderDrawLine (x1 y1 x2 y2 : Z)
  | RenderFillRect (x y w h : Z)
  | RenderPresent.

(** The lines among a sequence of calls. *)
Definition lines_of (cmds : list Cmd) : list (Z * Z * Z * Z) :=
  flat_map (fun c => match c with
                     | RenderDrawLine x1 y1 x2 y2 => [(x1, y1, x2, y2)]
                     | _ => []
                     end) cmds.

(** The elements of a [std::array] in the order a range-for visits them. *)
Definition array4_list {A : Type} (a : array4 A) : list A :=
  [a0 a; a1 a; a2 a; a3 a].

(** The end points of a segment. *)
Definition line_of (s : Segment.t) : Z * Z * Z * Z :=
  (Segment.sx s, Segment.sy s, Segment.ex s, Segment.ey s).

(** Body of the loops of [Maze::draw]. *)
Definition draw_segment (s : Segment.t) : list Cmd :=
  if Segment.exist s then
    [RenderDrawLine (Segment.sx s) (Segment.sy s) (Segment.ex s) (Segment.ey s)]
  else [].

Definition draw_cell (c : Cell.t) : list Cmd :=
  flat_map draw_segment (array4_list (Cell.segments c)).

(** [draw_start_end] *)
Definition draw_start_end : list Cmd :=
  [ SetRenderDrawColor 0 255 0 255;
    RenderFillRect 0 0 CELL_SIZE CELL_SIZE;
    SetRenderDrawColor 255 0 0 255;
    RenderFillRect (WIDTH - CELL_SIZE) (HEIGHT - CELL_SIZE) CELL_SIZE CELL_SIZE;
    RenderPresent ].

(** Body of the loop of [draw_path] over [size_t i]. *)
Definition draw_path_step (path : list (Z * Z)) (out : list Cmd) (i : nat)
  : result (list Cmd) :=
  a <- vec_get path (Z.of_nat i - 1) ;;
  b <- vec_get path (Z.of_nat i) ;;
  let x1 := a.1 * CELL_SIZE + CELL_SIZE / 2 in
  let y1 := a.2 * CELL_SIZE + CELL_SIZE / 2 in
  let x2 := b.1 * CELL_SIZE + CELL_SIZE / 2 in
  let y2 := b.2 * CELL_SIZE + CELL_SIZE / 2 in
  Ok (out ++ [RenderDrawLine x1 y1 x2 y2; RenderPresent]).

(** The pixel at the centre of a cell, and the line [draw_path] draws
    between two cells. *)
Definition centre (p : Z * Z) : Z * Z :=
  (p.1 * CELL_SIZE + CELL_SIZE / 2, p.2 * CELL_SIZE + CELL_SIZE / 2).

Definition centre_line (a b : Z * Z) : Z * Z * Z * Z :=
  ((centre a).1, (centre a).2, (centre b).1, (centre b).2).

(** Consecutive pairs of a list. *)
Fixpoint pairs {A : Type} (l : list A) : list (A * A) :=
  match l with
  | a :: (b :: _) as l' => (a, b) :: pairs l'
  | _ => []
  end.

(** How a cell may change while the generator runs: coordinates and
    end points stay, flags go one way. *)
Definition segment_evolves (s s' : Segment.t) : Prop :=
  line_of s' = line_of s /\
  (Segment.exist s' = true -> Segment.exist s = true).

Definition cell_evolves (c c' : Cell.t) : Prop :=
  Cell.x c' = Cell.x c /\ Cell.y c' = Cell.y c /\
  (Cell.visited c = true -> Cell.visited c' = true) /\
  segment_evolves (a0 (Cell.segments c)) (a0 (Cell.segments c')) /\
  segment_evolves (a1 (Cell.segments c)) (a1 (Cell.segments c')) /\
  segment_evolves (a2 (Cell.segments c)) (a2 (Cell.segments c')) /\
  segment_evolves (a3 (Cell.segments c)) (a3 (Cell.segments c')).

(** The number of walls of a cell that stand, and of a grid. *)
Definition standing (c : Cell.t) : nat :=
  sum_list_with (fun s => if Segment.exist s then 1%nat else 0%nat)
                (array4_list (Cell.segments c)).

Definition wall_count (cells : list Cell.t) : nat :=
  sum_list_with standing cells.

(** The line on which the wall of cell [p] in direction [d] lies. *)
Definition wall_line (p : Z * Z) (d : Z) : Z * Z * Z * Z :=
  match array4_get (Cell.segments (Cell.new p.1 p.2)) d with
  | Ok s => line_of s
  | _ => (0, 0, 0, 0)
  end.

(** The calls of the loop of [draw_path], pair by pair. *)
Definition path_cmds (path : list (Z * Z)) : list Cmd :=
  flat_map (fun ab : (Z * Z) * (Z * Z) =>
              [RenderDrawLine (centre ab.1).1 (centre ab.1).2
                              (centre ab.2).1 (centre ab.2).2;
               RenderPresent])
           (pairs path).

(** ** Grids used in the examples *)

(** The dimensions [main] runs with. *)
Definition COLS_main : Z := WIDTH / CELL_SIZE.
Definition ROWS_main : Z := HEIGHT / CELL_SIZE.

Definition carve (c : Cell.t) (d : Z) : Cell.t :=
  match Cell.remove_wall c d with
  | Ok c' => c'
  | _ => c
  end.

(** Cells in the order of the constructor [Maze()]. *)
Definition grid (cols rows : Z) (f : Z -> Z -> Cell.t) : list Cell.t :=
  flat_map (fun y => map (fun x => f x y) (seqZ 0 cols)) (seqZ 0 rows).

(** A 256 x 144 grid with a corridor along the top row and down the
    last column, open in the forward direction only: the EAST walls of
    the top row and the SOUTH walls of the last column are removed, the
    walls facing them are not. *)
Definition corridor_cell (x y : Z) : Cell.t :=
  if (y =? 0) && (x <? 255) then carve (Cell.new x y) EAST
  else if (x =? 255) && (y <? 143) then carve (Cell.new x y) SOUTH
  else Cell.new x y.

Definition one_way_corridor : list Cell.t := grid 256 144 corridor_cell.

Definition corridor_path : list (Z * Z) :=
  map (fun x => (x, 0)) (seqZ 0 256) ++ map (fun y => (255, y)) (seqZ 1 143).

(** A 256 x 144 grid with every wall standing except the NORTH wall of
    the start cell. *)
Definition north_open_cell (x y : Z) : Cell.t :=
  if (x =? 0) && (y =? 0) then carve (Cell.new 0 0) NORTH else Cell.new x y.

Definition north_open : list Cell.t := grid 256 144 north_open_cell.

(** The 2 x 2 maze that [generate_maze 0 0] carves with [shuffle_rot]
    seeded with 0: passages (0,0)-(0,1), (0,1)-(1,1) and (1,1)-(1,0). *)
Definition cell_with (x y : Z) (v n s w e : bool) : Cell.t :=
  let c := Cell.new x y in
  Cell.mk x y v
    (Array4 (Segment.set_exist (a0 (Cell.segments c)) n)
            (Segment.set_exist (a1 (Cell.segments c)) s)
            (Segment.set_exist (a2 (Cell.segments c)) w)
            (Segment.set_exist (a3 (Cell.segments c)) e)).

Definition maze22 : list Cell.t :=
  [ cell_with 0 0 true true false true true;
    cell_with 1 0 true true false true true;
    cell_with 0 1 true false true true false;
    cell_with 1 1 true false true false true ].





(** The answer of [is_walkable], false when it does not return. *)
Definition answers {M : Type} (r : result (bool * M)) : bool :=
  match r with
  | Ok (b, _) => b
  | _ => false
  end.

(** Did a search return this path? *)
Definition returns_path {M : Type} (r : result (list (Z * Z) * M))
           (path : list (Z * Z)) : bool :=
  match r with
  | Ok (p, _) => bool_decide (p = path)
  | _ => false
  end.

Section Program.

(** Grid dimensions; the program fixes them to [WIDTH / CELL_SIZE] and
    [HEIGHT / CELL_SIZE]. *)
Variables COLS ROWS : Z.

(** The random number generator and [std::shuffle]. *)
Variable RNG : Type.
Variable shuffle : RNG -> list Z -> list Z * RNG.

Record Maze : Type := mkMaze { maze : list Cell.t; rng : RNG }.

(** [Maze()] given the seeded generator. *)
Definition Maze_new (g : RNG) : Maze :=
  mkMaze
    (flat_map (fun y => map (fun x => Cell.new x y) (seqZ 0 COLS)) (seqZ 0 ROWS))
    g.

(** State of a generation run: the maze object and a history variable
    [marks] that records, in order, the cells on which the assignment
    [current.visited = true] was executed. *)
Record Run : Type := mkRun { this : Maze; marks : list (Z * Z) }.

Definition set_maze (st : Run) (cells : list Cell.t) : Run :=
  mkRun (mkMaze cells (rng (this st))) (marks st).

(** [maze[i].visited = true] *)
Definition mark_visited (i : Z) (p : Z * Z) (st : Run) : result Run :=
  c <- vec_get (maze (this st)) i ;;
  cells <- vec_set (maze (this st)) i (Cell.set_visited c true) ;;
  Ok (mkRun (mkMaze cells (rng (this st))) (marks st ++ [p])).

(** [maze[i].remove_wall(dir)] *)
Definition remove_wall_at (i dir : Z) (st : Run) : result Run :=
  c <- vec_get (maze (this st)) i ;;
  c' <- Cell.remove_wall c dir ;;
  cells <- vec_set (maze (this st)) i c' ;;
  Ok (set_maze st cells).

Definition in_grid (x y : Z) : bool :=
  (0 <=? x) && (x <? COLS) && (0 <=? y) && (y <? ROWS).

(** Body of the loop over the shuffled directions; [rec] is the
    recursive call. *)
Definition visit_dir (rec : Z -> Z -> Run -> result Run) (x y : Z)
           (st : Run) (dir : Z) : result Run :=
  let nx := step_x x dir in
  let ny := step_y y dir in
  if in_grid nx ny then
    n <- vec_get (maze (this st)) (ny * COLS + nx) ;;
    if negb (Cell.visited n) then
      st1 <- remove_wall_at (y * COLS + x) dir st ;;
      st2 <- remove_wall_at (ny * COLS + nx) (opposite dir) st1 ;;
      rec nx ny st2
    else Ok st
  else Ok st.

Fixpoint generate_maze (fuel : nat) (x y : Z) (st : Run) : result Run :=
  match fuel with
  | O => OutOfFuel
  | S fuel' =>
      st1 <- mark_visited (y * COLS + x) (x, y) st ;;
      let '(directions, g) := shuffle (rng (this st1)) [NORTH; SOUTH; WEST; EAST] in
      let st2 := mkRun (mkMaze (maze (this st1)) g) (marks st1) in
      foldM (visit_dir (generate_maze fuel') x y) directions st2
  end.

(** [is_walkable]; the maze is passed through unchanged. *)
Definition is_walkable (x y direction : Z) (m : Maze) : result (bool * Maze) :=
  if (x <? 0) || (y <? 0) || (COLS <=? x) || (ROWS <=? y) then Ok (false, m)
  else
    c <- vec_get (maze m) (y * COLS + x) ;;
    s <- array4_get (Cell.segments c) direction ;;
    Ok (negb (Segment.exist s), m).

(** *** Path finding *)

(** The priority queue [open_set], through its interface: [pq_pop]
    stands for [empty], [top] and [pop] together, and [pq_elems] lists
    the entries a queue holds. *)
Variable PQ : Type.
Variable pq_empty : PQ.
Variable pq_push : Node.t -> PQ -> PQ.
Variable pq_pop : PQ -> option (Node.t * PQ).
Variable pq_elems : PQ -> list Node.t.

(** Local variables of [a_star]. *)
Record Search : Type := mkSearch {
  open_set : PQ;
  came_from : gmap Z (Z * Z);
  g_cost : list Z;
  visited : list bool
}.

Definition index (x y : Z) : Z := y * COLS + x.

Definition heuristic (x y : Z) : Z :=
  Z.abs (COLS - 1 - x) + Z.abs (ROWS - 1 - y).

(** Body of [for (int dir = 0; dir < 4; dir++)]. *)
Definition expand_dir (current : Node.t) (acc : Maze * Search) (dir : Z)
  : result (Maze * Search) :=
  let '(m, s) := acc in
  let nx := step_x (Node.x current) dir in
  let ny := step_y (Node.y current) dir in
  wm <- is_walkable (Node.x current) (Node.y current) dir m ;;
  let '(w, m') := wm in
  if negb w then Ok (m', s)
  else
    new_g_cost <- int_succ (Node.g_cost current) ;;
    old <- vec_get (g_cost s) (index nx ny) ;;
    if new_g_cost <? old then
      g' <- vec_set (g_cost s) (index nx ny) new_g_cost ;;
      Ok (m', mkSearch
                (pq_push (Node.mk nx ny new_g_cost (heuristic nx ny)) (open_set s))
                (<[index nx ny := (Node.x current, Node.y current)]> (came_from s))
                g'
                (visited s))
    else Ok (m', s).

(** The loop that follows the back-pointers from the goal. *)
Fixpoint reconstruct (fuel : nat) (cf : gmap Z (Z * Z)) (at_ : Z * Z)
         (path : list (Z * Z)) : result (list (Z * Z)) :=
  match fuel with
  | O => OutOfFuel
  | S fuel' =>
      match cf !! index (fst at_) (snd at_) with
      | Some prev => reconstruct fuel' cf prev (path ++ [at_])
      | None => Ok path
      end
  end.

(** [while (!open_set.empty())]; [rfuel] bounds the reconstruction loop. *)
Fixpoint a_star_loop (rfuel fuel : nat) (m : Maze) (s : Search)
  : result (list (Z * Z) * Maze) :=
  match fuel with
  | O => OutOfFuel
  | S fuel' =>
      match pq_pop (open_set s) with
      | None => Ok ([], m)
      | Some (current, rest) =>
          let i := index (Node.x current) (Node.y current) in
          v <- vec_get (visited s) i ;;
          if v then
            a_star_loop rfuel fuel' m
              (mkSearch rest (came_from s) (g_cost s) (visited s))
          else
            vis <- vec_set (visited s) i true ;;
            if (Node.x current =? COLS - 1) && (Node.y current =? ROWS - 1) then
              path <- reconstruct rfuel (came_from s)
                        (Node.x current, Node.y current) [] ;;
              Ok (rev (path ++ [(0, 0)]), m)
            else
              ms <- foldM (expand_dir current) [0; 1; 2; 3]
                      (m, mkSearch rest (came_from s) (g_cost s) vis) ;;
              a_star_loop rfuel fuel' (fst ms) (snd ms)
      end
  end.

Definition a_star_init : result Search :=
  g <- vec_set (replicate (Z.to_nat (COLS * ROWS)) INT_MAX) (index 0 0) 0 ;;
  Ok (mkSearch (pq_push (Node.mk 0 0 0 (heuristic 0 0)) pq_empty)
               ∅ g (replicate (Z.to_nat (COLS * ROWS)) false)).

Definition a_star (fuel : nat) (m : Maze) : result (list (Z * Z) * Maze) :=
  s <- a_star_init ;;
  a_star_loop fuel fuel m s.

(** *** Notions the specification speaks of *)

Definition in_bounds (p : Z * Z) : Prop :=
  0 <= p.1 < COLS /\ 0 <= p.2 < ROWS.

Definition valid_dir (d : Z) : Prop := 0 <= d < 4.

Definition step (p : Z * Z) (d : Z) : Z * Z := (step_x p.1 d, step_y p.2 d).

Definition start : Z * Z := (0, 0).
Definition goal : Z * Z := (COLS - 1, ROWS - 1).

(** The vector of cells has one cell per grid position. *)
Definition well_formed (cells : list Cell.t) : Prop :=
  Z.of_nat (length cells) = COLS * ROWS.

(** Reading a cell's flags directly. *)
Definition visited_at (cells : list Cell.t) (p : Z * Z) : bool :=
  match cells !! Z.to_nat (index p.1 p.2) with
  | Some c => Cell.visited c
  | None => false
  end.

Definition removed_at (cells : list Cell.t) (p : Z * Z) (d : Z) : bool :=
  match cells !! Z.to_nat (index p.1 p.2) with
  | Some c =>
      match array4_get (Cell.segments c) d with
      | Ok s => negb (Segment.exist s)
      | _ => false
      end
  | None => false
  end.

(** Adjacency as the path finder sees it. *)
Definition walkable (m : Maze) (p : Z * Z) (d : Z) : Prop :=
  exists m', is_walkable p.1 p.2 d m = Ok (true, m').

Definition passage (m : Maze) (u v : Z * Z) : Prop :=
  exists d, valid_dir d /\ walkable m u d /\ v = step u d.

Inductive walk (m : Maze) : Z * Z -> Z * Z -> nat -> Prop :=
  | walk_nil u : walk m u u 0
  | walk_cons u v w n : passage m u v -> walk m v w n -> walk m u w (S n).

Definition reachable (m : Maze) (u v : Z * Z) : Prop :=
  exists n, walk m u v n.

Definition shortest_distance (m : Maze) (u v : Z * Z) (n : nat) : Prop :=
  walk m u v n /\ forall k, walk m u v k -> (n <= k)%nat.

Definition wall_symmetric (m : Maze) : Prop :=
  forall p d, in_bounds p -> valid_dir d -> in_bounds (step p d) ->
    (walkable m p d <-> walkable m (step p d) (opposite d)).

Definition boundary_closed (m : Maze) : Prop :=
  forall p d, valid_dir d -> walkable m p d -> in_bounds (step p d).

Definition all_walls_present (cells : list Cell.t) : Prop :=
  forall c i, cells !! i = Some c ->
    forall d s, array4_get (Cell.segments c) d = Ok s -> Segment.exist s = true.

Definition all_unvisited (cells : list Cell.t) : Prop :=
  forall c i, cells !! i = Some c -> Cell.visited c = false.

Definition unvisited_count (cells : list Cell.t) : nat :=
  sum_list_with (fun c => if Cell.visited c then 0%nat else 1%nat) cells.

(** Every removed pair of walls is counted once, at its northern or
    western cell, whose SOUTH or EAST wall it is. *)
Definition removed_pairs (cells : list Cell.t) : nat :=
  sum_list_with
    (fun c =>
       ((if Segment.exist (a1 (Cell.segments c)) then 0 else 1)
        + (if Segment.exist (a3 (Cell.segments c)) then 0 else 1))%nat)
    cells.

Definition connected (m : Maze) : Prop :=
  forall u v, in_bounds u -> in_bounds v -> reachable m u v.

(** A cycle: at least three distinct cells, each joined to the next by
    a passage and the last to the first. *)
Definition chain (m : Maze) (l : list (Z * Z)) : Prop :=
  forall i u v, l !! i = Some u -> l !! S i = Some v -> passage m u v.

Definition cycle (m : Maze) (l : list (Z * Z)) : Prop :=
  (3 <= length l)%nat /\ NoDup l /\ chain m l /\
  exists a b, head l = Some a /\ last l = Some b /\ passage m b a.

Definition acyclic (m : Maze) : Prop := forall l, ~ cycle m l.

(** A maze as [main] hands it to [a_star]: the result of
    [generate_maze] on a newly constructed [Maze]. *)
Definition carved (m : Maze) : Prop :=
  exists fuel x y g st,
    in_bounds (x, y) /\
    generate_maze fuel x y (mkRun (Maze_new g) []) = Ok st /\
    m = this st.

(** What the specification asks of a returned path. *)
Definition both_ways (m : Maze) (u v : Z * Z) : Prop :=
  exists d, valid_dir d /\ v = step u d /\
            walkable m u d /\ walkable m v (opposite d).

Definition valid_path (m : Maze) (path : list (Z * Z)) : Prop :=
  head path = Some start /\ last path = Some goal /\
  (forall i u v, path !! i = Some u -> path !! S i = Some v -> both_ways m u v) /\
  NoDup path.

(** *** Notions used in the proofs about [generate_maze] *)

(** All grid neighbours of [q] are visited. *)
Definition closed_cell (cells : list Cell.t) (q : Z * Z) : Prop :=
  forall d, valid_dir d -> in_bounds (step q d) ->
    visited_at cells (step q d) = true.

(** The vector keeps its size and visited flags are only ever set. *)
Definition grows (a b : list Cell.t) : Prop :=
  well_formed b /\
  (unvisited_count b <= unvisited_count a)%nat /\
  forall q, in_bounds q -> visited_at a q = true -> visited_at b q = true.

(** What a call [generate_maze x y] achieves, from the state [a] right
    after its assignment [current.visited = true] to its final state
    [b]: every cell visited at the end that is not [(x, y)] itself and
    was not visited before has all its neighbours visited. *)
Definition explored (a b : list Cell.t) (p : Z * Z) : Prop :=
  grows a b /\
  forall q, in_bounds q -> visited_at b q = true ->
    (visited_at a q = true /\ q <> p) \/ closed_cell b q.

(** The contract of a call [rec x y] with fuel [n], for a property [P]
    of the run that holds once [(x, y)] is marked. *)
Definition call_rule (P : Run -> Prop) (rec : Z -> Z -> Run -> result Run)
           (n : nat) : Prop :=
  forall x y st st1,
    in_bounds (x, y) -> well_formed (maze (this st)) ->
    mark_visited (index x y) (x, y) st = Ok st1 -> P st1 ->
    (unvisited_count (maze (this st1)) < n)%nat ->
    exists st', rec x y st = Ok st' /\ P st' /\
                explored (maze (this st1)) (maze (this st')) (x, y).

(** Wall symmetry and intact outer walls, read off the cells. *)
Definition walls_ok (cells : list Cell.t) : Prop :=
  (forall p d, in_bounds p -> valid_dir d -> in_bounds (step p d) ->
     removed_at cells p d = removed_at cells (step p d) (opposite d)) /\
  (forall p d, in_bounds p -> valid_dir d -> ~ in_bounds (step p d) ->
     removed_at cells p d = false).

(** The history holds the visited cells, each once. *)
Definition marks_ok (st : Run) : Prop :=
  NoDup (marks st) /\
  forall q, q ∈ marks st <-> in_bounds q /\ visited_at (maze (this st)) q = true.

(** While the generator runs, the passages form a tree on the visited
    cells. *)
Definition tree_ok (st : Run) : Prop :=
  walls_ok (maze (this st)) /\
  (forall p d, in_bounds p -> valid_dir d ->
     removed_at (maze (this st)) p d = true ->
     visited_at (maze (this st)) p = true) /\
  (removed_pairs (maze (this st)) + 1 + unvisited_count (maze (this st)) =
   length (maze (this st)))%nat /\
  (forall u v, in_bounds u -> in_bounds v ->
     visited_at (maze (this st)) u = true ->
     visited_at (maze (this st)) v = true -> reachable (this st) u v) /\
  acyclic (this st).

(** *** Notions used in the proofs about [a_star] *)

Definition g_at (g : list Z) (p : Z * Z) : Z :=
  match g !! Z.to_nat (index p.1 p.2) with
  | Some v => v
  | None => INT_MAX
  end.

Definition closed_at (vis : list bool) (p : Z * Z) : bool :=
  match vis !! Z.to_nat (index p.1 p.2) with
  | Some b => b
  | None => false
  end.

Definition closed_count (vis : list bool) : nat :=
  sum_list_with (fun b : bool => if b then 1%nat else 0%nat) vis.

Definition node_of (g : list Z) (p : Z * Z) : Node.t :=
  Node.mk p.1 p.2 (g_at g p) (heuristic p.1 p.2).

(** The invariant of the search loop.  While the cell [c] is being
    expanded, [todo] lists the directions still to be looked at. *)
Record SInv (m : Maze) (s : Search) (c : Z * Z) (todo : list Z) : Prop := {
  inv_len_g : Z.of_nat (length (g_cost s)) = COLS * ROWS;
  inv_len_v : Z.of_nat (length (visited s)) = COLS * ROWS;
  inv_start : g_at (g_cost s) start = 0;
  inv_range : forall p, in_bounds p -> 0 <= g_at (g_cost s) p <= INT_MAX;
  inv_walk : forall p, in_bounds p -> g_at (g_cost s) p < INT_MAX ->
    walk m start p (Z.to_nat (g_at (g_cost s) p));
  inv_closed : forall p, in_bounds p -> closed_at (visited s) p = true ->
    g_at (g_cost s) p < INT_MAX /\
    forall k, walk m start p k -> g_at (g_cost s) p <= Z.of_nat k;
  inv_relaxed : forall p d, in_bounds p -> closed_at (visited s) p = true ->
    valid_dir d -> walkable m p d ->
    (p = c /\ d ∈ todo) \/
    g_at (g_cost s) (step p d) <= g_at (g_cost s) p + 1;
  inv_open : forall p, in_bounds p -> closed_at (visited s) p = false ->
    g_at (g_cost s) p < INT_MAX ->
    node_of (g_cost s) p ∈ pq_elems (open_set s);
  inv_nodes : forall n, n ∈ pq_elems (open_set s) ->
    in_bounds (Node.x n, Node.y n) /\
    g_at (g_cost s) (Node.x n, Node.y n) <= Node.g_cost n /\
    g_at (g_cost s) (Node.x n, Node.y n) < INT_MAX /\
    Node.h_cost n = heuristic (Node.x n) (Node.y n);
  inv_from : forall p, in_bounds p -> p <> start ->
    g_at (g_cost s) p < INT_MAX ->
    exists u, came_from s !! index p.1 p.2 = Some u /\ in_bounds u /\
              closed_at (visited s) u = true /\ passage m u p /\
              g_at (g_cost s) p = g_at (g_cost s) u + 1;
  inv_from_start : came_from s !! index 0 0 = None;
  inv_goal : closed_at (visited s) goal = false;
  inv_count : forall p, in_bounds p -> g_at (g_cost s) p < INT_MAX ->
    g_at (g_cost s) p + (if closed_at (visited s) p then 1 else 0)
    <= Z.of_nat (closed_count (visited s))
}.

Definition Inv (m : Maze) (s : Search) : Prop := SInv m s start [].

(** The loop variant. *)
Definition measure (s : Search) : nat :=
  (length (pq_elems (open_set s)) + 2 * sum_list_with Z.to_nat (g_cost s))%nat.

(** The back-pointers from [p] to the start: [l] lists the cells the
    reconstruction loop pushes. *)
Inductive back_path (m : Maze) (g : list Z) (cf : gmap Z (Z * Z))
  : Z * Z -> list (Z * Z) -> Prop :=
  | back_path_start : cf !! index 0 0 = None -> back_path m g cf start []
  | back_path_step p u l :
      cf !! index p.1 p.2 = Some u -> in_bounds p -> in_bounds u ->
      passage m u p -> g_at g p = g_at g u + 1 -> 0 <= g_at g u ->
      back_path m g cf u l -> back_path m g cf p (p :: l).

(** What [a_star] returns: no path when the goal cannot be reached,
    otherwise a shortest walk from the start to the goal. *)
Definition forward_path (m : Maze) (path : list (Z * Z)) : Prop :=
  head path = Some start /\ last path = Some goal /\
  chain m path /\ NoDup path.

Definition search_result (m : Maze) (path : list (Z * Z)) : Prop :=
  (path = [] /\ ~ reachable m start goal) \/
  (forward_path m path /\
   shortest_distance m start goal (Nat.pred (length path))).

(** *** Rendering and [main] *)

(** [Maze::draw] *)
Definition draw (m : Maze) : list Cmd :=
  SetRenderDrawColor 255 255 255 255 :: flat_map draw_cell (maze m).

(** [draw_path] *)
Definition draw_path (path : list (Z * Z)) (m : Maze) : result (list Cmd) :=
  foldM (draw_path_step path) (seq 1 (length path - 1))
        ([SetRenderDrawColor 0 0 0 0; RenderClear] ++ draw m ++ draw_start_end
         ++ [SetRenderDrawColor 255 0 255 255]).

(** [main], given the seeded generator: the calls on the renderer
    before the search, the path found, and the calls of [draw_path],
    which clears the renderer first and so leaves the final picture.
    The progress display inside [a_star] is not part of the model of
    [a_star]. *)
Definition main (fuel : nat) (g : RNG)
  : result (list Cmd * list (Z * Z) * list Cmd) :=
  st <- generate_maze fuel 0 0 (mkRun (Maze_new g) []) ;;
  let shown := draw (this st) ++ draw_start_end in
  r <- a_star fuel (this st) ;;
  final <- draw_path r.1 r.2 ;;
  Ok (shown, r.1, final).

(** A path without repetition between two cells. *)
Definition simple_path (m : Maze) (u v : Z * Z) (l : list (Z * Z)) : Prop :=
  head l = Some u /\ last l = Some v /\ chain m l /\ NoDup l.

(** While the generator runs, two walls are down for every visited
    cell but the first. *)
Definition walls_counted (st : Run) : Prop :=
  wall_count (maze (this st)) =
  (2 * length (maze (this st)) + 2 + 2 * unvisited_count (maze (this st)))%nat.

(** Each cell of the list is joined to the next by a passage. *)
Fixpoint linked (m : Maze) (l : list (Z * Z)) : Prop :=
  match l with
  | a :: (b :: _) as t => passage m a b /\ linked m t
  | _ => True
  end.

(** ** Assumptions on the parameters *)

Hypothesis COLS_pos : 0 < COLS.
Hypothesis ROWS_pos : 0 < ROWS.

(** ** Basic facts *)

(** [tauto] on the goal and the local hypotheses only. *)
Ltac ptauto :=
  repeat match goal with
         | H : context [pq_elems] |- _ => clear H
         | H : context [pq_pop] |- _ => clear H
         | H : context [shuffle] |- _ => clear H
         | H : COLS * ROWS < INT_MAX |- _ => clear H
         end;
  try clear pq_elems; try clear pq_pop; try clear pq_push;
  try clear pq_empty; try clear PQ; try clear shuffle;
  tauto.

Lemma bind_Ok {A B : Type} (r : result A) (k : A -> result B) (b : B) :
  bind r k = Ok b <-> exists a, r = Ok a /\ k a = Ok b.
Proof.
  destruct r as [a| |]; simpl; split.
  - intros H. exists a. auto.
  - intros (a' & Ha & Hk). congruence.
  - discriminate.
  - intros (a' & Ha & _). discriminate.
  - discriminate.
  - intros (a' & Ha & _). discriminate.
Qed.

Lemma vec_get_Ok {A : Type} (v : list A) (i : Z) (a : A) :
  vec_get v i = Ok a <->
  0 <= i < Z.of_nat (length v) /\ v !! Z.to_nat i = Some a.
Proof.
  unfold vec_get. case_bool_decide as Hi.
  - destruct (v !! Z.to_nat i) as [a'|] eqn:E; split.
    + intros [= ->]. auto.
    + intros [_ [= ->]]. reflexivity.
    + discriminate.
    + intros [_ ?]. discriminate.
  - split; [discriminate | ptauto].
Qed.

Lemma vec_get_in_range {A : Type} (v : list A) (i : Z) :
  0 <= i < Z.of_nat (length v) -> exists a, vec_get v i = Ok a.
Proof.
  intros Hi. destruct (lookup_lt_is_Some_2 v (Z.to_nat i)) as [a Ha]; [lia|].
  exists a. apply vec_get_Ok. auto.
Qed.

Lemma vec_set_Ok {A : Type} (v v' : list A) (i : Z) (a : A) :
  vec_set v i a = Ok v' <->
  0 <= i < Z.of_nat (length v) /\ v' = <[Z.to_nat i := a]> v.
Proof.
  unfold vec_set. case_bool_decide as Hi; split.
  - intros [= <-]. auto.
  - intros [_ ->]. reflexivity.
  - discriminate.
  - ptauto.
Qed.

Lemma index_range p : in_bounds p -> 0 <= index p.1 p.2 < COLS * ROWS.
Proof. unfold in_bounds, index. intros [Hx Hy]. nia. Qed.

Lemma index_inj p q :
  in_bounds p -> in_bounds q -> index p.1 p.2 = index q.1 q.2 -> p = q.
Proof.
  destruct p as [px py], q as [qx qy]. unfold in_bounds, index. simpl.
  intros [Hx Hy] [Hx' Hy'] H.
  assert (py = qy) by nia. subst. f_equal. lia.
Qed.

Lemma index_to_nat_inj p q :
  in_bounds p -> in_bounds q ->
  Z.to_nat (index p.1 p.2) = Z.to_nat (index q.1 q.2) -> p = q.
Proof.
  intros Hp Hq H. apply index_inj; auto.
  pose proof (index_range p Hp). pose proof (index_range q Hq). lia.
Qed.

Lemma valid_dir_cases d :
  valid_dir d -> d = NORTH \/ d = SOUTH \/ d = WEST \/ d = EAST.
Proof. unfold valid_dir, NORTH, SOUTH, WEST, EAST. lia. Qed.

Lemma step_NORTH p : step p NORTH = (p.1, p.2 - 1).
Proof. unfold step, step_x, step_y. simpl. f_equal; lia. Qed.
Lemma step_SOUTH p : step p SOUTH = (p.1, p.2 + 1).
Proof. unfold step, step_x, step_y. simpl. f_equal; lia. Qed.
Lemma step_WEST p : step p WEST = (p.1 - 1, p.2).
Proof. unfold step, step_x, step_y. simpl. f_equal; lia. Qed.
Lemma step_EAST p : step p EAST = (p.1 + 1, p.2).
Proof. unfold step, step_x, step_y. simpl. f_equal; lia. Qed.

Ltac dir_cases d H :=
  destruct (valid_dir_cases d H) as [-> | [-> | [-> | ->]]].

Lemma opposite_valid d : valid_dir d -> valid_dir (opposite d).
Proof.
  intros H.
  dir_cases d H; unfold valid_dir, opposite, NORTH, SOUTH, WEST, EAST; simpl; lia.
Qed.

Lemma opposite_involutive d : valid_dir d -> opposite (opposite d) = d.
Proof. intros H. dir_cases d H; reflexivity. Qed.

Lemma step_opposite p d : valid_dir d -> step (step p d) (opposite d) = p.
Proof.
  intros H. destruct p as [x y].
  dir_cases d H; unfold step, step_x, step_y; simpl; f_equal; lia.
Qed.

Lemma step_neq p d : valid_dir d -> step p d <> p.
Proof.
  intros H. destruct p as [x y].
  dir_cases d H; unfold step, step_x, step_y; simpl; intros [= E1 E2]; lia.
Qed.

Lemma in_grid_spec x y : in_grid x y = true <-> in_bounds (x, y).
Proof. unfold in_grid, in_bounds. simpl. lia. Qed.

Lemma in_grid_false x y : in_grid x y = false <-> ~ in_bounds (x, y).
Proof. rewrite <- in_grid_spec. destruct (in_grid x y); split; congruence. Qed.

(** *** [is_walkable] *)

Lemma is_walkable_outside x y d m :
  ~ in_bounds (x, y) -> is_walkable x y d m = Ok (false, m).
Proof.
  unfold in_bounds, is_walkable. simpl. intros H.
  destruct ((x <? 0) || (y <? 0) || (COLS <=? x) || (ROWS <=? y)) eqn:E;
    [reflexivity | lia].
Qed.

Lemma is_walkable_inside x y d m :
  in_bounds (x, y) -> well_formed (maze m) -> valid_dir d ->
  is_walkable x y d m = Ok (removed_at (maze m) (x, y) d, m).
Proof.
  intros Hb Hwf Hd. pose proof (index_range _ Hb) as Hi. simpl in Hi.
  unfold in_bounds in Hb. simpl in Hb. unfold is_walkable.
  destruct ((x <? 0) || (y <? 0) || (COLS <=? x) || (ROWS <=? y)) eqn:E; [lia|].
  unfold well_formed in Hwf. fold (index x y).
  destruct (vec_get_in_range (maze m) (index x y)) as [c Hc]; [lia|].
  rewrite Hc. simpl. apply vec_get_Ok in Hc as [_ Hc].
  unfold removed_at. simpl. rewrite Hc.
  dir_cases d Hd; reflexivity.
Qed.

Lemma is_walkable_frame x y d m b m' :
  is_walkable x y d m = Ok (b, m') -> m' = m.
Proof.
  unfold is_walkable.
  destruct ((x <? 0) || (y <? 0) || (COLS <=? x) || (ROWS <=? y)).
  - intros [= _ <-]. reflexivity.
  - intros H. apply bind_Ok in H as (c & _ & H).
    apply bind_Ok in H as (s & _ & H). injection H as _ <-. reflexivity.
Qed.

Lemma walkable_in_bounds m p d : walkable m p d -> in_bounds p.
Proof.
  intros [m' H]. destruct p as [x y]. simpl in H.
  destruct (decide (in_bounds (x, y))) as [Hb|Hb]; [assumption|].
  rewrite is_walkable_outside in H by assumption. discriminate.
Qed.

Lemma walkable_removed m p d :
  well_formed (maze m) -> valid_dir d ->
  (walkable m p d <-> in_bounds p /\ removed_at (maze m) p d = true).
Proof.
  intros Hwf Hd. destruct p as [x y]. split.
  - intros H. pose proof (walkable_in_bounds _ _ _ H) as Hb. split; [assumption|].
    destruct H as [m' H]. simpl in H.
    rewrite is_walkable_inside in H by assumption. congruence.
  - intros [Hb Hr]. exists m. simpl.
    rewrite is_walkable_inside by assumption. rewrite Hr. reflexivity.
Qed.

(** C6: [is_walkable] answers false for a position outside the grid,
    whatever the direction; for a position inside the grid and one of
    the four directions it answers true exactly when the wall of that
    cell in that direction is removed.  In both cases it returns
    normally and leaves the maze as it was. *)
Theorem is_walkable_spec (m : Maze) (x y direction : Z) :
  well_formed (maze m) ->
  ((x < 0 \/ y < 0 \/ x >= COLS \/ y >= ROWS) ->
     is_walkable x y direction m = Ok (false, m)) /\
  (0 <= x < COLS -> 0 <= y < ROWS -> valid_dir direction ->
     exists c s b,
       maze m !! Z.to_nat (y * COLS + x) = Some c /\
       array4_get (Cell.segments c) direction = Ok s /\
       is_walkable x y direction m = Ok (b, m) /\
       (b = true <-> Segment.exist s = false)).
Proof.
  intros Hwf. split.
  - intros Hout. apply is_walkable_outside. unfold in_bounds. simpl. lia.
  - intros Hx Hy Hd.
    assert (Hb : in_bounds (x, y)) by (split; assumption).
    pose proof (index_range _ Hb) as Hi. simpl in Hi. unfold index in Hi.
    destruct (lookup_lt_is_Some_2 (maze m) (Z.to_nat (y * COLS + x))) as [c Hc].
    { unfold well_formed in Hwf. lia. }
    assert (Hs : exists s, array4_get (Cell.segments c) direction = Ok s).
    { dir_cases direction Hd; eexists; reflexivity. }
    destruct Hs as [s Hs].
    exists c, s, (negb (Segment.exist s)). repeat split; try assumption.
    + rewrite is_walkable_inside by assumption.
      unfold removed_at, index. simpl. rewrite Hc, Hs. reflexivity.
    + destruct (Segment.exist s); simpl; congruence.
    + destruct (Segment.exist s); simpl; congruence.
Qed.

(** *** The heuristic *)

Lemma heuristic_step p d :
  valid_dir d ->
  heuristic p.1 p.2 <= 1 + heuristic (step p d).1 (step p d).2.
Proof.
  intros Hd. destruct p as [x y]. unfold heuristic.
  dir_cases d Hd;
    [rewrite step_NORTH | rewrite step_SOUTH | rewrite step_WEST | rewrite step_EAST];
    simpl; lia.
Qed.

Lemma heuristic_walk m u v n :
  walk m u v n -> heuristic u.1 u.2 <= Z.of_nat n + heuristic v.1 v.2.
Proof.
  induction 1 as [u | u v w n (d & Hd & _ & ->) _ IH].
  - lia.
  - pose proof (heuristic_step u d Hd). lia.
Qed.

Lemma heuristic_goal : heuristic goal.1 goal.2 = 0.
Proof. unfold heuristic, goal. simpl. lia. Qed.

Lemma heuristic_nonneg x y : 0 <= heuristic x y.
Proof. unfold heuristic. lia. Qed.

(** C7: the heuristic is the Manhattan distance to the goal, and it
    never exceeds the length of a shortest walk to the goal. *)
Theorem heuristic_admissible :
  (forall x y, heuristic x y = Z.abs ((COLS - 1) - x) + Z.abs ((ROWS - 1) - y)) /\
  (forall m x y n,
      shortest_distance m (x, y) goal n -> heuristic x y <= Z.of_nat n).
Proof.
  split.
  - intros x y. reflexivity.
  - intros m x y n [Hw _]. apply heuristic_walk in Hw.
    rewrite heuristic_goal in Hw. simpl in Hw. lia.
Qed.

(** *** The search leaves the maze alone *)

Lemma expand_dir_frame current m s dir m' s' :
  expand_dir current (m, s) dir = Ok (m', s') -> m' = m.
Proof.
  unfold expand_dir. intros H.
  apply bind_Ok in H as ([w m1] & Hw & H).
  apply is_walkable_frame in Hw as ->.
  destruct (negb w); [congruence|].
  apply bind_Ok in H as (new_g & _ & H).
  apply bind_Ok in H as (old & _ & H).
  destruct (_ <? old).
  - apply bind_Ok in H as (g' & _ & H). congruence.
  - congruence.
Qed.

Lemma foldM_expand_frame current dirs m s m' s' :
  foldM (expand_dir current) dirs (m, s) = Ok (m', s') -> m' = m.
Proof.
  revert m s. induction dirs as [|d dirs IH]; intros m s; simpl.
  - congruence.
  - intros H. apply bind_Ok in H as ([m1 s1] & H1 & H).
    apply expand_dir_frame in H1 as ->. eauto.
Qed.

Lemma a_star_loop_frame rfuel fuel m s path m' :
  a_star_loop rfuel fuel m s = Ok (path, m') -> m' = m.
Proof.
  revert m s. induction fuel as [|fuel IH]; intros m s; cbn [a_star_loop];
    [discriminate|].
  destruct (pq_pop (open_set s)) as [[current rest]|]; [|congruence].
  intros H. apply bind_Ok in H as (v & _ & H).
  destruct v; [eauto|].
  apply bind_Ok in H as (vis & _ & H).
  destruct (_ && _).
  - apply bind_Ok in H as (p & _ & H). congruence.
  - apply bind_Ok in H as ([m1 s1] & H1 & H).
    apply foldM_expand_frame in H1 as ->. eauto.
Qed.

Lemma a_star_frame fuel m path m' :
  a_star fuel m = Ok (path, m') -> m' = m.
Proof.
  unfold a_star. intros H. apply bind_Ok in H as (s & _ & H).
  eapply a_star_loop_frame; eassumption.
Qed.

(** C9: when [a_star] returns, the maze it hands back is the maze it
    was given: every cell with its four wall segments, its visited
    flag and its coordinates, and the generator, are unchanged. *)
Theorem a_star_read_only (fuel : nat) (m m' : Maze) (path : list (Z * Z)) :
  a_star fuel m = Ok (path, m') -> m' = m.
Proof.
  unfold a_star. intros Hrun.
  apply bind_Ok in Hrun as (s0 & _ & Hloop).
  revert Hloop. apply a_star_loop_frame.
Qed.

(** ** Maze generation *)

(** [std::shuffle] returns a permutation of its input. *)
Hypothesis shuffle_perm : forall g l, (shuffle g l).1 ≡ₚ l.

(** *** Updating one cell of the vector *)

Lemma sum_list_with_insert {A : Type} (f : A -> nat) (l : list A) i x y :
  l !! i = Some x ->
  (sum_list_with f (<[i := y]> l) + f x = sum_list_with f l + f y)%nat.
Proof.
  revert i. induction l as [|a l IH]; intros [|i]; simpl; try discriminate.
  - intros [= ->]. lia.
  - intros H. specialize (IH _ H). lia.
Qed.

Lemma visited_at_insert cells p c q :
  in_bounds p -> in_bounds q -> well_formed cells ->
  visited_at (<[Z.to_nat (index p.1 p.2) := c]> cells) q =
  if decide (q = p) then Cell.visited c else visited_at cells q.
Proof.
  intros Hp Hq Hwf. unfold visited_at.
  pose proof (index_range p Hp) as Hi. unfold well_formed in Hwf.
  case_decide as E.
  - subst q. rewrite list_lookup_insert_eq by lia. reflexivity.
  - rewrite list_lookup_insert_ne; [reflexivity|].
    intros H. apply E. symmetry. apply index_to_nat_inj; assumption.
Qed.

Lemma removed_at_insert cells p c q d :
  in_bounds p -> in_bounds q -> well_formed cells ->
  removed_at (<[Z.to_nat (index p.1 p.2) := c]> cells) q d =
  if decide (q = p) then
    match array4_get (Cell.segments c) d with
    | Ok s => negb (Segment.exist s)
    | _ => false
    end
  else removed_at cells q d.
Proof.
  intros Hp Hq Hwf. unfold removed_at.
  pose proof (index_range p Hp) as Hi. unfold well_formed in Hwf.
  case_decide as E.
  - subst q. rewrite list_lookup_insert_eq by lia. reflexivity.
  - rewrite list_lookup_insert_ne; [reflexivity|].
    intros H. apply E. symmetry. apply index_to_nat_inj; assumption.
Qed.

Lemma well_formed_insert cells i (c : Cell.t) :
  well_formed cells -> well_formed (<[i := c]> cells).
Proof. unfold well_formed. rewrite length_insert. auto. Qed.

Lemma cell_lookup cells p :
  in_bounds p -> well_formed cells ->
  exists c, cells !! Z.to_nat (index p.1 p.2) = Some c.
Proof.
  intros Hp Hwf. pose proof (index_range p Hp). unfold well_formed in Hwf.
  apply lookup_lt_is_Some_2. lia.
Qed.

(** *** [current.visited = true] *)

Lemma mark_visited_Ok st p :
  in_bounds p -> well_formed (maze (this st)) ->
  exists c,
    maze (this st) !! Z.to_nat (index p.1 p.2) = Some c /\
    mark_visited (index p.1 p.2) p st =
    Ok (mkRun (mkMaze (<[Z.to_nat (index p.1 p.2) := Cell.set_visited c true]>
                         (maze (this st)))
                      (rng (this st)))
              (marks st ++ [p])).
Proof.
  intros Hp Hwf. destruct (cell_lookup _ _ Hp Hwf) as [c Hc]. exists c.
  split; [assumption|]. unfold mark_visited.
  pose proof (index_range p Hp) as Hi. unfold well_formed in Hwf.
  assert (Hg : vec_get (maze (this st)) (index p.1 p.2) = Ok c).
  { apply vec_get_Ok. split; [lia | assumption]. }
  rewrite Hg. simpl. unfold vec_set.
  rewrite bool_decide_eq_true_2 by lia. reflexivity.
Qed.

Lemma mark_visited_effect st p st1 :
  in_bounds p -> well_formed (maze (this st)) ->
  mark_visited (index p.1 p.2) p st = Ok st1 ->
  well_formed (maze (this st1)) /\
  marks st1 = marks st ++ [p] /\
  (forall q, in_bounds q ->
     visited_at (maze (this st1)) q =
     if decide (q = p) then true else visited_at (maze (this st)) q) /\
  (forall q d, in_bounds q ->
     removed_at (maze (this st1)) q d = removed_at (maze (this st)) q d) /\
  (unvisited_count (maze (this st1)) +
     (if visited_at (maze (this st)) p then 0 else 1) =
   unvisited_count (maze (this st)))%nat /\
  removed_pairs (maze (this st1)) = removed_pairs (maze (this st)).
Proof.
  intros Hp Hwf H. destruct (mark_visited_Ok st p Hp Hwf) as (c & Hc & E).
  rewrite E in H. injection H as <-. simpl.
  split; [apply well_formed_insert; assumption|].
  split; [reflexivity|].
  split; [intros q Hq; rewrite visited_at_insert by assumption; reflexivity|].
  split.
  - intros q d Hq. rewrite removed_at_insert by assumption.
    case_decide as Eq; [|reflexivity]. subst q.
    unfold removed_at. rewrite Hc. reflexivity.
  - split.
    + unfold unvisited_count.
      pose proof (sum_list_with_insert
                    (fun c => if Cell.visited c then 0%nat else 1%nat)
                    _ _ _ (Cell.set_visited c true) Hc) as Hs.
      simpl in Hs. unfold visited_at. rewrite Hc.
      destruct (Cell.visited c); lia.
    + unfold removed_pairs.
      pose proof (sum_list_with_insert
        (fun c => ((if Segment.exist (a1 (Cell.segments c)) then 0 else 1)
                   + (if Segment.exist (a3 (Cell.segments c)) then 0 else 1))%nat)
        _ _ _ (Cell.set_visited c true) Hc) as Hs.
      simpl in Hs. lia.
Qed.

Lemma mark_origin st x y :
  in_bounds (x, y) -> well_formed (maze (this st)) ->
  exists st1,
    mark_visited (index x y) (x, y) st = Ok st1 /\
    well_formed (maze (this st1)) /\
    marks st1 = marks st ++ [(x, y)] /\
    (forall q, in_bounds q ->
       visited_at (maze (this st1)) q =
       if decide (q = (x, y)) then true else visited_at (maze (this st)) q) /\
    (forall q d, in_bounds q ->
       removed_at (maze (this st1)) q d = removed_at (maze (this st)) q d) /\
    (unvisited_count (maze (this st1)) +
       (if visited_at (maze (this st)) (x, y) then 0 else 1) =
     unvisited_count (maze (this st)))%nat /\
    removed_pairs (maze (this st1)) = removed_pairs (maze (this st)).
Proof.
  intros Hxy Hwf. destruct (mark_visited_Ok st (x, y) Hxy Hwf) as (c & _ & E).
  cbn [fst snd] in E. eexists. split; [exact E|].
  apply (mark_visited_effect st (x, y)); assumption.
Qed.

(** *** [remove_wall] *)

Lemma remove_wall_Ok c d :
  valid_dir d ->
  exists c', Cell.remove_wall c d = Ok c' /\
    Cell.visited c' = Cell.visited c /\
    Cell.x c' = Cell.x c /\ Cell.y c' = Cell.y c /\
    forall d', valid_dir d' ->
      match array4_get (Cell.segments c') d' with
      | Ok s => negb (Segment.exist s)
      | _ => false
      end =
      if decide (d' = d) then true
      else match array4_get (Cell.segments c) d' with
           | Ok s => negb (Segment.exist s)
           | _ => false
           end.
Proof.
  intros Hd. unfold Cell.remove_wall.
  dir_cases d Hd; simpl; eexists; (split; [reflexivity|]);
    repeat (split; [reflexivity|]);
    intros d' Hd'; dir_cases d' Hd'; reflexivity.
Qed.

Lemma remove_wall_at_Ok st p d :
  in_bounds p -> well_formed (maze (this st)) -> valid_dir d ->
  exists c c',
    maze (this st) !! Z.to_nat (index p.1 p.2) = Some c /\
    Cell.remove_wall c d = Ok c' /\
    remove_wall_at (index p.1 p.2) d st =
    Ok (set_maze st (<[Z.to_nat (index p.1 p.2) := c']> (maze (this st)))).
Proof.
  intros Hp Hwf Hd. destruct (cell_lookup _ _ Hp Hwf) as [c Hc].
  destruct (remove_wall_Ok c d Hd) as (c' & Hc' & _).
  exists c, c'. split; [assumption|]. split; [assumption|].
  unfold remove_wall_at.
  pose proof (index_range p Hp) as Hi. unfold well_formed in Hwf.
  assert (Hg : vec_get (maze (this st)) (index p.1 p.2) = Ok c).
  { apply vec_get_Ok. split; [lia | assumption]. }
  rewrite Hg. simpl. rewrite Hc'. simpl. unfold vec_set.
  rewrite bool_decide_eq_true_2 by lia. reflexivity.
Qed.

Lemma remove_wall_at_effect st p d st1 :
  in_bounds p -> well_formed (maze (this st)) -> valid_dir d ->
  remove_wall_at (index p.1 p.2) d st = Ok st1 ->
  well_formed (maze (this st1)) /\
  marks st1 = marks st /\
  rng (this st1) = rng (this st) /\
  (forall q, in_bounds q ->
     visited_at (maze (this st1)) q = visited_at (maze (this st)) q) /\
  (forall q d', in_bounds q -> valid_dir d' ->
     removed_at (maze (this st1)) q d' =
     if decide (q = p /\ d' = d) then true
     else removed_at (maze (this st)) q d') /\
  unvisited_count (maze (this st1)) = unvisited_count (maze (this st)).
Proof.
  intros Hp Hwf Hd H.
  destruct (remove_wall_at_Ok st p d Hp Hwf Hd) as (c & c' & Hc & Hc' & E).
  rewrite E in H. injection H as <-. simpl.
  destruct (remove_wall_Ok c d Hd) as (c'' & Hc'' & Hv & _ & _ & Hw).
  assert (c'' = c') by congruence. subst c''.
  split; [apply well_formed_insert; assumption|].
  split; [reflexivity|]. split; [reflexivity|].
  split.
  - intros q Hq. rewrite visited_at_insert by assumption.
    case_decide as Eq; [|reflexivity]. subst q.
    unfold visited_at. rewrite Hc. assumption.
  - split.
    + intros q d' Hq Hd'. rewrite removed_at_insert by assumption.
      destruct (decide (q = p)) as [->|Eq].
      * rewrite Hw by assumption. unfold removed_at. rewrite Hc.
        destruct (decide (d' = d)) as [->|Ed].
        -- rewrite decide_True by auto. reflexivity.
        -- rewrite decide_False by ptauto. reflexivity.
      * rewrite decide_False by ptauto. reflexivity.
    + unfold unvisited_count.
      pose proof (sum_list_with_insert
                    (fun c => if Cell.visited c then 0%nat else 1%nat)
                    _ _ _ c' Hc) as Hs.
      simpl in Hs. rewrite Hv in Hs. lia.
Qed.

(** *** A proof rule for [generate_maze]

    Any property of the run that holds once the origin is marked, and
    that carving a passage from a visited cell into an unvisited
    neighbour (both walls removed, the neighbour marked) preserves,
    holds when [generate_maze] returns; and it does return, given fuel
    beyond the number of unvisited cells. *)

Lemma grows_refl cells : well_formed cells -> grows cells cells.
Proof. intros H. repeat split; auto. Qed.

Lemma grows_trans a b c : grows a b -> grows b c -> grows a c.
Proof.
  intros (_ & Hn & Hv) (Hwf & Hn' & Hv'). repeat split; auto. lia.
Qed.

Lemma closed_cell_grows a b q : grows a b -> closed_cell a q -> closed_cell b q.
Proof. intros (_ & _ & Hv) Hc d Hd Hb. apply Hv; auto. Qed.

Section GenerateRule.

Variable P : Run -> Prop.

Hypothesis P_rng : forall st g,
  P st -> P (mkRun (mkMaze (maze (this st)) g) (marks st)).

Hypothesis P_carve : forall st p d st1 st2 st3,
  well_formed (maze (this st)) -> P st ->
  in_bounds p -> valid_dir d -> in_bounds (step p d) ->
  visited_at (maze (this st)) p = true ->
  visited_at (maze (this st)) (step p d) = false ->
  remove_wall_at (index p.1 p.2) d st = Ok st1 ->
  remove_wall_at (index (step p d).1 (step p d).2) (opposite d) st1 = Ok st2 ->
  mark_visited (index (step p d).1 (step p d).2) (step p d) st2 = Ok st3 ->
  P st3.

Lemma visit_dirs_rule rec n x y :
  call_rule P rec n -> in_bounds (x, y) ->
  forall ds st,
    Forall valid_dir ds -> well_formed (maze (this st)) -> P st ->
    visited_at (maze (this st)) (x, y) = true ->
    (unvisited_count (maze (this st)) <= n)%nat ->
    exists st',
      foldM (visit_dir rec x y) ds st = Ok st' /\ P st' /\
      grows (maze (this st)) (maze (this st')) /\
      (forall q, in_bounds q -> visited_at (maze (this st')) q = true ->
         visited_at (maze (this st)) q = true \/
         closed_cell (maze (this st')) q) /\
      (forall d, d ∈ ds -> in_bounds (step (x, y) d) ->
         visited_at (maze (this st')) (step (x, y) d) = true).
Proof.
  intros Hrec Hxy ds. induction ds as [|d ds IH]; intros st Hds Hwf HP Hvis Hn.
  - exists st. simpl. split; [reflexivity|]. split; [assumption|].
    split; [apply grows_refl; assumption|]. split; [auto|].
    intros d Hd. inversion Hd.
  - apply Forall_cons in Hds as [Hd Hds]. cbn [foldM]. unfold visit_dir at 1.
    fold (step (x, y) d).1. fold (step (x, y) d).2.
    change (step_x x d) with (step (x, y) d).1.
    change (step_y y d) with (step (x, y) d).2.
    set (nb := step (x, y) d).
    assert (Hcont : forall sa,
      P sa -> grows (maze (this st)) (maze (this sa)) ->
      (forall q, in_bounds q -> visited_at (maze (this sa)) q = true ->
         visited_at (maze (this st)) q = true \/
         closed_cell (maze (this sa)) q) ->
      (in_bounds nb -> visited_at (maze (this sa)) nb = true) ->
      exists st',
        foldM (visit_dir rec x y) ds sa = Ok st' /\ P st' /\
        grows (maze (this st)) (maze (this st')) /\
        (forall q, in_bounds q -> visited_at (maze (this st')) q = true ->
           visited_at (maze (this st)) q = true \/
           closed_cell (maze (this st')) q) /\
        (forall d', d' ∈ d :: ds -> in_bounds (step (x, y) d') ->
           visited_at (maze (this st')) (step (x, y) d') = true)).
    { intros sa HPa Hg Hcl Hnb.
      destruct (IH sa Hds) as (st' & E & HP' & Hg' & Hcl' & Hdirs).
      - apply Hg.
      - assumption.
      - apply Hg; assumption.
      - destruct Hg as (_ & ? & _). lia.
      - exists st'. split; [assumption|]. split; [assumption|].
        split; [eapply grows_trans; eassumption|]. split.
        + intros q Hq Hv. destruct (Hcl' q Hq Hv) as [Hv'|Hc]; [|auto].
          destruct (Hcl q Hq Hv') as [?|Hc]; [auto|].
          right. eapply closed_cell_grows; eassumption.
        + intros d' Hd' Hb. apply elem_of_cons in Hd' as [->|Hd'].
          * apply Hg'; [assumption|]. apply Hnb. assumption.
          * apply Hdirs; assumption. }
    destruct (in_grid nb.1 nb.2) eqn:Hin.
    + apply in_grid_spec in Hin.
      assert (Hnb : in_bounds nb) by (destruct nb; exact Hin).
      destruct (cell_lookup _ _ Hnb Hwf) as [c Hc].
      pose proof (index_range nb Hnb) as Hi.
      assert (Hget : vec_get (maze (this st)) (nb.2 * COLS + nb.1) = Ok c).
      { apply vec_get_Ok. unfold well_formed in Hwf. unfold index in *.
        split; [lia | assumption]. }
      rewrite Hget. cbn [bind].
      assert (Hvc : visited_at (maze (this st)) nb = Cell.visited c).
      { unfold visited_at. rewrite Hc. reflexivity. }
      destruct (Cell.visited c) eqn:Hv; cbn [negb].
      * cbn [bind]. apply Hcont; auto. apply grows_refl; assumption.
      * destruct (remove_wall_at_Ok st (x, y) d Hxy Hwf Hd)
          as (c1 & c1' & _ & _ & E1).
        pose proof (remove_wall_at_effect _ _ _ _ Hxy Hwf Hd E1)
          as (Hwf1 & _ & _ & Hv1 & _ & Hn1).
        set (st1 := set_maze st _) in *.
        destruct (remove_wall_at_Ok st1 nb (opposite d) Hnb Hwf1
                    (opposite_valid d Hd)) as (c2 & c2' & _ & _ & E2).
        pose proof (remove_wall_at_effect _ _ _ _ Hnb Hwf1
                      (opposite_valid d Hd) E2)
          as (Hwf2 & _ & _ & Hv2 & _ & Hn2).
        set (st2 := set_maze st1 _) in *.
        destruct (mark_visited_Ok st2 nb Hnb Hwf2) as (c3 & _ & E3).
        pose proof (mark_visited_effect _ _ _ Hnb Hwf2 E3)
          as (Hwf3 & _ & Hv3 & _ & Hn3 & _).
        set (st3 := mkRun _ _) in *.
        assert (HP3 : P st3).
        { eapply (P_carve st (x, y) d st1 st2 st3); eassumption. }
        assert (Hlt : (unvisited_count (maze (this st3)) < n)%nat).
        { rewrite Hv2, Hv1, Hvc in Hn3 by assumption. lia. }
        destruct (Hrec nb.1 nb.2 st2 st3) as (st4 & E4 & HP4 & Hg4 & Hcl4);
          try assumption.
        unfold index in E1, E2. cbn [fst snd] in E1.
        rewrite E1. cbn [bind]. rewrite E2. cbn [bind].
        rewrite E4. cbn [bind].
        assert (Hg03 : grows (maze (this st)) (maze (this st3))).
        { split; [assumption|]. split.
          - rewrite Hv2, Hv1, Hvc in Hn3 by assumption. lia.
          - intros q Hq Hvq. rewrite Hv3 by assumption.
            case_decide; [reflexivity|]. rewrite Hv2, Hv1; assumption. }
        apply Hcont.
        -- assumption.
        -- eapply grows_trans; eassumption.
        -- intros q Hq Hvq. destruct (Hcl4 q Hq Hvq) as [[Hv' Hne]|Hc'].
           ++ left. rewrite Hv3 in Hv' by assumption.
              rewrite <- (surjective_pairing nb) in Hne.
              rewrite decide_False in Hv' by assumption.
              rewrite Hv2, Hv1 in Hv'; assumption.
           ++ right. assumption.
        -- intros _. destruct Hg4 as (_ & _ & Hm). apply Hm; [assumption|].
           rewrite Hv3 by assumption. rewrite decide_True; reflexivity.
    + cbn [bind]. apply in_grid_false in Hin.
      apply Hcont; [assumption | apply grows_refl; assumption | auto |].
      intros Hb. exfalso. apply Hin. rewrite <- surjective_pairing. assumption.
Qed.

Lemma shuffled_directions g :
  let ds := (shuffle g [NORTH; SOUTH; WEST; EAST]).1 in
  Forall valid_dir ds /\ forall d, valid_dir d -> d ∈ ds.
Proof.
  intros ds. pose proof (shuffle_perm g [NORTH; SOUTH; WEST; EAST]) as Hp.
  fold ds in Hp. split.
  - rewrite Hp. unfold valid_dir, NORTH, SOUTH, WEST, EAST.
    repeat constructor; lia.
  - intros d Hd. rewrite Hp.
    dir_cases d Hd; repeat constructor.
Qed.

Lemma generate_rule fuel : call_rule P (generate_maze fuel) fuel.
Proof.
  induction fuel as [|fuel IH]; intros x y st st1 Hxy Hwf Hmark HP Hn; [lia|].
  cbn [generate_maze]. unfold index in Hmark. rewrite Hmark. cbn [bind].
  pose proof (mark_visited_effect st (x, y) st1 Hxy Hwf Hmark)
    as (Hwf1 & _ & Hv1 & _).
  destruct (shuffle (rng (this st1)) [NORTH; SOUTH; WEST; EAST])
    as [directions g] eqn:Esh.
  pose proof (shuffled_directions (rng (this st1))) as [Hds Hall].
  rewrite Esh in Hds, Hall. cbn [fst] in Hds, Hall.
  set (st2 := mkRun (mkMaze (maze (this st1)) g) (marks st1)).
  destruct (visit_dirs_rule (generate_maze fuel) fuel x y IH Hxy directions st2)
    as (st' & E & HP' & Hg & Hcl & Hdirs); try assumption.
  - apply P_rng. assumption.
  - subst st2. cbn [this maze]. rewrite Hv1 by assumption.
    rewrite decide_True; reflexivity.
  - subst st2. cbn [this maze]. lia.
  - exists st'. split; [assumption|]. split; [assumption|].
    split; [exact Hg|].
    intros q Hq Hvq. destruct (Hcl q Hq Hvq) as [Hv|Hc]; [|auto].
    destruct (decide (q = (x, y))) as [->|Hne]; [|auto].
    right. intros d Hd Hb. apply Hdirs; auto.
Qed.

End GenerateRule.

(** *** More fuel does not change a result *)

Lemma foldM_visit_mono rec1 rec2 x y :
  (forall x' y' st r, rec1 x' y' st = Ok r -> rec2 x' y' st = Ok r) ->
  forall ds st r,
    foldM (visit_dir rec1 x y) ds st = Ok r ->
    foldM (visit_dir rec2 x y) ds st = Ok r.
Proof.
  intros Hrec ds. induction ds as [|d ds IH]; intros st r; cbn [foldM]; [auto|].
  intros H. apply bind_Ok in H as (s1 & H1 & H).
  assert (H2 : visit_dir rec2 x y st d = Ok s1).
  { revert H1. unfold visit_dir. destruct (in_grid _ _); [|auto].
    intros H1. apply bind_Ok in H1 as (c & Hc & H1). rewrite Hc. cbn [bind].
    destruct (negb _); [|auto].
    apply bind_Ok in H1 as (sa & Ha & H1). rewrite Ha. cbn [bind].
    apply bind_Ok in H1 as (sb & Hb & H1). rewrite Hb. cbn [bind]. auto. }
  rewrite H2. cbn [bind]. auto.
Qed.

Lemma generate_maze_mono fuel fuel' x y st r :
  (fuel <= fuel')%nat ->
  generate_maze fuel x y st = Ok r -> generate_maze fuel' x y st = Ok r.
Proof.
  revert fuel' x y st r. induction fuel as [|fuel IH]; intros fuel' x y st r Hle;
    [discriminate|].
  destruct fuel' as [|fuel']; [lia|]. cbn [generate_maze].
  intros H. apply bind_Ok in H as (st1 & H1 & H). rewrite H1. cbn [bind].
  destruct (shuffle _ _) as [directions g].
  eapply foldM_visit_mono; [|eassumption].
  intros x' y' st' r'. apply IH. lia.
Qed.

(** The rule, for a run that is known to have returned. *)
Lemma generate_returned (P : Run -> Prop) :
  (forall st g, P st -> P (mkRun (mkMaze (maze (this st)) g) (marks st))) ->
  (forall st p d st1 st2 st3,
    well_formed (maze (this st)) -> P st ->
    in_bounds p -> valid_dir d -> in_bounds (step p d) ->
    visited_at (maze (this st)) p = true ->
    visited_at (maze (this st)) (step p d) = false ->
    remove_wall_at (index p.1 p.2) d st = Ok st1 ->
    remove_wall_at (index (step p d).1 (step p d).2) (opposite d) st1 = Ok st2 ->
    mark_visited (index (step p d).1 (step p d).2) (step p d) st2 = Ok st3 ->
    P st3) ->
  forall fuel x y st st1 st',
    in_bounds (x, y) -> well_formed (maze (this st)) ->
    mark_visited (index x y) (x, y) st = Ok st1 -> P st1 ->
    generate_maze fuel x y st = Ok st' ->
    P st' /\ explored (maze (this st1)) (maze (this st')) (x, y).
Proof.
  intros Hrng Hcarve fuel x y st st1 st' Hxy Hwf Hmark HP Hrun.
  set (F := Nat.max fuel (S (unvisited_count (maze (this st1))))).
  destruct (generate_rule P Hrng Hcarve F x y st st1)
    as (st'' & E & HP' & Hex); try assumption; [lia|].
  apply (generate_maze_mono fuel F) in Hrun; [|lia].
  assert (st'' = st') by congruence. subst st''. auto.
Qed.

(** *** Carving one passage *)

Lemma step_inj p q d : step p d = step q d -> p = q.
Proof.
  destruct p as [x y], q as [x' y']. unfold step, step_x, step_y. simpl.
  intros [= E1 E2]. f_equal; lia.
Qed.

Lemma opposite_inj d d' :
  valid_dir d -> valid_dir d' -> opposite d = opposite d' -> d = d'.
Proof.
  intros H H'. dir_cases d H; dir_cases d' H'; vm_compute; congruence.
Qed.

Lemma carve_effect st p d st1 st2 st3 :
  well_formed (maze (this st)) ->
  in_bounds p -> valid_dir d -> in_bounds (step p d) ->
  remove_wall_at (index p.1 p.2) d st = Ok st1 ->
  remove_wall_at (index (step p d).1 (step p d).2) (opposite d) st1 = Ok st2 ->
  mark_visited (index (step p d).1 (step p d).2) (step p d) st2 = Ok st3 ->
  well_formed (maze (this st3)) /\
  marks st3 = marks st ++ [step p d] /\
  (forall q, in_bounds q ->
     visited_at (maze (this st3)) q =
     if decide (q = step p d) then true else visited_at (maze (this st)) q) /\
  (forall q d', in_bounds q -> valid_dir d' ->
     removed_at (maze (this st3)) q d' =
     if decide ((q = p /\ d' = d) \/ (q = step p d /\ d' = opposite d))
     then true else removed_at (maze (this st)) q d') /\
  (unvisited_count (maze (this st3)) +
     (if visited_at (maze (this st)) (step p d) then 0 else 1) =
   unvisited_count (maze (this st)))%nat.
Proof.
  intros Hwf Hp Hd Hnb E1 E2 E3.
  pose proof (remove_wall_at_effect _ _ _ _ Hp Hwf Hd E1)
    as (Hwf1 & Hm1 & _ & Hv1 & Hr1 & Hn1).
  pose proof (remove_wall_at_effect _ _ _ _ Hnb Hwf1 (opposite_valid d Hd) E2)
    as (Hwf2 & Hm2 & _ & Hv2 & Hr2 & Hn2).
  pose proof (mark_visited_effect _ _ _ Hnb Hwf2 E3)
    as (Hwf3 & Hm3 & Hv3 & Hr3 & Hn3 & _).
  split; [assumption|]. split; [congruence|]. split.
  - intros q Hq. rewrite Hv3, Hv2, Hv1 by assumption. reflexivity.
  - split.
    + intros q d' Hq Hd'. rewrite Hr3, Hr2, Hr1 by assumption.
      repeat case_decide; try reflexivity; ptauto.
    + rewrite Hv2, Hv1 in Hn3 by assumption. lia.
Qed.

(** *** Wall symmetry and the outer walls *)

Lemma all_walls_present_removed_at cells p d :
  all_walls_present cells -> removed_at cells p d = false.
Proof.
  intros H. unfold removed_at.
  destruct (cells !! _) as [c|] eqn:Ec; [|reflexivity].
  destruct (array4_get _ _) as [s| |] eqn:Es; try reflexivity.
  rewrite (H c _ Ec d s Es). reflexivity.
Qed.

Lemma walls_ok_initial cells : all_walls_present cells -> walls_ok cells.
Proof.
  intros H. split; intros p d _ _ _;
    rewrite !all_walls_present_removed_at by assumption; reflexivity.
Qed.

Lemma carved_pair_cases p d q d' :
  valid_dir d -> valid_dir d' ->
  ((q = p /\ d' = d) \/ (q = step p d /\ d' = opposite d)) <->
  ((step q d' = p /\ opposite d' = d) \/
   (step q d' = step p d /\ opposite d' = opposite d)).
Proof.
  intros Hd Hd'. split.
  - intros [[-> ->] | [-> ->]].
    + right. auto.
    + left. split; [apply step_opposite | apply opposite_involutive]; assumption.
  - intros [[E1 E2] | [E1 E2]].
    + right. subst d. rewrite <- E1.
      rewrite opposite_involutive, step_opposite by assumption. auto.
    + left. apply opposite_inj in E2; [|assumption..]. subst d'.
      apply step_inj in E1. auto.
Qed.

Lemma walls_ok_carve st p d st1 st2 st3 :
  well_formed (maze (this st)) -> walls_ok (maze (this st)) ->
  in_bounds p -> valid_dir d -> in_bounds (step p d) ->
  remove_wall_at (index p.1 p.2) d st = Ok st1 ->
  remove_wall_at (index (step p d).1 (step p d).2) (opposite d) st1 = Ok st2 ->
  mark_visited (index (step p d).1 (step p d).2) (step p d) st2 = Ok st3 ->
  walls_ok (maze (this st3)).
Proof.
  intros Hwf [Hsym Hbd] Hp Hd Hnb E1 E2 E3.
  pose proof (carve_effect _ _ _ _ _ _ Hwf Hp Hd Hnb E1 E2 E3)
    as (_ & _ & _ & Hr & _).
  split.
  - intros q d' Hq Hd' Hqn.
    rewrite (Hr q d'), (Hr (step q d') (opposite d'))
      by auto using opposite_valid.
    pose proof (carved_pair_cases p d q d' Hd Hd') as Hiff.
    repeat case_decide; try reflexivity; try ptauto. auto.
  - intros q d' Hq Hd' Hout. rewrite Hr by assumption.
    case_decide as Hc; [|auto]. exfalso. apply Hout.
    destruct Hc as [[-> ->] | [-> ->]]; [assumption|].
    rewrite step_opposite; assumption.
Qed.

Lemma walls_ok_wall_symmetric m :
  well_formed (maze m) -> walls_ok (maze m) -> wall_symmetric m.
Proof.
  intros Hwf [Hsym _] p d Hp Hd Hnb.
  rewrite !walkable_removed by auto using opposite_valid.
  rewrite Hsym by assumption. ptauto.
Qed.

Lemma walls_ok_boundary_closed m :
  well_formed (maze m) -> walls_ok (maze m) -> boundary_closed m.
Proof.
  intros Hwf [_ Hbd] p d Hd Hw.
  apply walkable_removed in Hw as [Hp Hr]; [|assumption..].
  destruct (decide (in_bounds (step p d))) as [?|Hout]; [assumption|].
  rewrite Hbd in Hr by assumption. discriminate.
Qed.

(** [generate_maze] from a grid with all walls standing. *)
Lemma generate_maze_walls fuel x y st st' :
  in_bounds (x, y) -> well_formed (maze (this st)) ->
  all_walls_present (maze (this st)) ->
  generate_maze fuel x y st = Ok st' ->
  well_formed (maze (this st')) /\ walls_ok (maze (this st')).
Proof.
  intros Hxy Hwf Hall Hrun.
  destruct (mark_origin st x y Hxy Hwf) as (st1 & Hmark & Hwf1 & _ & _ & Hr1 & _).
  destruct (generate_returned (fun s => walls_ok (maze (this s))))
    with (fuel := fuel) (x := x) (y := y) (st := st) (st' := st') (st1 := st1)
    as [Hok (Hg & _)]; try assumption.
  - auto.
  - intros s p d s1 s2 s3 Hw Hok Hp Hd Hnb _ _. apply walls_ok_carve; assumption.
  - pose proof (walls_ok_initial _ Hall) as [Hsym Hbd].
    split; intros p d Hp Hd Hnb.
    + rewrite !Hr1 by assumption. apply Hsym; assumption.
    + rewrite Hr1 by assumption. apply Hbd; assumption.
  - destruct Hg as (Hwf' & _). auto.
Qed.

Lemma unvisited_count_le cells : (unvisited_count cells <= length cells)%nat.
Proof.
  unfold unvisited_count. induction cells as [|a l IH]; simpl; [lia|].
  destruct (Cell.visited a); lia.
Qed.

Lemma generate_maze_terminates x y st :
  in_bounds (x, y) -> well_formed (maze (this st)) ->
  forall fuel, (length (maze (this st)) < fuel)%nat ->
    exists st', generate_maze fuel x y st = Ok st'.
Proof.
  intros Hxy Hwf fuel Hfuel.
  destruct (mark_origin st x y Hxy Hwf) as (st1 & Hmark & _ & _ & _ & _ & Hn & _).
  destruct (generate_rule (fun _ => True)) with
    (fuel := fuel) (x := x) (y := y) (st := st) (st1 := st1)
    as (st' & E & _); auto.
  - pose proof (unvisited_count_le (maze (this st))). lia.
  - eauto.
Qed.

(** C3: from a grid on which every wall stands, [generate_maze]
    started inside the grid returns, and in the grid it leaves, for
    every cell and every direction whose neighbour is inside the grid,
    the cell's wall in that direction is removed exactly when the
    neighbour's opposite wall is. *)
Theorem generate_maze_wall_symmetry (x y : Z) (st : Run) :
  in_bounds (x, y) -> well_formed (maze (this st)) ->
  all_walls_present (maze (this st)) ->
  (forall fuel, (length (maze (this st)) < fuel)%nat ->
     exists st', generate_maze fuel x y st = Ok st') /\
  (forall fuel st', generate_maze fuel x y st = Ok st' ->
     wall_symmetric (this st')).
Proof.
  intros Hxy Hwf Hall. split.
  - apply generate_maze_terminates; assumption.
  - intros fuel st' Hrun.
    destruct (generate_maze_walls fuel x y st st') as [Hwf' Hok]; try assumption.
    apply walls_ok_wall_symmetric; assumption.
Qed.

(** *** Every cell is visited, once *)

Lemma marks_ok_carve st p d st1 st2 st3 :
  well_formed (maze (this st)) -> marks_ok st ->
  in_bounds p -> valid_dir d -> in_bounds (step p d) ->
  visited_at (maze (this st)) (step p d) = false ->
  remove_wall_at (index p.1 p.2) d st = Ok st1 ->
  remove_wall_at (index (step p d).1 (step p d).2) (opposite d) st1 = Ok st2 ->
  mark_visited (index (step p d).1 (step p d).2) (step p d) st2 = Ok st3 ->
  marks_ok st3.
Proof.
  intros Hwf [Hnd Hin] Hp Hd Hnb Hunv E1 E2 E3.
  pose proof (carve_effect _ _ _ _ _ _ Hwf Hp Hd Hnb E1 E2 E3)
    as (_ & Hm & Hv & _).
  unfold marks_ok. rewrite Hm. split.
  - apply NoDup_app. split; [assumption|]. split; [|apply NoDup_singleton].
    intros q Hq Hq'. apply list_elem_of_singleton in Hq'. subst q.
    apply Hin in Hq as [_ Hq]. congruence.
  - intros q. rewrite elem_of_app, list_elem_of_singleton, Hin. split.
    + intros [[Hq Hvq] | ->].
      * split; [assumption|]. rewrite Hv by assumption.
        case_decide; [reflexivity | assumption].
      * split; [assumption|]. rewrite Hv by assumption.
        rewrite decide_True; reflexivity.
    + intros [Hq Hvq]. rewrite Hv in Hvq by assumption.
      case_decide; [right; assumption | left; auto].
Qed.

Lemma all_unvisited_visited_at cells q :
  all_unvisited cells -> visited_at cells q = false.
Proof.
  intros H. unfold visited_at.
  destruct (cells !! _) as [c|] eqn:E; [|reflexivity]. eapply H; eassumption.
Qed.

(** The grid graph is connected: a set of cells that holds one cell
    and all neighbours of its members holds every cell. *)
Lemma closed_set_row cells o :
  in_bounds o -> visited_at cells o = true ->
  (forall q, in_bounds q -> visited_at cells q = true -> closed_cell cells q) ->
  forall (n : nat) x, 0 <= x < COLS -> Z.abs (x - o.1) = Z.of_nat n ->
    visited_at cells (x, o.2) = true.
Proof.
  intros Ho Hvo Hcl n. induction n as [|n IH]; intros x Hx Hn.
  - assert (x = o.1) by lia. subst x. rewrite <- surjective_pairing. assumption.
  - destruct Ho as [Hox Hoy].
    destruct (decide (o.1 < x)) as [Hlt|Hge].
    + assert (Hprev : visited_at cells (x - 1, o.2) = true) by (apply IH; lia).
      assert (Hb : in_bounds (x - 1, o.2)) by (split; simpl; lia).
      pose proof (Hcl _ Hb Hprev EAST) as Hc. rewrite step_EAST in Hc.
      simpl in Hc. replace (x - 1 + 1) with x in Hc by lia.
      apply Hc; [unfold valid_dir, EAST; lia | split; simpl; lia].
    + assert (Hprev : visited_at cells (x + 1, o.2) = true) by (apply IH; lia).
      assert (Hb : in_bounds (x + 1, o.2)) by (split; simpl; lia).
      pose proof (Hcl _ Hb Hprev WEST) as Hc. rewrite step_WEST in Hc.
      simpl in Hc. replace (x + 1 - 1) with x in Hc by lia.
      apply Hc; [unfold valid_dir, WEST; lia | split; simpl; lia].
Qed.

Lemma closed_set_all cells o :
  in_bounds o -> visited_at cells o = true ->
  (forall q, in_bounds q -> visited_at cells q = true -> closed_cell cells q) ->
  forall q, in_bounds q -> visited_at cells q = true.
Proof.
  intros Ho Hvo Hcl.
  assert (Hcol : forall (n : nat) x y, 0 <= x < COLS -> 0 <= y < ROWS ->
            Z.abs (y - o.2) = Z.of_nat n -> visited_at cells (x, y) = true).
  { induction n as [|n IH]; intros x y Hx Hy Hn.
    - assert (y = o.2) by lia. subst y.
      apply (closed_set_row cells o Ho Hvo Hcl (Z.to_nat (Z.abs (x - o.1)))); lia.
    - destruct Ho as [Hox Hoy].
      destruct (decide (o.2 < y)) as [Hlt|Hge].
      + assert (Hprev : visited_at cells (x, y - 1) = true) by (apply IH; lia).
        assert (Hb : in_bounds (x, y - 1)) by (split; simpl; lia).
        pose proof (Hcl _ Hb Hprev SOUTH) as Hc. rewrite step_SOUTH in Hc.
        simpl in Hc. replace (y - 1 + 1) with y in Hc by lia.
        apply Hc; [unfold valid_dir, SOUTH; lia | split; simpl; lia].
      + assert (Hprev : visited_at cells (x, y + 1) = true) by (apply IH; lia).
        assert (Hb : in_bounds (x, y + 1)) by (split; simpl; lia).
        pose proof (Hcl _ Hb Hprev NORTH) as Hc. rewrite step_NORTH in Hc.
        simpl in Hc. replace (y + 1 - 1) with y in Hc by lia.
        apply Hc; [unfold valid_dir, NORTH; lia | split; simpl; lia]. }
  intros [x y] [Hx Hy]. simpl in *.
  apply (Hcol (Z.to_nat (Z.abs (y - o.2)))); lia.
Qed.

(** Every position of the vector is the index of a cell of the grid. *)
Lemma index_surj (i : nat) :
  Z.of_nat i < COLS * ROWS ->
  exists p, in_bounds p /\ Z.to_nat (index p.1 p.2) = i.
Proof.
  intros Hi. exists (Z.of_nat i mod COLS, Z.of_nat i / COLS).
  pose proof (Z.mod_pos_bound (Z.of_nat i) COLS COLS_pos).
  pose proof (Z.div_mod (Z.of_nat i) COLS ltac:(lia)) as Hdm.
  assert (0 <= Z.of_nat i / COLS) by (apply Z.div_pos; lia).
  assert (Z.of_nat i / COLS < ROWS).
  { apply Z.div_lt_upper_bound; lia. }
  split; [split; simpl; lia|]. unfold index. simpl. lia.
Qed.

Lemma all_visited_cells cells :
  well_formed cells ->
  (forall q, in_bounds q -> visited_at cells q = true) ->
  forall c, c ∈ cells -> Cell.visited c = true.
Proof.
  intros Hwf Hall c Hc. apply list_elem_of_lookup in Hc as [i Hi].
  pose proof (lookup_lt_Some _ _ _ Hi) as Hlt. unfold well_formed in Hwf.
  destruct (index_surj i) as (p & Hp & <-); [lia|].
  specialize (Hall p Hp). unfold visited_at in Hall. rewrite Hi in Hall.
  assumption.
Qed.

Lemma all_visited_count cells :
  (forall c, c ∈ cells -> Cell.visited c = true) -> unvisited_count cells = 0%nat.
Proof.
  unfold unvisited_count. induction cells as [|a l IH]; intros H; simpl; [reflexivity|].
  rewrite (H a) by apply list_elem_of_here.
  rewrite IH; [reflexivity|]. intros c Hc. apply H. apply list_elem_of_further, Hc.
Qed.

Lemma all_unvisited_count cells :
  all_unvisited cells -> unvisited_count cells = length cells.
Proof.
  unfold unvisited_count. induction cells as [|a l IH]; intros H; simpl; [reflexivity|].
  rewrite (H a 0%nat eq_refl). rewrite IH; [reflexivity|].
  intros c i Hc. apply (H c (S i)). assumption.
Qed.

(** From a grid with no cell visited, the run visits every cell. *)
Lemma explored_all st x y st1 st' :
  in_bounds (x, y) -> well_formed (maze (this st)) ->
  all_unvisited (maze (this st)) ->
  (forall q, in_bounds q ->
     visited_at (maze (this st1)) q =
     if decide (q = (x, y)) then true else visited_at (maze (this st)) q) ->
  explored (maze (this st1)) (maze (this st')) (x, y) ->
  forall q, in_bounds q -> visited_at (maze (this st')) q = true.
Proof.
  intros Hxy Hwf Hunv Hv1 [(Hwf' & _ & Hmono) Hcl].
  apply (closed_set_all _ (x, y) Hxy).
  - apply Hmono; [assumption|]. rewrite Hv1 by assumption.
    rewrite decide_True; reflexivity.
  - intros q Hq Hvq. destruct (Hcl q Hq Hvq) as [[Hv Hne]|Hc]; [|assumption].
    rewrite Hv1 in Hv by assumption. rewrite decide_False in Hv by assumption.
    rewrite all_unvisited_visited_at in Hv by assumption. discriminate.
Qed.

(** C8: on a grid with no cell visited, [generate_maze] started inside
    the grid returns once the fuel covers the number of cells; when it
    returns every cell is visited, and the history of the assignments
    [current.visited = true] holds every cell of the grid and no cell
    twice. *)
Theorem generate_maze_visits_each_cell_once (x y : Z) (st : Run) (fuel : nat) :
  in_bounds (x, y) -> well_formed (maze (this st)) ->
  all_unvisited (maze (this st)) -> marks st = [] ->
  (length (maze (this st)) <= fuel)%nat ->
  exists st',
    generate_maze fuel x y st = Ok st' /\
    (forall c, c ∈ maze (this st') -> Cell.visited c = true) /\
    (forall q, in_bounds q -> visited_at (maze (this st')) q = true) /\
    NoDup (marks st') /\
    (forall q, q ∈ marks st' <-> in_bounds q).
Proof.
  intros Hxy Hwf Hunv Hlog Hfuel.
  destruct (mark_origin st x y Hxy Hwf)
    as (st1 & Hmark & Hwf1 & Hm1 & Hv1 & _ & Hn1 & _).
  rewrite all_unvisited_visited_at in Hn1 by assumption.
  rewrite (all_unvisited_count (maze (this st))) in Hn1 by assumption.
  destruct (generate_rule marks_ok) with
    (fuel := fuel) (x := x) (y := y) (st := st) (st1 := st1)
    as (st' & E & [Hnd Hin] & Hex); try assumption.
  - intros s g [? ?]. split; assumption.
  - intros s p d s1 s2 s3 Hw Hok Hp Hd Hnb _ Hunv'. apply marks_ok_carve; assumption.
  - unfold marks_ok. rewrite Hm1, Hlog. simpl. split; [apply NoDup_singleton|].
    intros q. rewrite list_elem_of_singleton. split.
    + intros ->. split; [assumption|]. rewrite Hv1 by assumption.
      rewrite decide_True; reflexivity.
    + intros [Hq Hvq]. rewrite Hv1 in Hvq by assumption.
      case_decide; [assumption|].
      rewrite all_unvisited_visited_at in Hvq by assumption. discriminate.
  - lia.
  - pose proof (explored_all st x y st1 st' Hxy Hwf Hunv Hv1 Hex) as Hall.
    exists st'. split; [assumption|]. split.
    + apply all_visited_cells; [apply Hex | assumption].
    + split; [assumption|]. split; [assumption|].
      intros q. rewrite Hin. split; [ptauto|]. auto.
Qed.

(** *** Passages, walks and cycles *)

Lemma passage_removed m u v :
  well_formed (maze m) ->
  (passage m u v <->
   exists d, valid_dir d /\ in_bounds u /\
             removed_at (maze m) u d = true /\ v = step u d).
Proof.
  intros Hwf. split.
  - intros (d & Hd & Hw & ->). apply walkable_removed in Hw as [Hu Hr];
      [|assumption..]. exists d. auto.
  - intros (d & Hd & Hu & Hr & ->). exists d. split; [assumption|].
    split; [|reflexivity]. apply walkable_removed; auto.
Qed.

Lemma walk_incl m m' u v n :
  (forall a b, passage m a b -> passage m' a b) ->
  walk m u v n -> walk m' u v n.
Proof.
  intros Hincl. induction 1 as [u | u v w n Hp _ IH].
  - constructor.
  - econstructor; eauto.
Qed.

Lemma walk_snoc m u v w n :
  walk m u v n -> passage m v w -> walk m u w (S n).
Proof.
  induction 1 as [u | u v x n Hp _ IH]; intros Hvw.
  - econstructor; [eassumption | constructor].
  - econstructor; [eassumption | auto].
Qed.


(** In a cycle every member has a predecessor and a successor, at two
    different positions. *)
Lemma cycle_neighbours m l i x :
  cycle m l -> l !! i = Some x ->
  exists j k u v,
    l !! j = Some u /\ l !! k = Some v /\ j <> k /\
    passage m u x /\ passage m x v.
Proof.
  intros (Hlen & Hnd & Hch & a & b & Ha & Hb & Hba) Hi.
  pose proof (lookup_lt_Some _ _ _ Hi) as Hlt.
  rewrite head_lookup in Ha. rewrite last_lookup in Hb.
  assert (Hsucc : exists k v, l !! k = Some v /\ passage m x v /\
                    k = if decide (S i < length l)%nat then S i else 0%nat).
  { destruct (decide (S i < length l)%nat) as [Hs|Hs].
    - destruct (lookup_lt_is_Some_2 l (S i) Hs) as [v Hv].
      exists (S i), v. split; [assumption|]. split; [|reflexivity].
      eapply Hch; eassumption.
    - exists 0%nat, a. split; [assumption|]. split; [|reflexivity].
      assert (i = pred (length l)) by lia. subst i.
      assert (x = b) by congruence. subst x. assumption. }
  assert (Hpred : exists j u, l !! j = Some u /\ passage m u x /\
                    j = if decide (0 < i)%nat then pred i else pred (length l)).
  { destruct (decide (0 < i)%nat) as [Hs|Hs].
    - destruct (lookup_lt_is_Some_2 l (pred i)) as [u Hu]; [lia|].
      exists (pred i), u. split; [assumption|]. split; [|reflexivity].
      apply (Hch (pred i)); [assumption|].
      replace (S (pred i)) with i by lia. assumption.
    - exists (pred (length l)), b. split; [assumption|]. split; [|reflexivity].
      assert (i = 0%nat) by lia. subst i.
      assert (x = a) by congruence. subst x. assumption. }
  destruct Hsucc as (k & v & Hk & Hxv & Ek).
  destruct Hpred as (j & u & Hj & Hux & Ej).
  exists j, k, u, v. repeat split; try assumption.
  subst j k. repeat case_decide; lia.
Qed.

Lemma cycle_incl m m' l :
  (forall a b, a ∈ l -> b ∈ l -> passage m' a b -> passage m a b) ->
  cycle m' l -> cycle m l.
Proof.
  intros Hincl (Hlen & Hnd & Hch & a & b & Ha & Hb & Hba).
  split; [assumption|]. split; [assumption|]. split.
  - intros i u v Hu Hv. apply Hincl.
    + apply list_elem_of_lookup. eauto.
    + apply list_elem_of_lookup. eauto.
    + eapply Hch; eassumption.
  - exists a, b. split; [assumption|]. split; [assumption|].
    apply Hincl; [| |assumption].
    + rewrite last_lookup in Hb. apply list_elem_of_lookup. eauto.
    + rewrite head_lookup in Ha. apply list_elem_of_lookup. eauto.
Qed.

(** *** The number of removed pairs *)

Lemma remove_wall_pairs c d c' :
  valid_dir d -> Cell.remove_wall c d = Ok c' ->
  match array4_get (Cell.segments c) d with
  | Ok s => Segment.exist s = true
  | _ => False
  end ->
  (((if Segment.exist (a1 (Cell.segments c')) then 0 else 1)
    + (if Segment.exist (a3 (Cell.segments c')) then 0 else 1))
   =
   ((if Segment.exist (a1 (Cell.segments c)) then 0 else 1)
    + (if Segment.exist (a3 (Cell.segments c)) then 0 else 1))
   + (if decide (d = SOUTH \/ d = EAST) then 1 else 0))%nat.
Proof.
  intros Hd Hrm Hex. unfold Cell.remove_wall in Hrm.
  dir_cases d Hd; simpl in Hrm, Hex; injection Hrm as <-; simpl;
    try rewrite Hex;
    repeat match goal with
           | |- context [decide ?P] => destruct (decide P) as [[?|?]|?]
           end;
    try discriminate; try lia;
    try (exfalso; unfold NORTH, SOUTH, WEST, EAST in *; ptauto).
Qed.

Lemma remove_wall_at_pairs st p d st1 :
  in_bounds p -> well_formed (maze (this st)) -> valid_dir d ->
  remove_wall_at (index p.1 p.2) d st = Ok st1 ->
  removed_at (maze (this st)) p d = false ->
  removed_pairs (maze (this st1)) =
  (removed_pairs (maze (this st))
   + (if decide (d = SOUTH \/ d = EAST) then 1 else 0))%nat.
Proof.
  intros Hp Hwf Hd H Hr.
  destruct (remove_wall_at_Ok st p d Hp Hwf Hd) as (c & c' & Hc & Hc' & E).
  rewrite E in H. injection H as <-. simpl.
  unfold removed_pairs.
  pose proof (sum_list_with_insert
    (fun c => ((if Segment.exist (a1 (Cell.segments c)) then 0 else 1)
               + (if Segment.exist (a3 (Cell.segments c)) then 0 else 1))%nat)
    _ _ _ c' Hc) as Hs.
  cbv beta in Hs.
  rewrite (remove_wall_pairs c d c' Hd Hc') in Hs.
  - lia.
  - unfold removed_at in Hr. rewrite Hc in Hr.
    destruct (array4_get _ _) as [s| |] eqn:Es.
    + destruct (Segment.exist s); [reflexivity | discriminate].
    + dir_cases d Hd; discriminate.
    + dir_cases d Hd; discriminate.
Qed.

Lemma all_walls_present_pairs cells :
  all_walls_present cells -> removed_pairs cells = 0%nat.
Proof.
  unfold removed_pairs. induction cells as [|a l IH]; intros H; simpl; [reflexivity|].
  rewrite (H a 0%nat eq_refl SOUTH (a1 (Cell.segments a)) eq_refl).
  rewrite (H a 0%nat eq_refl EAST (a3 (Cell.segments a)) eq_refl).
  rewrite IH; [reflexivity|]. intros c i Hc. apply (H c (S i)). assumption.
Qed.

(** *** The passages of a run form a tree *)

Lemma south_east_once d :
  valid_dir d ->
  ((if decide (d = SOUTH \/ d = EAST) then 1 else 0)
   + (if decide (opposite d = SOUTH \/ opposite d = EAST) then 1 else 0)
   = 1)%nat.
Proof.
  intros Hd.
  dir_cases d Hd; unfold opposite, NORTH, SOUTH, WEST, EAST; simpl;
    repeat match goal with
           | |- context [decide ?P] => destruct (decide P)
           end;
    lia.
Qed.

Lemma tree_ok_carve st p d st1 st2 st3 :
  well_formed (maze (this st)) -> tree_ok st ->
  in_bounds p -> valid_dir d -> in_bounds (step p d) ->
  visited_at (maze (this st)) p = true ->
  visited_at (maze (this st)) (step p d) = false ->
  remove_wall_at (index p.1 p.2) d st = Ok st1 ->
  remove_wall_at (index (step p d).1 (step p d).2) (opposite d) st1 = Ok st2 ->
  mark_visited (index (step p d).1 (step p d).2) (step p d) st2 = Ok st3 ->
  tree_ok st3.
Proof.
  intros Hwf (Hok & Hrv & Hcnt & Hconn & Hacyc) Hp Hd Hnb Hvp Hvn E1 E2 E3.
  pose proof (carve_effect _ _ _ _ _ _ Hwf Hp Hd Hnb E1 E2 E3)
    as (Hwf3 & _ & Hv & Hr & Hn).
  set (nb := step p d) in *.
  assert (Hod : valid_dir (opposite d)) by (apply opposite_valid; assumption).
  assert (F1 : forall d', valid_dir d' -> removed_at (maze (this st)) nb d' = false).
  { intros d' Hd'. destruct (removed_at _ nb d') eqn:Er; [|reflexivity].
    rewrite (Hrv nb d' Hnb Hd' Er) in Hvn. discriminate. }
  assert (F2 : removed_at (maze (this st)) p d = false).
  { destruct Hok as [Hsym _]. rewrite Hsym by assumption. apply F1. assumption. }
  assert (F3 : nb <> p) by (apply step_neq; assumption).
  assert (F4 : step nb (opposite d) = p) by (apply step_opposite; assumption).
  assert (P3 : forall u v, passage (this st3) u v <->
            passage (this st) u v \/ (u = p /\ v = nb) \/ (u = nb /\ v = p)).
  { intros u v. rewrite !passage_removed by assumption. split.
    - intros (d' & Hd' & Hu & Hr' & ->). rewrite Hr in Hr' by assumption.
      case_decide as Hc.
      + destruct Hc as [[-> ->] | [-> ->]]; [right; left; auto|].
        right; right. auto.
      + left. exists d'. auto.
    - intros [(d' & Hd' & Hu & Hr' & ->) | [[-> ->] | [-> ->]]].
      + exists d'. split; [assumption|]. split; [assumption|].
        split; [|reflexivity]. rewrite Hr by assumption.
        case_decide; [reflexivity | assumption].
      + exists d. split; [assumption|]. split; [assumption|].
        split; [|reflexivity]. rewrite Hr by assumption.
        rewrite decide_True; auto.
      + exists (opposite d). split; [assumption|]. split; [assumption|].
        split; [|auto]. rewrite Hr by assumption. rewrite decide_True; auto. }
  assert (Hwalk : forall u v n, walk (this st) u v n -> walk (this st3) u v n).
  { intros u v n. apply walk_incl. intros a b Hab. apply P3. auto. }
  split; [|split; [|split; [|split]]].
  - apply (walls_ok_carve st p d st1 st2 st3); assumption.
  - intros q d' Hq Hd' Hr'. rewrite Hr in Hr' by assumption.
    rewrite Hv by assumption.
    destruct (decide (q = nb)) as [?|Hqn]; [reflexivity|].
    destruct (decide ((q = p /\ d' = d) \/ (q = nb /\ d' = opposite d)))
      as [Hc|Hc].
    + destruct Hc as [[-> _] | [-> _]]; [assumption | contradiction].
    + eapply Hrv; eassumption.
  - pose proof (remove_wall_at_effect _ _ _ _ Hp Hwf Hd E1)
      as (Hwf1 & _ & _ & _ & Hr1 & _).
    pose proof (remove_wall_at_effect _ _ _ _ Hnb Hwf1 Hod E2)
      as (Hwf2 & _ & _ & _ & _ & _).
    pose proof (mark_visited_effect _ _ _ Hnb Hwf2 E3)
      as (_ & _ & _ & _ & _ & Hp3).
    pose proof (remove_wall_at_pairs _ _ _ _ Hp Hwf Hd E1 F2) as Hp1.
    assert (Hr1' : removed_at (maze (this st1)) nb (opposite d) = false).
    { rewrite Hr1 by assumption. rewrite decide_False by ptauto. apply F1. assumption. }
    pose proof (remove_wall_at_pairs _ _ _ _ Hnb Hwf1 Hod E2 Hr1') as Hp2.
    pose proof (south_east_once d Hd) as Hse.
    rewrite Hvn in Hn. unfold well_formed in Hwf, Hwf3. lia.
  - intros u v Hu Hv' Hvu Hvv. rewrite Hv in Hvu, Hvv by assumption.
    destruct (decide (u = nb)) as [->|Hun], (decide (v = nb)) as [->|Hvn'].
    + exists 0%nat. constructor.
    + destruct (Hconn p v Hp Hv' Hvp Hvv) as [n Hn'].
      exists (S n). econstructor; [|apply Hwalk; eassumption].
      apply P3. auto.
    + destruct (Hconn u p Hu Hp Hvu Hvp) as [n Hn'].
      exists (S n). eapply walk_snoc; [apply Hwalk; eassumption|].
      apply P3. auto.
    + destruct (Hconn u v Hu Hv' Hvu Hvv) as [n Hn'].
      exists n. apply Hwalk. assumption.
  - intros l Hcyc.
    assert (Hin : forall u v, passage (this st3) u v -> u = nb \/ v = nb ->
                    (u = p /\ v = nb) \/ (u = nb /\ v = p)).
    { intros u v Huv Hor. apply P3 in Huv as [Hold | Hnew]; [|assumption].
      exfalso. apply passage_removed in Hold as (d' & Hd' & Hu & Hr' & ->);
        [|assumption].
      destruct Hor as [-> | Hs].
      - rewrite F1 in Hr' by assumption. discriminate.
      - destruct Hok as [Hsym _]. rewrite Hsym in Hr' by (rewrite ?Hs; assumption).
        rewrite Hs in Hr'. rewrite F1 in Hr' by (apply opposite_valid; assumption).
        discriminate. }
    destruct (decide (nb ∈ l)) as [Hmem | Hnot].
    + apply list_elem_of_lookup in Hmem as [i Hi].
      destruct (cycle_neighbours _ _ _ _ Hcyc Hi)
        as (j & k & u & v & Hj & Hk & Hjk & Hux & Hxv).
      apply Hin in Hux as [[-> _] | [_ ?]]; [|contradiction|auto].
      apply Hin in Hxv as [[? _] | [_ ->]]; [contradiction| |auto].
      destruct Hcyc as (_ & Hnd & _). apply Hjk.
      eapply NoDup_lookup; eassumption.
    + apply (Hacyc l). eapply cycle_incl; [|eassumption].
      intros a b Ha Hb Hab. apply P3 in Hab as [? | [[_ ->] | [-> _]]];
        [assumption | contradiction | contradiction].
Qed.

Lemma passage_same_cells (m m' : Maze) u v :
  well_formed (maze m) -> maze m' = maze m ->
  passage m u v -> passage m' u v.
Proof.
  intros Hwf E H. apply passage_removed in H; [|assumption].
  apply passage_removed; [rewrite E; assumption|]. rewrite E. assumption.
Qed.

Lemma tree_ok_rng st g :
  well_formed (maze (this st)) -> tree_ok st ->
  tree_ok (mkRun (mkMaze (maze (this st)) g) (marks st)).
Proof.
  intros Hwf (Hok & Hrv & Hcnt & Hconn & Hacyc).
  split; [assumption|]. split; [assumption|]. split; [assumption|]. split.
  - intros u v Hu Hv Hvu Hvv. destruct (Hconn u v Hu Hv Hvu Hvv) as [n Hn].
    exists n. eapply walk_incl; [|eassumption].
    intros a b. apply passage_same_cells; [assumption | reflexivity].
  - intros l Hc. apply (Hacyc l). eapply cycle_incl; [|eassumption].
    intros a b _ _. apply passage_same_cells; [assumption | reflexivity].
Qed.

Lemma tree_ok_initial st x y st1 :
  in_bounds (x, y) -> well_formed (maze (this st)) ->
  all_walls_present (maze (this st)) -> all_unvisited (maze (this st)) ->
  mark_visited (index x y) (x, y) st = Ok st1 ->
  tree_ok st1.
Proof.
  intros Hxy Hwf Hall Hunv Hmark.
  pose proof (mark_visited_effect st (x, y) st1 Hxy Hwf Hmark)
    as (Hwf1 & _ & Hv1 & Hr1 & Hn1 & Hp1).
  assert (Hnone : forall q d, in_bounds q -> removed_at (maze (this st1)) q d = false).
  { intros q d Hq. rewrite Hr1 by assumption.
    apply all_walls_present_removed_at. assumption. }
  assert (Hnop : forall u v, ~ passage (this st1) u v).
  { intros u v Huv. apply passage_removed in Huv as (d & _ & Hu & Hr & _);
      [|assumption]. rewrite Hnone in Hr by assumption. discriminate. }
  split; [|split; [|split; [|split]]].
  - split; intros p d Hp Hd Hnb; rewrite !Hnone by assumption; reflexivity.
  - intros p d Hp _ Hr. rewrite Hnone in Hr by assumption. discriminate.
  - rewrite Hp1, all_walls_present_pairs by assumption.
    rewrite all_unvisited_visited_at in Hn1 by assumption.
    rewrite (all_unvisited_count (maze (this st))) in Hn1 by assumption.
    unfold well_formed in Hwf, Hwf1. lia.
  - intros u v Hu Hv Hvu Hvv. rewrite Hv1 in Hvu, Hvv by assumption.
    rewrite all_unvisited_visited_at in Hvu, Hvv by assumption.
    repeat case_decide; try discriminate. subst. exists 0%nat. constructor.
  - intros l (Hlen & _ & Hch & _).
    destruct l as [|a [|b l]]; simpl in Hlen; try lia.
    apply (Hnop a b). apply (Hch 0%nat); reflexivity.
Qed.

(** C2: from a grid with every wall standing and no cell visited,
    [generate_maze] started inside the grid returns a grid whose
    passages form a spanning tree: [COLS * ROWS - 1] pairs of walls
    are removed, every cell can be reached from every other, and no
    cycle exists.  Walls are removed in pairs (symmetry) and only
    between cells of the grid, so that [removed_pairs] counts edges. *)
Theorem generate_maze_spanning_tree (x y : Z) (st : Run) (fuel : nat) :
  in_bounds (x, y) -> well_formed (maze (this st)) ->
  all_walls_present (maze (this st)) -> all_unvisited (maze (this st)) ->
  (length (maze (this st)) <= fuel)%nat ->
  exists st',
    generate_maze fuel x y st = Ok st' /\
    Z.of_nat (removed_pairs (maze (this st'))) = COLS * ROWS - 1 /\
    connected (this st') /\
    acyclic (this st') /\
    wall_symmetric (this st') /\
    boundary_closed (this st').
Proof.
  intros Hxy Hwf Hall Hunv Hfuel.
  destruct (mark_origin st x y Hxy Hwf)
    as (st1 & Hmark & Hwf1 & _ & Hv1 & _ & Hn1 & _).
  rewrite all_unvisited_visited_at in Hn1 by assumption.
  rewrite (all_unvisited_count (maze (this st))) in Hn1 by assumption.
  destruct (generate_rule (fun s => well_formed (maze (this s)) /\ tree_ok s)) with
    (fuel := fuel) (x := x) (y := y) (st := st) (st1 := st1)
    as (st' & E & [Hwf' Htree] & Hex); try assumption.
  - intros s g [Hw Ht]. split; [assumption|]. apply tree_ok_rng; assumption.
  - intros s p d s1 s2 s3 Hw [_ Ht] Hp Hd Hnb Hvp Hvn E1 E2 E3. split.
    + apply (carve_effect s p d s1 s2 s3); assumption.
    + apply (tree_ok_carve s p d s1 s2 s3); assumption.
  - split; [assumption|]. apply (tree_ok_initial st x y st1); assumption.
  - lia.
  - pose proof (explored_all st x y st1 st' Hxy Hwf Hunv Hv1 Hex) as Hvis.
    destruct Htree as (Hok & _ & Hcnt & Hconn & Hacyc).
    exists st'. split; [assumption|]. split; [|split; [|split; [|split]]].
    + rewrite all_visited_count in Hcnt
        by (apply all_visited_cells; assumption).
      unfold well_formed in Hwf'. lia.
    + intros u v Hu Hv. apply Hconn; auto.
    + assumption.
    + apply walls_ok_wall_symmetric; assumption.
    + apply walls_ok_boundary_closed; assumption.
Qed.

(** ** The search *)

(** The number of cells fits an [int]. *)
Hypothesis cells_fit_int : COLS * ROWS < INT_MAX.

(** The priority queue holds what was pushed and pops an entry of
    least [f_cost]. *)
Hypothesis pq_elems_empty : pq_elems pq_empty = [].
Hypothesis pq_elems_push :
  forall n q, pq_elems (pq_push n q) ≡ₚ n :: pq_elems q.
Hypothesis pq_pop_none :
  forall q, pq_pop q = None <-> pq_elems q = [].
Hypothesis pq_pop_some :
  forall q n q', pq_pop q = Some (n, q') ->
    pq_elems q ≡ₚ n :: pq_elems q' /\
    forall k, k ∈ pq_elems q -> Node.f_cost n <= Node.f_cost k.

Lemma in_bounds_start : in_bounds start.
Proof. unfold in_bounds, start. simpl. lia. Qed.

Lemma in_bounds_goal : in_bounds goal.
Proof. unfold in_bounds, goal. simpl. lia. Qed.

Lemma g_at_insert g p v q :
  in_bounds p -> in_bounds q -> Z.of_nat (length g) = COLS * ROWS ->
  g_at (<[Z.to_nat (index p.1 p.2) := v]> g) q =
  if decide (q = p) then v else g_at g q.
Proof.
  intros Hp Hq Hlen. unfold g_at. pose proof (index_range p Hp) as Hi.
  case_decide as E.
  - subst q. rewrite list_lookup_insert_eq by lia. reflexivity.
  - rewrite list_lookup_insert_ne; [reflexivity|].
    intros H. apply E. symmetry. apply index_to_nat_inj; assumption.
Qed.

Lemma closed_at_insert vis p b q :
  in_bounds p -> in_bounds q -> Z.of_nat (length vis) = COLS * ROWS ->
  closed_at (<[Z.to_nat (index p.1 p.2) := b]> vis) q =
  if decide (q = p) then b else closed_at vis q.
Proof.
  intros Hp Hq Hlen. unfold closed_at. pose proof (index_range p Hp) as Hi.
  case_decide as E.
  - subst q. rewrite list_lookup_insert_eq by lia. reflexivity.
  - rewrite list_lookup_insert_ne; [reflexivity|].
    intros H. apply E. symmetry. apply index_to_nat_inj; assumption.
Qed.

Lemma g_at_lookup g p :
  in_bounds p -> Z.of_nat (length g) = COLS * ROWS ->
  g !! Z.to_nat (index p.1 p.2) = Some (g_at g p).
Proof.
  intros Hp Hlen. pose proof (index_range p Hp) as Hi. unfold g_at.
  destruct (lookup_lt_is_Some_2 g (Z.to_nat (index p.1 p.2))) as [v Hv]; [lia|].
  rewrite Hv. reflexivity.
Qed.

Lemma closed_at_lookup vis p :
  in_bounds p -> Z.of_nat (length vis) = COLS * ROWS ->
  vis !! Z.to_nat (index p.1 p.2) = Some (closed_at vis p).
Proof.
  intros Hp Hlen. pose proof (index_range p Hp) as Hi. unfold closed_at.
  destruct (lookup_lt_is_Some_2 vis (Z.to_nat (index p.1 p.2))) as [v Hv]; [lia|].
  rewrite Hv. reflexivity.
Qed.

Lemma closed_count_le vis : (closed_count vis <= length vis)%nat.
Proof.
  unfold closed_count. induction vis as [|b l IH]; simpl; [lia|].
  destruct b; lia.
Qed.

Lemma walk_zero m u v : walk m u v 0 -> u = v.
Proof. inversion 1. reflexivity. Qed.

Section Pathfinder.

Variable m : Maze.
Hypothesis m_wf : well_formed (maze m).
Hypothesis m_closed : boundary_closed m.

Lemma passage_in_bounds u v : passage m u v -> in_bounds u /\ in_bounds v.
Proof.
  intros (d & Hd & Hw & ->). split.
  - eapply walkable_in_bounds; eassumption.
  - apply m_closed; assumption.
Qed.

Lemma walk_in_bounds u v k : walk m u v k -> in_bounds u -> in_bounds v.
Proof.
  induction 1 as [u | u v w n Hp _ IH]; [auto|].
  intros _. apply IH. apply passage_in_bounds in Hp. ptauto.
Qed.

(** If a walk leads from a cell whose cost is known to a cell that is
    not closed, the queue holds an entry that is at least as good as
    that walk. *)
Lemma frontier s c u v k :
  SInv m s c [] -> walk m u v k ->
  forall j, in_bounds u ->
    g_at (g_cost s) u <= j -> g_at (g_cost s) u < INT_MAX ->
    closed_at (visited s) v = false ->
    exists n, n ∈ pq_elems (open_set s) /\
              Node.f_cost n <= j + Z.of_nat k + heuristic v.1 v.2.
Proof.
  intros HI Hw. induction Hw as [u | u w v k Hp Hw IH];
    intros j Hu Hj Hfin Hv.
  - exists (node_of (g_cost s) u). split.
    + apply (inv_open _ _ _ _ HI); assumption.
    + unfold Node.f_cost, node_of. simpl. lia.
  - destruct (closed_at (visited s) u) eqn:Hcu.
    + pose proof Hp as (d & Hd & Hwd & ->).
      destruct (inv_relaxed _ _ _ _ HI u d Hu Hcu Hd Hwd) as [[_ Hin] | Hle].
      { inversion Hin. }
      assert (Hw' : in_bounds (step u d)) by (apply m_closed; assumption).
      pose proof (inv_count _ _ _ _ HI u Hu Hfin) as Hcnt.
      rewrite Hcu in Hcnt.
      pose proof (closed_count_le (visited s)) as Hcl.
      pose proof (inv_len_v _ _ _ _ HI) as Hlen.
      destruct (IH (j + 1)) as (n & Hn & Hf); try assumption; try lia.
      exists n. split; [assumption|]. lia.
    + exists (node_of (g_cost s) u). split.
      * apply (inv_open _ _ _ _ HI); assumption.
      * pose proof (heuristic_walk m u v (S k)
                      ltac:(econstructor; eassumption)) as Hh.
        unfold Node.f_cost, node_of. simpl. lia.
Qed.

(** The entry popped for a cell that is not closed carries the
    length of a shortest walk to it. *)
Lemma popped_optimal s c n rest :
  SInv m s c [] -> pq_pop (open_set s) = Some (n, rest) ->
  closed_at (visited s) (Node.x n, Node.y n) = false ->
  Node.g_cost n = g_at (g_cost s) (Node.x n, Node.y n) /\
  forall k, walk m start (Node.x n, Node.y n) k ->
            g_at (g_cost s) (Node.x n, Node.y n) <= Z.of_nat k.
Proof.
  intros HI Hpop Hcl. destruct (pq_pop_some _ _ _ Hpop) as [Hperm Hmin].
  assert (Hn : n ∈ pq_elems (open_set s)).
  { rewrite Hperm. apply list_elem_of_here. }
  destruct (inv_nodes _ _ _ _ HI n Hn) as (Hb & Hle & Hfin & Hh).
  assert (Hopt : forall k, walk m start (Node.x n, Node.y n) k ->
                           Node.g_cost n <= Z.of_nat k).
  { intros k Hk.
    destruct (frontier s c start _ k HI Hk 0) as (n' & Hn' & Hf).
    - apply in_bounds_start.
    - rewrite (inv_start _ _ _ _ HI). lia.
    - rewrite (inv_start _ _ _ _ HI). unfold INT_MAX. lia.
    - assumption.
    - specialize (Hmin n' Hn'). unfold Node.f_cost in Hmin at 1.
      rewrite Hh in Hmin. simpl in Hf. lia. }
  pose proof (inv_walk _ _ _ _ HI _ Hb Hfin) as Hw.
  pose proof (inv_range _ _ _ _ HI _ Hb) as Hr.
  specialize (Hopt _ Hw) as Hle'.
  split; [lia|]. intros k Hk. specialize (Hopt k Hk). lia.
Qed.

(** *** One direction of the expansion loop *)

Lemma elem_of_pq_push n k q :
  n ∈ pq_elems (pq_push k q) <-> n = k \/ n ∈ pq_elems q.
Proof. rewrite pq_elems_push. apply elem_of_cons. Qed.

Lemma length_pq_push k q :
  length (pq_elems (pq_push k q)) = S (length (pq_elems q)).
Proof. rewrite pq_elems_push. reflexivity. Qed.

Lemma expand_dir_step s cur d todo :
  let c := (Node.x cur, Node.y cur) in
  SInv m s c (d :: todo) -> valid_dir d -> in_bounds c ->
  closed_at (visited s) c = true ->
  Node.g_cost cur = g_at (g_cost s) c ->
  exists s',
    expand_dir cur (m, s) d = Ok (m, s') /\
    SInv m s' c todo /\
    (measure s' <= measure s)%nat /\
    g_at (g_cost s') c = g_at (g_cost s) c /\
    visited s' = visited s.
Proof.
  intros c HI Hd Hc Hcl Hg.
  pose proof (inv_len_g _ _ _ _ HI) as Hlg.
  pose proof (inv_len_v _ _ _ _ HI) as Hlv.
  unfold expand_dir.
  rewrite (is_walkable_inside (Node.x cur) (Node.y cur) d m Hc m_wf Hd).
  cbn [bind]. fold c.
  destruct (removed_at (maze m) c d) eqn:Hrem; cbn [negb].
  2:{ exists s. split; [reflexivity|]. split; [|auto].
      destruct HI. constructor; try assumption.
      intros p d' Hp Hcp Hd' Hw.
      destruct (inv_relaxed0 p d' Hp Hcp Hd' Hw) as [[-> Hin] | Hle]; [|auto].
      apply elem_of_cons in Hin as [-> | Hin]; [|auto].
      apply walkable_removed in Hw as [_ Hw]; [|assumption..]. congruence. }
  assert (Hw : walkable m c d) by (apply walkable_removed; auto).
  set (q := step c d).
  assert (Hq : in_bounds q) by (apply m_closed; assumption).
  assert (Hpass : passage m c q) by (exists d; auto).
  destruct (inv_closed _ _ _ _ HI c Hc Hcl) as [Hfin Hopt].
  pose proof (inv_range _ _ _ _ HI c Hc) as Hrc.
  pose proof (inv_range _ _ _ _ HI q Hq) as Hrq.
  unfold int_succ. rewrite Hg.
  destruct (Z.ltb_spec (g_at (g_cost s) c) INT_MAX) as [_|?]; [|lia].
  cbn [bind].
  change (index (step_x (Node.x cur) d) (step_y (Node.y cur) d))
    with (index q.1 q.2).
  pose proof (index_range q Hq) as Hiq.
  assert (Hget : vec_get (g_cost s) (index q.1 q.2) = Ok (g_at (g_cost s) q)).
  { apply vec_get_Ok. split; [lia|]. apply g_at_lookup; assumption. }
  rewrite Hget. cbn [bind].
  destruct (Z.ltb_spec (g_at (g_cost s) c + 1) (g_at (g_cost s) q)) as [Hlt|Hge].
  2:{ exists s. split; [reflexivity|]. split; [|auto].
      destruct HI. constructor; try assumption.
      intros p d' Hp Hcp Hd' Hw'.
      destruct (inv_relaxed0 p d' Hp Hcp Hd' Hw') as [[-> Hin] | Hle]; [|auto].
      apply elem_of_cons in Hin as [-> | Hin]; [|auto].
      right. fold q. lia. }
  unfold vec_set. rewrite bool_decide_eq_true_2 by lia. cbn [bind].
  set (new_g := g_at (g_cost s) c + 1) in *.
  set (g' := <[Z.to_nat (index q.1 q.2) := new_g]> (g_cost s)).
  assert (Hwq : walk m start q (Z.to_nat new_g)).
  { replace (Z.to_nat new_g) with (S (Z.to_nat (g_at (g_cost s) c)))
      by (unfold new_g; lia).
    eapply walk_snoc; [|eassumption].
    apply (inv_walk _ _ _ _ HI); assumption. }
  assert (Hqo : closed_at (visited s) q = false).
  { destruct (closed_at (visited s) q) eqn:E; [|reflexivity].
    destruct (inv_closed _ _ _ _ HI q Hq E) as [_ Hoq].
    specialize (Hoq _ Hwq). lia. }
  assert (Hqs : q <> start).
  { intros E. pose proof (inv_start _ _ _ _ HI) as H0. rewrite <- E in H0. lia. }
  assert (Hqc : q <> c) by congruence.
  assert (Hg' : forall p, in_bounds p ->
            g_at g' p = if decide (p = q) then new_g else g_at (g_cost s) p).
  { intros p Hp. apply g_at_insert; assumption. }
  assert (Hg'le : forall p, in_bounds p -> g_at g' p <= g_at (g_cost s) p).
  { intros p Hp. rewrite Hg' by assumption. case_decide; [subst; lia | lia]. }
  assert (Hg'cl : forall p, in_bounds p -> closed_at (visited s) p = true ->
            g_at g' p = g_at (g_cost s) p).
  { intros p Hp Hcp. rewrite Hg' by assumption.
    rewrite decide_False; [reflexivity | congruence]. }
  eexists. split; [reflexivity|]. split; [|split; [|split]].
  - constructor; cbn [g_cost visited open_set came_from]; fold g'.
    + unfold g'. rewrite length_insert. assumption.
    + assumption.
    + rewrite Hg' by apply in_bounds_start.
      rewrite decide_False by auto. apply (inv_start _ _ _ _ HI).
    + intros p Hp. rewrite Hg' by assumption.
      case_decide; [lia | apply (inv_range _ _ _ _ HI); assumption].
    + intros p Hp. rewrite Hg' by assumption.
      case_decide as E; [subst p; auto|]. apply (inv_walk _ _ _ _ HI); assumption.
    + intros p Hp Hcp. rewrite Hg'cl by assumption.
      apply (inv_closed _ _ _ _ HI); assumption.
    + intros p d' Hp Hcp Hd' Hw'.
      assert (Hs : in_bounds (step p d')) by (apply m_closed; assumption).
      rewrite (Hg'cl p) by assumption.
      destruct (inv_relaxed _ _ _ _ HI p d' Hp Hcp Hd' Hw') as [[-> Hin] | Hle].
      * apply elem_of_cons in Hin as [-> | Hin]; [|auto].
        right. fold q. rewrite Hg' by assumption.
        rewrite decide_True by reflexivity. unfold new_g. lia.
      * right. specialize (Hg'le _ Hs). lia.
    + intros p Hp Hcp Hfp. apply elem_of_pq_push.
      rewrite Hg' in Hfp by assumption.
      destruct (decide (p = q)) as [-> | Hne].
      * left. unfold node_of. rewrite Hg' by assumption.
        rewrite decide_True by reflexivity. reflexivity.
      * right. unfold node_of. rewrite Hg' by assumption.
        rewrite decide_False by assumption.
        apply (inv_open _ _ _ _ HI); assumption.
    + intros n Hn. apply elem_of_pq_push in Hn as [-> | Hn].
      * cbn [Node.x Node.y Node.g_cost Node.h_cost].
        change (step_x (Node.x cur) d, step_y (Node.y cur) d) with q.
        rewrite Hg' by assumption. rewrite decide_True by reflexivity.
        split; [assumption|]. split; [lia|]. split; [lia|]. reflexivity.
      * destruct (inv_nodes _ _ _ _ HI n Hn) as (Hb & Hle & Hf & Hh).
        specialize (Hg'le _ Hb).
        split; [assumption|]. split; [lia|]. split; [lia|]. assumption.
    + intros p Hp Hps Hfp.
      destruct (decide (p = q)) as [-> | Hne].
      * exists c. change (index (step_x (Node.x cur) d) (step_y (Node.y cur) d))
          with (index q.1 q.2).
        rewrite lookup_insert_eq.
        split; [reflexivity|]. split; [assumption|]. split; [assumption|].
        split; [assumption|].
        rewrite (Hg'cl c) by assumption. rewrite Hg' by assumption.
        rewrite decide_True by reflexivity. reflexivity.
      * rewrite Hg' in Hfp by assumption. rewrite decide_False in Hfp by assumption.
        destruct (inv_from _ _ _ _ HI p Hp Hps Hfp) as (u & Hu & Hbu & Hcu & Hpu & Hgu).
        exists u. rewrite lookup_insert_ne.
        2:{ intros E. apply Hne. symmetry. apply index_inj; assumption. }
        split; [assumption|]. split; [assumption|]. split; [assumption|].
        split; [assumption|].
        rewrite (Hg'cl u) by assumption. rewrite Hg' by assumption.
        rewrite decide_False by assumption. assumption.
    + rewrite lookup_insert_ne; [apply (inv_from_start _ _ _ _ HI)|].
      intros E. apply Hqs. apply index_inj; [assumption | apply in_bounds_start |].
      exact E.
    + apply (inv_goal _ _ _ _ HI).
    + intros p Hp Hfp. rewrite Hg' in Hfp |- * by assumption.
      case_decide as E.
      * subst p. rewrite Hqo.
        pose proof (inv_count _ _ _ _ HI c Hc Hfin) as Hcc.
        rewrite Hcl in Hcc. unfold new_g. lia.
      * apply (inv_count _ _ _ _ HI); assumption.
  - unfold measure. cbn [g_cost open_set]. rewrite length_pq_push.
    pose proof (sum_list_with_insert Z.to_nat (g_cost s) _ _ new_g
                  (g_at_lookup _ _ Hq Hlg)) as Hs.
    fold g' in Hs. unfold new_g in *. lia.
  - cbn [g_cost]. fold g'. apply Hg'cl; assumption.
  - reflexivity.
Qed.

Lemma expand_loop cur ds :
  let c := (Node.x cur, Node.y cur) in
  Forall valid_dir ds -> in_bounds c ->
  forall s,
    SInv m s c ds -> closed_at (visited s) c = true ->
    Node.g_cost cur = g_at (g_cost s) c ->
    exists s',
      foldM (expand_dir cur) ds (m, s) = Ok (m, s') /\
      SInv m s' c [] /\ (measure s' <= measure s)%nat.
Proof.
  intros c Hds Hc. induction Hds as [|d ds Hd _ IH]; intros s HI Hcl Hg.
  - exists s. split; [reflexivity|]. auto.
  - destruct (expand_dir_step s cur d ds HI Hd Hc Hcl Hg)
      as (s1 & E1 & HI1 & Hm1 & Hg1 & Hv1).
    destruct (IH s1 HI1) as (s' & E & HI' & Hm').
    + rewrite Hv1. assumption.
    + fold c in Hg1. congruence.
    + exists s'. cbn [foldM]. rewrite E1. cbn [bind].
      split; [assumption|]. split; [assumption | lia].
Qed.

(** *** Taking an entry off the queue *)

Lemma closed_count_insert vis i :
  vis !! i = Some false ->
  closed_count (<[i := true]> vis) = S (closed_count vis).
Proof.
  intros H. unfold closed_count.
  pose proof (sum_list_with_insert
                (fun b : bool => if b then 1%nat else 0%nat) vis i false true H).
  simpl in *. lia.
Qed.

Lemma node_cell_eq (n : Node.t) p g :
  node_of g p = n -> p = (Node.x n, Node.y n).
Proof. intros <-. destruct p. reflexivity. Qed.

Lemma skip_closed s n rest :
  Inv m s -> pq_pop (open_set s) = Some (n, rest) ->
  closed_at (visited s) (Node.x n, Node.y n) = true ->
  let s' := mkSearch rest (came_from s) (g_cost s) (visited s) in
  Inv m s' /\ S (measure s') = measure s.
Proof.
  intros HI Hpop Hcl s'. subst s'.
  destruct (pq_pop_some _ _ _ Hpop) as [Hperm _].
  split.
  - destruct HI. constructor; cbn [g_cost visited open_set came_from];
      try assumption.
    + intros p Hp Hcp Hf. specialize (inv_open0 p Hp Hcp Hf).
      rewrite Hperm in inv_open0. apply elem_of_cons in inv_open0 as [E|?];
        [|assumption].
      apply node_cell_eq in E. subst p. congruence.
    + intros k Hk. apply inv_nodes0. rewrite Hperm. apply list_elem_of_further, Hk.
  - unfold measure. cbn [g_cost open_set]. rewrite Hperm. simpl. lia.
Qed.

Lemma valid_dir_elem d : valid_dir d -> d ∈ [0; 1; 2; 3].
Proof.
  intros Hd. dir_cases d Hd; unfold NORTH, SOUTH, WEST, EAST;
    repeat constructor.
Qed.

Lemma all_dirs_valid : Forall valid_dir [0; 1; 2; 3].
Proof. repeat constructor; unfold valid_dir; lia. Qed.

Lemma close_cell s n rest :
  let c := (Node.x n, Node.y n) in
  Inv m s -> pq_pop (open_set s) = Some (n, rest) ->
  closed_at (visited s) c = false -> c <> goal ->
  let s1 := mkSearch rest (came_from s) (g_cost s)
              (<[Z.to_nat (index (Node.x n) (Node.y n)) := true]> (visited s)) in
  SInv m s1 c [0; 1; 2; 3] /\
  closed_at (visited s1) c = true /\
  Node.g_cost n = g_at (g_cost s1) c /\
  S (measure s1) = measure s.
Proof.
  intros c HI Hpop Hcl Hng s1.
  destruct (pq_pop_some _ _ _ Hpop) as [Hperm _].
  destruct (popped_optimal s start n rest HI Hpop Hcl) as [Hg Hopt].
  assert (Hn : n ∈ pq_elems (open_set s)).
  { rewrite Hperm. apply list_elem_of_here. }
  destruct (inv_nodes _ _ _ _ HI n Hn) as (Hc & _ & Hfin & _).
  fold c in Hc, Hfin, Hg, Hopt.
  pose proof (inv_len_v _ _ _ _ HI) as Hlv.
  assert (Hv' : forall p, in_bounds p ->
            closed_at (visited s1) p =
            if decide (p = c) then true else closed_at (visited s) p).
  { intros p Hp. apply (closed_at_insert (visited s) c true p); assumption. }
  assert (Hcnt : closed_count (visited s1) = S (closed_count (visited s))).
  { apply closed_count_insert.
    pose proof (closed_at_lookup (visited s) c Hc Hlv) as Hlk.
    rewrite Hcl in Hlk. exact Hlk. }
  split; [|split; [|split]].
  - constructor; cbn [g_cost open_set came_from];
      try (destruct HI; assumption).
    + unfold s1. cbn [visited]. rewrite length_insert. assumption.
    + intros p Hp Hcp. rewrite Hv' in Hcp by assumption.
      case_decide as E; [subst p; auto|].
      apply (inv_closed _ _ _ _ HI); assumption.
    + intros p d Hp Hcp Hd Hw. rewrite Hv' in Hcp by assumption.
      case_decide as E; [left; split; [assumption | apply valid_dir_elem, Hd]|].
      destruct (inv_relaxed _ _ _ _ HI p d Hp Hcp Hd Hw) as [[_ Hin] | ?];
        [inversion Hin | auto].
    + intros p Hp Hcp Hf. rewrite Hv' in Hcp by assumption.
      case_decide as E; [discriminate|].
      pose proof (inv_open _ _ _ _ HI p Hp Hcp Hf) as Ho.
      rewrite Hperm in Ho. apply elem_of_cons in Ho as [E'|?]; [|assumption].
      apply node_cell_eq in E'. contradiction.
    + intros k Hk. apply (inv_nodes _ _ _ _ HI). rewrite Hperm.
      apply list_elem_of_further, Hk.
    + intros p Hp Hps Hf.
      destruct (inv_from _ _ _ _ HI p Hp Hps Hf) as (u & Hu & Hbu & Hcu & Hpu & Hgu).
      exists u. split; [assumption|]. split; [assumption|].
      split; [|split; assumption].
      rewrite Hv' by assumption. case_decide; [reflexivity | assumption].
    + rewrite Hv' by apply in_bounds_goal.
      rewrite decide_False by congruence. apply (inv_goal _ _ _ _ HI).
    + intros p Hp Hf. rewrite Hcnt, Hv' by assumption.
      change (g_cost s1) with (g_cost s) in *.
      pose proof (inv_count _ _ _ _ HI p Hp Hf) as Hc'.
      case_decide as E; [subst p; rewrite Hcl in Hc'; lia|].
      destruct (closed_at (visited s) p); lia.
  - rewrite Hv' by assumption. rewrite decide_True; reflexivity.
  - exact Hg.
  - unfold measure, s1. cbn [g_cost open_set]. rewrite Hperm. simpl. lia.
Qed.

(** *** Following the back-pointers *)

Lemma back_path_exists s c todo (k : nat) :
  SInv m s c todo ->
  forall p, in_bounds p -> g_at (g_cost s) p = Z.of_nat k ->
    g_at (g_cost s) p < INT_MAX ->
    exists l, back_path m (g_cost s) (came_from s) p l.
Proof.
  intros HI. induction k as [|k IH]; intros p Hp Hk Hf.
  - destruct (decide (p = start)) as [-> | Hne].
    + exists []. constructor. apply (inv_from_start _ _ _ _ HI).
    + destruct (inv_from _ _ _ _ HI p Hp Hne Hf) as (u & _ & Hbu & _ & _ & Hgu).
      pose proof (inv_range _ _ _ _ HI u Hbu). lia.
  - destruct (decide (p = start)) as [-> | Hne].
    + exists []. constructor. apply (inv_from_start _ _ _ _ HI).
    + destruct (inv_from _ _ _ _ HI p Hp Hne Hf) as (u & Hu & Hbu & _ & Hpu & Hgu).
      pose proof (inv_range _ _ _ _ HI u Hbu) as Hru.
      destruct (IH u Hbu) as [l Hl]; [lia | lia |].
      exists (p :: l). econstructor; try eassumption. lia.
Qed.

Lemma back_path_length g cf p l :
  g_at g start = 0 -> back_path m g cf p l ->
  g_at g p = Z.of_nat (length l).
Proof.
  intros H0. induction 1 as [| p u l _ _ _ _ Hg _ _ IH]; [assumption|].
  simpl. lia.
Qed.

Lemma back_path_walk g cf p l :
  back_path m g cf p l -> walk m start p (length l).
Proof.
  induction 1 as [| p u l _ _ _ Hp _ _ _ IH]; [constructor|].
  simpl. eapply walk_snoc; eassumption.
Qed.

Lemma back_path_forward g cf p l :
  g_at g start = 0 -> back_path m g cf p l ->
  let path := rev (l ++ [start]) in
  head path = Some start /\ last path = Some p /\
  chain m path /\ NoDup path /\
  (forall q, q ∈ path -> g_at g q <= g_at g p) /\
  length path = S (length l).
Proof.
  intros H0. induction 1 as [| p u l _ _ _ Hp Hg Hu _ IH]; intros path.
  - subst path. simpl. split; [reflexivity|]. split; [reflexivity|].
    split; [|split; [|split]].
    + intros i a b Ha Hb. destruct i; discriminate.
    + apply NoDup_singleton.
    + intros q Hq. apply list_elem_of_singleton in Hq. subst. lia.
    + reflexivity.
  - destruct IH as (Hhd & Hlast & Hch & Hnd & Hle & Hlen).
    assert (E : path = rev (l ++ [start]) ++ [p]) by reflexivity.
    set (pu := rev (l ++ [start])) in *. clearbody pu. subst path.
    rewrite E. clear E.
    split; [|split; [|split; [|split; [|split]]]].
    + destruct pu; [discriminate | exact Hhd].
    + apply last_snoc.
    + intros i a b Ha Hb.
      assert (Hi : (S i < length (pu ++ [p]))%nat)
        by (eapply lookup_lt_Some; eassumption).
      rewrite length_app in Hi. simpl in Hi.
      rewrite lookup_app_l in Ha by lia.
      destruct (decide (S i < length pu)%nat) as [Hlt | Hge].
      * rewrite lookup_app_l in Hb by lia. eapply Hch; eassumption.
      * assert (Ei : i = pred (length pu)) by lia.
        rewrite lookup_app_r in Hb by lia.
        replace (S i - length pu)%nat with 0%nat in Hb by lia.
        injection Hb as <-.
        rewrite last_lookup in Hlast. rewrite <- Ei in Hlast.
        assert (a = u) by congruence. subst a. assumption.
    + apply NoDup_app. split; [assumption|]. split; [|apply NoDup_singleton].
      intros q Hq Hq'. apply list_elem_of_singleton in Hq'. subst q.
      specialize (Hle p Hq). lia.
    + intros q Hq. apply elem_of_app in Hq as [Hq | Hq].
      * specialize (Hle q Hq). lia.
      * apply list_elem_of_singleton in Hq. subst. lia.
    + rewrite length_app. simpl. lia.
Qed.

Lemma reconstruct_total g cf p l :
  back_path m g cf p l ->
  forall fuel acc, (length l < fuel)%nat ->
    reconstruct fuel cf p acc = Ok (acc ++ l).
Proof.
  induction 1 as [Hs | p u l Hcf _ _ _ _ _ _ IH]; intros fuel acc Hfuel.
  - destruct fuel; [simpl in Hfuel; lia|]. cbn [reconstruct].
    change (index start.1 start.2) with (index 0 0). rewrite Hs.
    rewrite app_nil_r. reflexivity.
  - destruct fuel; [simpl in Hfuel; lia|]. cbn [reconstruct].
    rewrite Hcf. rewrite IH by (simpl in Hfuel; lia).
    rewrite <- app_assoc. reflexivity.
Qed.

Lemma reconstruct_returned g cf p l :
  back_path m g cf p l ->
  forall fuel acc r, reconstruct fuel cf p acc = Ok r -> r = acc ++ l.
Proof.
  induction 1 as [Hs | p u l Hcf _ _ _ _ _ _ IH]; intros fuel acc r.
  - destruct fuel; [discriminate|]. cbn [reconstruct].
    change (index start.1 start.2) with (index 0 0). rewrite Hs.
    rewrite app_nil_r. congruence.
  - destruct fuel; [discriminate|]. cbn [reconstruct].
    rewrite Hcf. intros H. apply IH in H. rewrite <- app_assoc in H. exact H.
Qed.

(** *** One iteration of the search loop *)

Lemma SInv_done s c c' : SInv m s c [] -> SInv m s c' [].
Proof.
  intros HI. destruct HI. constructor; try assumption.
  intros p d Hp Hcp Hd Hw.
  destruct (inv_relaxed0 p d Hp Hcp Hd Hw) as [[_ Hin] | ?];
    [inversion Hin | auto].
Qed.

Lemma goal_test n :
  (Node.x n =? COLS - 1) && (Node.y n =? ROWS - 1) = true <->
  (Node.x n, Node.y n) = goal.
Proof.
  unfold goal. rewrite andb_true_iff, !Z.eqb_eq. split.
  - intros [-> ->]. reflexivity.
  - intros [= -> ->]. auto.
Qed.

Lemma popped_in_bounds s c n rest :
  SInv m s c [] -> pq_pop (open_set s) = Some (n, rest) ->
  in_bounds (Node.x n, Node.y n).
Proof.
  intros HI Hpop. destruct (pq_pop_some _ _ _ Hpop) as [Hperm _].
  apply (inv_nodes _ _ _ _ HI). rewrite Hperm. apply list_elem_of_here.
Qed.

Lemma found_goal s n rest :
  Inv m s -> pq_pop (open_set s) = Some (n, rest) ->
  closed_at (visited s) (Node.x n, Node.y n) = false ->
  (Node.x n, Node.y n) = goal ->
  exists l,
    back_path m (g_cost s) (came_from s) (Node.x n, Node.y n) l /\
    (length l <= Z.to_nat (COLS * ROWS))%nat /\
    search_result m (rev (l ++ [(0, 0)])).
Proof.
  intros HI Hpop Hcl Hgoal.
  destruct (popped_optimal s start n rest HI Hpop Hcl) as [_ Hopt].
  pose proof (popped_in_bounds _ _ _ _ HI Hpop) as Hc.
  destruct (pq_pop_some _ _ _ Hpop) as [Hperm _].
  assert (Hn : n ∈ pq_elems (open_set s)).
  { rewrite Hperm. apply list_elem_of_here. }
  destruct (inv_nodes _ _ _ _ HI n Hn) as (_ & _ & Hfin & _).
  rewrite Hgoal in *.
  pose proof (inv_range _ _ _ _ HI goal Hc) as Hr.
  destruct (back_path_exists s start [] (Z.to_nat (g_at (g_cost s) goal)) HI
                             goal Hc) as [l Hl]; [lia | assumption |].
  pose proof (back_path_length _ _ _ _ (inv_start _ _ _ _ HI) Hl) as Hlen.
  exists l. split; [assumption|]. split.
  - pose proof (inv_count _ _ _ _ HI goal Hc Hfin) as Hcnt.
    pose proof (closed_count_le (visited s)).
    pose proof (inv_len_v _ _ _ _ HI).
    destruct (closed_at (visited s) goal); lia.
  - right.
    destruct (back_path_forward _ _ _ _ (inv_start _ _ _ _ HI) Hl)
      as (Hhd & Hlast & Hch & Hnd & _ & Hlp).
    change (0, 0) with start. split.
    + split; [assumption|]. split; [assumption|]. split; assumption.
    + rewrite Hlp. cbn [Nat.pred]. split.
      * eapply back_path_walk; eassumption.
      * intros k Hk. specialize (Hopt k Hk). lia.
Qed.

Lemma expand_cell s n rest :
  Inv m s -> pq_pop (open_set s) = Some (n, rest) ->
  closed_at (visited s) (Node.x n, Node.y n) = false ->
  (Node.x n, Node.y n) <> goal ->
  exists s',
    foldM (expand_dir n) [0; 1; 2; 3]
          (m, mkSearch rest (came_from s) (g_cost s)
                (<[Z.to_nat (index (Node.x n) (Node.y n)) := true]> (visited s)))
    = Ok (m, s') /\
    Inv m s' /\ (measure s' < measure s)%nat.
Proof.
  intros HI Hpop Hcl Hng.
  pose proof (popped_in_bounds _ _ _ _ HI Hpop) as Hc.
  destruct (close_cell s n rest HI Hpop Hcl Hng) as (HI1 & Hcl1 & Hg1 & Hm1).
  destruct (expand_loop n [0; 1; 2; 3] all_dirs_valid Hc _ HI1 Hcl1 Hg1)
    as (s' & E & HI' & Hm').
  exists s'. split; [assumption|]. split.
  - eapply SInv_done; eassumption.
  - lia.
Qed.

Lemma empty_queue s :
  Inv m s -> pq_pop (open_set s) = None -> ~ reachable m start goal.
Proof.
  intros HI Hpop [k Hk]. apply pq_pop_none in Hpop.
  destruct (frontier s start start goal k HI Hk 0) as (n & Hn & _).
  - apply in_bounds_start.
  - rewrite (inv_start _ _ _ _ HI). lia.
  - rewrite (inv_start _ _ _ _ HI). unfold INT_MAX. lia.
  - apply (inv_goal _ _ _ _ HI).
  - rewrite Hpop in Hn. inversion Hn.
Qed.

Lemma visited_get s c n rest :
  SInv m s c [] -> pq_pop (open_set s) = Some (n, rest) ->
  vec_get (visited s) (index (Node.x n) (Node.y n)) =
    Ok (closed_at (visited s) (Node.x n, Node.y n)) /\
  vec_set (visited s) (index (Node.x n) (Node.y n)) true =
    Ok (<[Z.to_nat (index (Node.x n) (Node.y n)) := true]> (visited s)).
Proof.
  intros HI Hpop. pose proof (popped_in_bounds _ _ _ _ HI Hpop) as Hc.
  pose proof (index_range _ Hc) as Hi. cbn [fst snd] in Hi.
  pose proof (inv_len_v _ _ _ _ HI) as Hlv. split.
  - apply vec_get_Ok. split; [lia|].
    apply (closed_at_lookup (visited s) _ Hc Hlv).
  - unfold vec_set. rewrite bool_decide_eq_true_2 by lia. reflexivity.
Qed.

(** *** The loop *)

Lemma a_star_loop_total rfuel :
  (Z.to_nat (COLS * ROWS) < rfuel)%nat ->
  forall fuel s, Inv m s -> (measure s < fuel)%nat ->
    exists path, a_star_loop rfuel fuel m s = Ok (path, m) /\
                 search_result m path.
Proof.
  intros Hrf fuel. induction fuel as [|fuel IH]; intros s HI Hfuel; [lia|].
  cbn [a_star_loop]. destruct (pq_pop (open_set s)) as [[n rest]|] eqn:Hpop.
  - destruct (visited_get _ _ _ _ HI Hpop) as [Hget Hset]. rewrite Hget.
    cbn [bind]. destruct (closed_at (visited s) (Node.x n, Node.y n)) eqn:Hcl.
    + destruct (skip_closed s n rest HI Hpop Hcl) as [HI' Hm].
      apply IH; [assumption | lia].
    + rewrite Hset. cbn [bind].
      destruct ((Node.x n =? COLS - 1) && (Node.y n =? ROWS - 1)) eqn:Hg.
      * apply goal_test in Hg.
        destruct (found_goal s n rest HI Hpop Hcl Hg) as (l & Hl & Hlen & Hres).
        rewrite (reconstruct_total _ _ _ _ Hl) by lia. cbn [bind app].
        exists (rev (l ++ [(0, 0)])). auto.
      * assert (Hng : (Node.x n, Node.y n) <> goal).
        { intros E. apply goal_test in E. congruence. }
        destruct (expand_cell s n rest HI Hpop Hcl Hng) as (s' & E & HI' & Hm).
        rewrite E. cbn [bind fst snd]. apply IH; [assumption | lia].
  - exists []. split; [reflexivity|]. left. split; [reflexivity|].
    eapply empty_queue; eassumption.
Qed.

Lemma a_star_loop_returned rfuel fuel :
  forall s path m', Inv m s ->
    a_star_loop rfuel fuel m s = Ok (path, m') -> search_result m path.
Proof.
  induction fuel as [|fuel IH]; intros s path m' HI; [discriminate|].
  cbn [a_star_loop]. destruct (pq_pop (open_set s)) as [[n rest]|] eqn:Hpop.
  - destruct (visited_get _ _ _ _ HI Hpop) as [Hget Hset]. rewrite Hget.
    cbn [bind]. destruct (closed_at (visited s) (Node.x n, Node.y n)) eqn:Hcl.
    + destruct (skip_closed s n rest HI Hpop Hcl) as [HI' Hm].
      apply IH. assumption.
    + rewrite Hset. cbn [bind].
      destruct ((Node.x n =? COLS - 1) && (Node.y n =? ROWS - 1)) eqn:Hg.
      * apply goal_test in Hg.
        destruct (found_goal s n rest HI Hpop Hcl Hg) as (l & Hl & Hlen & Hres).
        intros H. apply bind_Ok in H as (r & Hr & H).
        apply (reconstruct_returned _ _ _ _ Hl) in Hr. cbn [app] in Hr.
        subst r. injection H as <- _. assumption.
      * assert (Hng : (Node.x n, Node.y n) <> goal).
        { intros E. apply goal_test in E. congruence. }
        destruct (expand_cell s n rest HI Hpop Hcl Hng) as (s' & E & HI' & Hm).
        rewrite E. cbn [bind fst snd]. apply IH. assumption.
  - intros [= <- _]. left. split; [reflexivity|].
    eapply empty_queue; eassumption.
Qed.

Lemma reconstruct_defined fuel cf p acc : reconstruct fuel cf p acc <> Undefined.
Proof.
  revert p acc. induction fuel as [|fuel IH]; intros p acc; cbn [reconstruct];
    [discriminate|].
  destruct (cf !! _); [apply IH | discriminate].
Qed.

Lemma a_star_loop_defined rfuel fuel :
  forall s, Inv m s -> a_star_loop rfuel fuel m s <> Undefined.
Proof.
  induction fuel as [|fuel IH]; intros s HI; [discriminate|].
  cbn [a_star_loop]. destruct (pq_pop (open_set s)) as [[n rest]|] eqn:Hpop;
    [|discriminate].
  destruct (visited_get _ _ _ _ HI Hpop) as [Hget Hset]. rewrite Hget.
  cbn [bind]. destruct (closed_at (visited s) (Node.x n, Node.y n)) eqn:Hcl.
  - destruct (skip_closed s n rest HI Hpop Hcl) as [HI' Hm].
    apply IH. assumption.
  - rewrite Hset. cbn [bind].
    destruct ((Node.x n =? COLS - 1) && (Node.y n =? ROWS - 1)) eqn:Hg.
    + pose proof (reconstruct_defined rfuel (came_from s)
                    (Node.x n, Node.y n) []) as Hd.
      destruct (reconstruct _ _ _ _); [discriminate | discriminate | congruence].
    + assert (Hng : (Node.x n, Node.y n) <> goal).
      { intros E. apply goal_test in E. congruence. }
      destruct (expand_cell s n rest HI Hpop Hcl Hng) as (s' & E & HI' & Hm).
      rewrite E. cbn [bind fst snd]. apply IH. assumption.
Qed.

(** *** The initial state *)

Lemma a_star_init_Inv :
  exists s0, a_star_init = Ok s0 /\ Inv m s0.
Proof.
  unfold a_star_init.
  set (n := Z.to_nat (COLS * ROWS)).
  assert (Hn : Z.of_nat n = COLS * ROWS) by (unfold n; nia).
  assert (Hlen : Z.of_nat (length (replicate n INT_MAX)) = COLS * ROWS).
  { rewrite length_replicate. assumption. }
  assert (Hi0 : index 0 0 = 0) by (unfold index; lia).
  unfold vec_set. rewrite bool_decide_eq_true_2 by (rewrite Hi0; nia).
  cbn [bind]. eexists. split; [reflexivity|].
  set (g0 := <[Z.to_nat (index 0 0) := 0]> (replicate n INT_MAX)).
  assert (Hg0 : forall p, in_bounds p ->
            g_at g0 p = if decide (p = start) then 0 else INT_MAX).
  { intros p Hp. unfold g0.
    change (index 0 0) with (index start.1 start.2).
    rewrite (g_at_insert _ start 0 p in_bounds_start Hp Hlen).
    case_decide; [reflexivity|]. unfold g_at.
    pose proof (index_range p Hp).
    rewrite lookup_replicate_2 by lia. reflexivity. }
  assert (Hv0 : forall p, in_bounds p -> closed_at (replicate n false) p = false).
  { intros p Hp. unfold closed_at. pose proof (index_range p Hp).
    rewrite lookup_replicate_2 by lia. reflexivity. }
  assert (Hfin : forall p, in_bounds p -> g_at g0 p < INT_MAX -> p = start).
  { intros p Hp. rewrite Hg0 by assumption. case_decide; [auto | lia]. }
  constructor; cbn [g_cost visited open_set came_from]; fold g0.
  - unfold g0. rewrite length_insert. assumption.
  - rewrite length_replicate. assumption.
  - rewrite Hg0 by apply in_bounds_start. rewrite decide_True; reflexivity.
  - intros p Hp. rewrite Hg0 by assumption. unfold INT_MAX.
    case_decide; lia.
  - intros p Hp Hf. rewrite (Hfin p Hp Hf).
    rewrite Hg0 by apply in_bounds_start. rewrite decide_True by reflexivity.
    constructor.
  - intros p Hp Hcp. rewrite Hv0 in Hcp by assumption. discriminate.
  - intros p d Hp Hcp. rewrite Hv0 in Hcp by assumption. discriminate.
  - intros p Hp _ Hf. rewrite (Hfin p Hp Hf). apply elem_of_pq_push. left.
    unfold node_of. rewrite Hg0 by apply in_bounds_start.
    rewrite decide_True by reflexivity. reflexivity.
  - intros k Hk. apply elem_of_pq_push in Hk as [-> | Hk].
    + cbn [Node.x Node.y Node.g_cost Node.h_cost]. change (0, 0) with start.
      rewrite Hg0 by apply in_bounds_start. rewrite decide_True by reflexivity.
      split; [apply in_bounds_start|]. unfold INT_MAX.
      split; [lia|]. split; [lia|]. reflexivity.
    + rewrite pq_elems_empty in Hk. inversion Hk.
  - intros p Hp Hne Hf. exfalso. apply Hne. apply Hfin; assumption.
  - apply lookup_empty.
  - apply Hv0. apply in_bounds_goal.
  - intros p Hp Hf. rewrite (Hfin p Hp Hf).
    rewrite Hg0 by apply in_bounds_start. rewrite decide_True by reflexivity.
    rewrite Hv0 by apply in_bounds_start. lia.
Qed.

(** *** [a_star] on a grid whose passages stay inside it *)

Lemma a_star_total :
  exists fuel0, forall fuel, (fuel0 <= fuel)%nat ->
    exists path, a_star fuel m = Ok (path, m) /\ search_result m path.
Proof.
  destruct a_star_init_Inv as (s0 & E & HI).
  exists (S (Nat.max (measure s0) (Z.to_nat (COLS * ROWS)))).
  intros fuel Hfuel. unfold a_star. rewrite E. cbn [bind].
  apply a_star_loop_total; [lia | assumption | lia].
Qed.

Lemma a_star_returned fuel path m' :
  a_star fuel m = Ok (path, m') -> search_result m path.
Proof.
  destruct a_star_init_Inv as (s0 & E & HI).
  unfold a_star. rewrite E. cbn [bind].
  apply a_star_loop_returned. assumption.
Qed.

Lemma a_star_defined fuel : a_star fuel m <> Undefined.
Proof.
  destruct a_star_init_Inv as (s0 & E & HI).
  unfold a_star. rewrite E. cbn [bind].
  apply a_star_loop_defined. assumption.
Qed.

End Pathfinder.

(** ** The program as [main] runs it *)

Lemma Maze_new_cell g c :
  c ∈ maze (Maze_new g) -> exists x y, c = Cell.new x y.
Proof.
  unfold Maze_new. cbn [maze]. intros H. apply list_elem_of_In in H.
  apply in_flat_map in H as (y & _ & H). apply in_map_iff in H as (x & <- & _).
  eauto.
Qed.

Lemma length_rows {A : Type} (f : Z -> list A) (k : nat) (l : list Z) :
  (forall y, length (f y) = k) -> length (flat_map f l) = (length l * k)%nat.
Proof.
  intros Hf. induction l as [|a l IH]; simpl; [reflexivity|].
  rewrite length_app, Hf, IH. lia.
Qed.

Lemma Maze_new_well_formed g : well_formed (maze (Maze_new g)).
Proof.
  unfold well_formed, Maze_new. cbn [maze].
  rewrite (length_rows _ (Z.to_nat COLS)).
  - rewrite length_seqZ. nia.
  - intros y. rewrite length_map, length_seqZ. reflexivity.
Qed.

Lemma Maze_new_all_walls g : all_walls_present (maze (Maze_new g)).
Proof.
  intros c i Hc d s Hs.
  destruct (Maze_new_cell g c) as (x & y & ->).
  { apply list_elem_of_lookup. eauto. }
  unfold array4_get in Hs. cbn in Hs.
  repeat (destruct (_ =? _) in Hs; [injection Hs as <-; reflexivity|]).
  discriminate.
Qed.

Lemma Maze_new_all_unvisited g : all_unvisited (maze (Maze_new g)).
Proof.
  intros c i Hc. destruct (Maze_new_cell g c) as (x & y & ->).
  { apply list_elem_of_lookup. eauto. }
  reflexivity.
Qed.

Lemma carved_walls m :
  carved m -> well_formed (maze m) /\ walls_ok (maze m).
Proof.
  intros (fuel & x & y & g & st & Hxy & Hrun & ->).
  apply (generate_maze_walls fuel x y (mkRun (Maze_new g) [])); try assumption.
  - apply Maze_new_well_formed.
  - apply Maze_new_all_walls.
Qed.

Lemma passage_both_ways m u v :
  boundary_closed m -> wall_symmetric m -> passage m u v -> both_ways m u v.
Proof.
  intros Hcl Hsym (d & Hd & Hw & ->). exists d.
  split; [assumption|]. split; [reflexivity|]. split; [assumption|].
  apply (Hsym u d); [|assumption| |assumption].
  - apply (walkable_in_bounds m u d Hw).
  - apply Hcl; assumption.
Qed.

Lemma passage_sym m :
  boundary_closed m -> wall_symmetric m ->
  forall a b, passage m a b -> passage m b a.
Proof.
  intros Hcl Hsym a b Hab.
  destruct (passage_both_ways m a b Hcl Hsym Hab) as (d & Hd & -> & _ & Hback).
  exists (opposite d). split; [apply opposite_valid; assumption|].
  split; [assumption|]. symmetry. apply step_opposite. assumption.
Qed.




(** C4 (amended): on a grid that satisfies the wall symmetry invariant
    and whose walkable steps all stay inside the grid, a non-empty
    path returned by [a_star] starts at the start, ends at the goal,
    has every consecutive pair passable in both directions, and holds
    no cell twice. *)
Theorem a_star_path_valid (m m' : Maze) (fuel : nat) (path : list (Z * Z)) :
  well_formed (maze m) -> boundary_closed m -> wall_symmetric m ->
  a_star fuel m = Ok (path, m') -> path <> [] ->
  valid_path m path.
Proof.
  intros Hwf Hcl Hsym Hrun Hne.
  destruct (a_star_returned m Hwf Hcl fuel path m' Hrun)
    as [[-> _] | [(Hhd & Hlast & Hch & Hnd) _]]; [contradiction|].
  split; [assumption|]. split; [assumption|]. split; [|assumption].
  intros i u v Hu Hv. apply passage_both_ways; try assumption.
  eapply Hch; eassumption.
Qed.

(** C5 (amended): on a grid whose walkable steps all stay inside the
    grid and in which the goal cannot be reached from the start,
    [a_star] returns, given enough fuel, and what it returns is the
    empty path; it never runs into undefined behaviour. *)
Theorem a_star_unreachable (m : Maze) :
  well_formed (maze m) -> boundary_closed m -> ~ reachable m start goal ->
  (exists fuel0, forall fuel, (fuel0 <= fuel)%nat -> a_star fuel m = Ok ([], m)) /\
  (forall fuel path m', a_star fuel m = Ok (path, m') -> path = []) /\
  (forall fuel, a_star fuel m <> Undefined).
Proof.
  intros Hwf Hcl Hno.
  assert (Hres : forall path, search_result m path -> path = []).
  { intros path [[-> _] | [_ [Hw _]]]; [reflexivity|].
    exfalso. apply Hno. eexists. eassumption. }
  split; [|split].
  - destruct (a_star_total m Hwf Hcl) as (fuel0 & Hrun).
    exists fuel0. intros fuel Hfuel.
    destruct (Hrun fuel Hfuel) as (path & E & Hsr).
    rewrite (Hres path Hsr) in E. assumption.
  - intros fuel path m' Hrun. apply Hres.
    eapply a_star_returned; eassumption.
  - intros fuel. apply a_star_defined; assumption.
Qed.

(** C10: [generate_maze], started inside a grid on which every wall
    stands, removes no wall of the outer boundary; hence in the grid
    it leaves a walkable step from a cell of the grid leads to a cell
    of the grid, whose index lies inside the [g_cost] and [visited]
    vectors, and [a_star] never indexes a vector out of range. *)
Theorem generate_maze_keeps_boundary (x y : Z) (st st' : Run) (fuel : nat) :
  in_bounds (x, y) -> well_formed (maze (this st)) ->
  all_walls_present (maze (this st)) ->
  generate_maze fuel x y st = Ok st' ->
  (forall cx, 0 <= cx < COLS ->
     is_walkable cx 0 NORTH (this st') = Ok (false, this st') /\
     is_walkable cx (ROWS - 1) SOUTH (this st') = Ok (false, this st')) /\
  (forall cy, 0 <= cy < ROWS ->
     is_walkable 0 cy WEST (this st') = Ok (false, this st') /\
     is_walkable (COLS - 1) cy EAST (this st') = Ok (false, this st')) /\
  (forall cx cy dir m',
     in_bounds (cx, cy) -> valid_dir dir ->
     is_walkable cx cy dir (this st') = Ok (true, m') ->
     in_bounds (step_x cx dir, step_y cy dir) /\
     0 <= index (step_x cx dir) (step_y cy dir) < COLS * ROWS) /\
  (forall fuel', a_star fuel' (this st') <> Undefined).
Proof.
  intros Hxy Hwf Hall Hrun.
  destruct (generate_maze_walls fuel x y st st' Hxy Hwf Hall Hrun) as [Hwf' Hok].
  pose proof (walls_ok_boundary_closed _ Hwf' Hok) as Hcl.
  destruct Hok as [_ Hbd].
  assert (Hwall : forall p d, in_bounds p -> valid_dir d ->
            ~ in_bounds (step p d) ->
            is_walkable p.1 p.2 d (this st') = Ok (false, this st')).
  { intros [px py] d Hp Hd Hout. cbn [fst snd].
    rewrite is_walkable_inside by assumption.
    rewrite Hbd by assumption. reflexivity. }
  split; [|split; [|split]].
  - intros cx Hcx. split.
    + apply (Hwall (cx, 0)); [split; simpl; lia | unfold valid_dir, NORTH; lia |].
      rewrite step_NORTH. unfold in_bounds. simpl. lia.
    + apply (Hwall (cx, ROWS - 1)); [split; simpl; lia | unfold valid_dir, SOUTH; lia |].
      rewrite step_SOUTH. unfold in_bounds. simpl. lia.
  - intros cy Hcy. split.
    + apply (Hwall (0, cy)); [split; simpl; lia | unfold valid_dir, WEST; lia |].
      rewrite step_WEST. unfold in_bounds. simpl. lia.
    + apply (Hwall (COLS - 1, cy)); [split; simpl; lia | unfold valid_dir, EAST; lia |].
      rewrite step_EAST. unfold in_bounds. simpl. lia.
  - intros cx cy dir m' Hc Hd Hw.
    assert (Hb : in_bounds (step (cx, cy) dir)).
    { apply Hcl; [assumption|]. exists m'. exact Hw. }
    split; [exact Hb|]. apply (index_range _ Hb).
  - intros fuel'. apply a_star_defined; assumption.
Qed.

(** ** Further properties of the grid model *)

(** X1: [opposite] maps each of the four directions to another
    direction, it is an involution on them, and the neighbour
    computation is undone by it: a step in direction [d] followed by a
    step in direction [opposite d] leads back to the cell, and a step
    never stays on the cell. *)
Theorem opposite_round_trip (p : Z * Z) (d : Z) :
  valid_dir d ->
  valid_dir (opposite d) /\ opposite d <> d /\ opposite (opposite d) = d /\
  step (step p d) (opposite d) = p /\ step p d <> p.
Proof.
  intros Hd. split; [apply opposite_valid; assumption|]. split.
  { dir_cases d Hd; unfold opposite, NORTH, SOUTH, WEST, EAST; simpl; lia. }
  split; [apply opposite_involutive; assumption|].
  split; [apply step_opposite; assumption | apply step_neq; assumption].
Qed.

(** X2: [Cell::remove_wall] with one of the four directions clears the
    [exist] flag of that segment and nothing else: coordinates, the
    visited flag, the end points of all four segments and the flags of
    the other three stay; removing the same wall again changes
    nothing.  With any other direction the access [segments[direction]]
    is outside the array. *)
Theorem remove_wall_spec (c : Cell.t) (d : Z) :
  (valid_dir d ->
   exists c',
     Cell.remove_wall c d = Ok c' /\
     Cell.x c' = Cell.x c /\ Cell.y c' = Cell.y c /\
     Cell.visited c' = Cell.visited c /\
     (forall d' s, array4_get (Cell.segments c) d' = Ok s ->
        array4_get (Cell.segments c') d' =
        Ok (if decide (d' = d) then Segment.set_exist s false else s)) /\
     Cell.remove_wall c' d = Ok c') /\
  (~ valid_dir d -> Cell.remove_wall c d = Undefined).
Proof.
  split.
  - intros Hd. destruct c as [cx cy cv [s0 s1 s2 s3]].
    dir_cases d Hd; eexists; (split; [reflexivity|]);
      (split; [reflexivity|]); (split; [reflexivity|]);
      (split; [reflexivity|]); (split; [|reflexivity]);
      intros d' s; unfold array4_get, NORTH, SOUTH, WEST, EAST; simpl;
      (destruct (Z.eqb_spec d' 0);
         [intros [= <-]; case_decide; first [reflexivity | lia]|]);
      (destruct (Z.eqb_spec d' 1);
         [intros [= <-]; case_decide; first [reflexivity | lia]|]);
      (destruct (Z.eqb_spec d' 2);
         [intros [= <-]; case_decide; first [reflexivity | lia]|]);
      (destruct (Z.eqb_spec d' 3);
         [intros [= <-]; case_decide; first [reflexivity | lia]|]);
      discriminate.
  - intros Hd. unfold valid_dir in Hd. unfold Cell.remove_wall, array4_get.
    destruct (Z.eqb_spec d 0); [lia|]. destruct (Z.eqb_spec d 1); [lia|].
    destruct (Z.eqb_spec d 2); [lia|]. destruct (Z.eqb_spec d 3); [lia|].
    reflexivity.
Qed.

(** X3: the comparison [operator>] of [Node], by which the priority
    queue orders its entries, is a strict weak ordering: irreflexive,
    transitive, and with a transitive incomparability. *)
Theorem Node_gt_strict_weak_order :
  (forall n, Node.gt n n = false) /\
  (forall a b c, Node.gt a b = true -> Node.gt b c = true -> Node.gt a c = true) /\
  (forall a b c,
     Node.gt a b = false -> Node.gt b a = false ->
     Node.gt b c = false -> Node.gt c b = false ->
     Node.gt a c = false /\ Node.gt c a = false).
Proof.
  unfold Node.gt. split; [|split].
  - intros n. apply Z.ltb_irrefl.
  - intros a b c H1 H2. apply Z.ltb_lt in H1, H2. apply Z.ltb_lt. lia.
  - intros a b c H1 H2 H3 H4. apply Z.ltb_ge in H1, H2, H3, H4.
    split; apply Z.ltb_ge; lia.
Qed.

(** X4: the heuristic is consistent.  It is never negative, on the
    grid it is zero at the goal only, and one step in any of the four
    directions changes it by exactly one. *)
Theorem heuristic_consistent :
  (forall x y, 0 <= heuristic x y) /\
  (forall x y, in_bounds (x, y) -> (heuristic x y = 0 <-> (x, y) = goal)) /\
  (forall p d, valid_dir d ->
     Z.abs (heuristic (step p d).1 (step p d).2 - heuristic p.1 p.2) = 1).
Proof.
  clear COLS_pos ROWS_pos shuffle_perm cells_fit_int.
  split; [|split].
  - intros x y. unfold heuristic. lia.
  - intros x y [Hx Hy]. simpl in Hx, Hy. unfold heuristic, goal. split.
    + intros H. f_equal; lia.
    + intros [= -> ->]. lia.
  - intros p d Hd. unfold heuristic.
    dir_cases d Hd;
      rewrite ?step_NORTH, ?step_SOUTH, ?step_WEST, ?step_EAST; simpl; lia.
Qed.

(** X5: for a cell of the grid, [is_walkable] with a direction that is
    none of the four reads [segments[direction]] outside the array. *)
Theorem is_walkable_bad_direction (m : Maze) (x y direction : Z) :
  in_bounds (x, y) -> well_formed (maze m) -> ~ valid_dir direction ->
  is_walkable x y direction m = Undefined.
Proof.
  intros Hxy Hwf Hd. destruct (cell_lookup (maze m) (x, y) Hxy Hwf) as [c Hc].
  pose proof (index_range (x, y) Hxy) as Hi. cbn [fst snd] in Hi, Hc.
  destruct Hxy as [Hx Hy]. cbn [fst snd] in Hx, Hy.
  unfold is_walkable.
  replace ((x <? 0) || (y <? 0) || (COLS <=? x) || (ROWS <=? y)) with false
    by (symmetry; repeat (apply orb_false_intro); lia).
  assert (Hget : vec_get (maze m) (y * COLS + x) = Ok c).
  { apply vec_get_Ok. unfold well_formed in Hwf. unfold index in *.
    split; [lia | assumption]. }
  rewrite Hget. cbn [bind]. unfold valid_dir in Hd. unfold array4_get.
  destruct (Z.eqb_spec direction 0); [lia|].
  destruct (Z.eqb_spec direction 1); [lia|].
  destruct (Z.eqb_spec direction 2); [lia|].
  destruct (Z.eqb_spec direction 3); [lia|].
  reflexivity.
Qed.

(** X6: [generate_maze] called with an origin whose index
    [y * COLS + x] is not an index of the vector of cells reads
    [maze[y * COLS + x]] out of range. *)
Theorem generate_maze_origin_out_of_range (fuel : nat) (x y : Z) (st : Run) :
  ~ (0 <= y * COLS + x < Z.of_nat (length (maze (this st)))) ->
  generate_maze (S fuel) x y st = Undefined.
Proof.
  intros Hout. cbn [generate_maze]. unfold mark_visited, vec_get.
  rewrite bool_decide_eq_false_2 by assumption. reflexivity.
Qed.

(** X7: the two stored copies of a wall lie on the same line.  The
    segment in direction [d] of the cell that [Cell(x, y)] constructs
    has the end points of the segment in direction [opposite d] of the
    cell constructed for the neighbour in direction [d]. *)
Theorem shared_wall_same_line (p : Z * Z) (d : Z) :
  valid_dir d ->
  exists s s',
    array4_get (Cell.segments (Cell.new p.1 p.2)) d = Ok s /\
    array4_get (Cell.segments (Cell.new (step p d).1 (step p d).2)) (opposite d)
      = Ok s' /\
    line_of s = line_of s' /\
    Segment.exist s = true /\ Segment.exist s' = true.
Proof.
  intros Hd. destruct p as [x y].
  dir_cases d Hd;
    rewrite ?step_NORTH, ?step_SOUTH, ?step_WEST, ?step_EAST;
    unfold opposite, NORTH, SOUTH, WEST, EAST, array4_get; simpl;
    eexists; eexists; (split; [reflexivity|]); (split; [reflexivity|]);
    (split; [|split; reflexivity]);
    unfold line_of, CELL_SIZE; simpl; repeat f_equal; lia.
Qed.

Lemma lookup_map_Some {A B : Type} (f : A -> B) (l : list A) (i : nat) (a : A) :
  l !! i = Some a -> map f l !! i = Some (f a).
Proof.
  revert i. induction l as [|b l IH]; intros [|i]; simpl; try discriminate.
  - intros [= ->]. reflexivity.
  - apply IH.
Qed.

Lemma lookup_rows {A : Type} (f : Z -> list A) (k : nat) (l : list Z)
      (i j : nat) (a : Z) :
  (forall y, length (f y) = k) -> l !! i = Some a -> (j < k)%nat ->
  flat_map f l !! (i * k + j)%nat = f a !! j.
Proof.
  intros Hf. revert i. induction l as [|b l IH]; intros [|i]; simpl; try discriminate.
  - intros [= ->] Hj. apply lookup_app_l. rewrite Hf. assumption.
  - intros Hi Hj. rewrite lookup_app_r by (rewrite Hf; lia).
    rewrite Hf. replace (k + i * k + j - k)%nat with (i * k + j)%nat by lia.
    apply IH; assumption.
Qed.

Lemma Maze_new_lookup g p :
  in_bounds p ->
  maze (Maze_new g) !! Z.to_nat (index p.1 p.2) = Some (Cell.new p.1 p.2).
Proof.
  clear cells_fit_int.
  intros [Hx Hy]. unfold Maze_new, index. cbn [maze].
  replace (Z.to_nat (p.2 * COLS + p.1))
    with (Z.to_nat p.2 * Z.to_nat COLS + Z.to_nat p.1)%nat by nia.
  rewrite (lookup_rows _ (Z.to_nat COLS) _ _ _ p.2).
  - apply (lookup_map_Some (fun x => Cell.new x p.2)).
    replace p.1 with (0 + Z.of_nat (Z.to_nat p.1)) at 2 by lia.
    apply lookup_seqZ. split; [reflexivity | lia].
  - intros y. rewrite length_map, length_seqZ. reflexivity.
  - replace p.2 with (0 + Z.of_nat (Z.to_nat p.2)) at 2 by lia.
    apply lookup_seqZ. split; [reflexivity | lia].
  - lia.
Qed.

(** X8: the constructor [Maze()] lays the grid out row by row: the
    vector has [COLS * ROWS] cells, and for every cell [(x, y)] of the
    grid the element at index [y * COLS + x] is the cell [Cell(x, y)],
    with its own coordinates, unvisited, every wall standing.  Indices
    from [COLS * ROWS] on are outside the vector. *)
Theorem Maze_new_layout (g : RNG) :
  Z.of_nat (length (maze (Maze_new g))) = COLS * ROWS /\
  (forall x y, in_bounds (x, y) ->
     vec_get (maze (Maze_new g)) (y * COLS + x) = Ok (Cell.new x y)) /\
  (forall i, COLS * ROWS <= i -> vec_get (maze (Maze_new g)) i = Undefined).
Proof.
  clear cells_fit_int.
  pose proof (Maze_new_well_formed g) as Hwf. unfold well_formed in Hwf.
  split; [assumption|]. split.
  - intros x y Hxy. apply vec_get_Ok. split.
    + rewrite Hwf. apply (index_range (x, y) Hxy).
    + apply (Maze_new_lookup g (x, y) Hxy).
  - intros i Hi. unfold vec_get. rewrite bool_decide_eq_false_2 by lia.
    reflexivity.
Qed.

(** ** What the generator leaves alone *)

Lemma segment_evolves_refl s : segment_evolves s s.
Proof. split; [reflexivity | auto]. Qed.

Lemma segment_evolves_trans s1 s2 s3 :
  segment_evolves s1 s2 -> segment_evolves s2 s3 -> segment_evolves s1 s3.
Proof. intros [E1 H1] [E2 H2]. split; [congruence | auto]. Qed.

Lemma cell_evolves_refl c : cell_evolves c c.
Proof.
  unfold cell_evolves. pose proof segment_evolves_refl. auto 10.
Qed.

Lemma cell_evolves_trans c1 c2 c3 :
  cell_evolves c1 c2 -> cell_evolves c2 c3 -> cell_evolves c1 c3.
Proof.
  intros (Hx1 & Hy1 & Hv1 & Ha1 & Hb1 & Hc1 & Hd1)
         (Hx2 & Hy2 & Hv2 & Ha2 & Hb2 & Hc2 & Hd2).
  unfold cell_evolves.
  split; [congruence|]. split; [congruence|]. split; [auto|].
  split; [eapply segment_evolves_trans; eassumption|].
  split; [eapply segment_evolves_trans; eassumption|].
  split; eapply segment_evolves_trans; eassumption.
Qed.

Lemma evolves_refl cells : Forall2 cell_evolves cells cells.
Proof.
  induction cells; constructor; [apply cell_evolves_refl | assumption].
Qed.

Lemma evolves_trans a b c :
  Forall2 cell_evolves a b -> Forall2 cell_evolves b c -> Forall2 cell_evolves a c.
Proof.
  intros Hab. revert c. induction Hab as [|x y a b Hxy Hab IH]; intros c Hbc.
  - inversion Hbc. constructor.
  - inversion Hbc as [|y' z b' c' Hyz Hbc']; subst. constructor.
    + eapply cell_evolves_trans; eassumption.
    + apply IH. assumption.
Qed.

Lemma evolves_insert cells i c c' :
  cells !! i = Some c -> cell_evolves c c' ->
  Forall2 cell_evolves cells (<[i := c']> cells).
Proof.
  revert i. induction cells as [|b cells IH]; intros [|i]; simpl; try discriminate.
  - intros [= ->] H. constructor; [assumption | apply evolves_refl].
  - intros Hi H. constructor; [apply cell_evolves_refl | apply IH; assumption].
Qed.

Lemma set_visited_evolves c : cell_evolves c (Cell.set_visited c true).
Proof.
  unfold cell_evolves, Cell.set_visited. cbn.
  pose proof segment_evolves_refl. auto 10.
Qed.

Lemma remove_wall_evolves c d c' :
  Cell.remove_wall c d = Ok c' -> cell_evolves c c'.
Proof.
  destruct c as [cx cy cv [s0 s1 s2 s3]].
  unfold Cell.remove_wall, array4_get, array4_set. cbn [Cell.segments].
  pose proof segment_evolves_refl as Hr.
  assert (Hs : forall s, segment_evolves s (Segment.set_exist s false)).
  { intros s. split; [reflexivity | discriminate]. }
  destruct (Z.eqb_spec d 0);
    [|destruct (Z.eqb_spec d 1);
      [|destruct (Z.eqb_spec d 2); [|destruct (Z.eqb_spec d 3)]]];
    cbn; intros [= <-]; unfold cell_evolves; cbn; auto 10.
Qed.

Lemma mark_visited_evolves st p st1 :
  in_bounds p -> well_formed (maze (this st)) ->
  mark_visited (index p.1 p.2) p st = Ok st1 ->
  Forall2 cell_evolves (maze (this st)) (maze (this st1)).
Proof.
  intros Hp Hwf E. destruct (mark_visited_Ok st p Hp Hwf) as (c & Hc & E').
  rewrite E' in E. injection E as <-. cbn [this maze].
  eapply evolves_insert; [eassumption | apply set_visited_evolves].
Qed.

Lemma remove_wall_at_evolves st p d st1 :
  in_bounds p -> well_formed (maze (this st)) -> valid_dir d ->
  remove_wall_at (index p.1 p.2) d st = Ok st1 ->
  Forall2 cell_evolves (maze (this st)) (maze (this st1)).
Proof.
  intros Hp Hwf Hd E.
  destruct (remove_wall_at_Ok st p d Hp Hwf Hd) as (c & c' & Hc & Hrm & E').
  rewrite E' in E. injection E as <-. unfold set_maze. cbn [this maze].
  eapply evolves_insert; [eassumption | eapply remove_wall_evolves; eassumption].
Qed.

Lemma carve_evolves st p d st1 st2 st3 :
  well_formed (maze (this st)) ->
  in_bounds p -> valid_dir d -> in_bounds (step p d) ->
  remove_wall_at (index p.1 p.2) d st = Ok st1 ->
  remove_wall_at (index (step p d).1 (step p d).2) (opposite d) st1 = Ok st2 ->
  mark_visited (index (step p d).1 (step p d).2) (step p d) st2 = Ok st3 ->
  Forall2 cell_evolves (maze (this st)) (maze (this st3)).
Proof.
  intros Hwf Hp Hd Hn E1 E2 E3.
  pose proof (remove_wall_at_effect st p d st1 Hp Hwf Hd E1) as (Hwf1 & _).
  pose proof (remove_wall_at_effect st1 (step p d) (opposite d) st2 Hn Hwf1
                (opposite_valid d Hd) E2) as (Hwf2 & _).
  eapply evolves_trans; [|eapply evolves_trans].
  - apply (remove_wall_at_evolves st p d st1); assumption.
  - apply (remove_wall_at_evolves st1 (step p d) (opposite d) st2);
      [assumption | assumption | apply opposite_valid; assumption | assumption].
  - apply (mark_visited_evolves st2 (step p d) st3); assumption.
Qed.

Lemma generate_maze_evolves (fuel : nat) (x y : Z) (st st' : Run) :
  in_bounds (x, y) -> well_formed (maze (this st)) ->
  generate_maze fuel x y st = Ok st' ->
  Forall2 cell_evolves (maze (this st)) (maze (this st')).
Proof.
  intros Hxy Hwf Hrun.
  destruct (mark_origin st x y Hxy Hwf) as (st1 & Hmark & _).
  pose proof (mark_visited_evolves st (x, y) st1 Hxy Hwf Hmark) as H1.
  destruct (generate_returned
              (fun s => Forall2 cell_evolves (maze (this st)) (maze (this s))))
    with (fuel := fuel) (x := x) (y := y) (st := st) (st1 := st1) (st' := st')
    as [H _]; try assumption.
  - intros s g Hs. exact Hs.
  - intros s p d s1 s2 s3 Hw Hs Hp Hd Hnb _ _ E1 E2 E3.
    eapply evolves_trans; [exact Hs|].
    apply (carve_evolves s p d s1 s2 s3); assumption.
Qed.

(** X9: [generate_maze] changes nothing but flags, and each flag in one
    direction only.  Whenever a call with an origin inside the grid
    returns, the vector has the cells it had, in the same order; each
    cell keeps its coordinates and the end points of its four
    segments; a cell that was visited is visited, and a wall that had
    been removed is not put back. *)
Theorem generate_maze_frame (fuel : nat) (x y : Z) (st st' : Run) :
  in_bounds (x, y) -> well_formed (maze (this st)) ->
  generate_maze fuel x y st = Ok st' ->
  length (maze (this st')) = length (maze (this st)) /\
  forall i c, maze (this st) !! i = Some c ->
    exists c', maze (this st') !! i = Some c' /\ cell_evolves c c'.
Proof.
  intros Hxy Hwf Hrun.
  pose proof (generate_maze_evolves fuel x y st st' Hxy Hwf Hrun) as Hev.
  split.
  - symmetry. eapply Forall2_length. exact Hev.
  - intros i c Hc. eapply Forall2_lookup_l; eassumption.
Qed.

(** ** The walls that [draw] shows *)

Lemma lines_of_app a b : lines_of (a ++ b) = lines_of a ++ lines_of b.
Proof. unfold lines_of. apply flat_map_app. Qed.

Lemma length_lines_draw_cell c : length (lines_of (draw_cell c)) = standing c.
Proof.
  destruct c as [cx cy cv [[? ? ? ? e0] [? ? ? ? e1] [? ? ? ? e2] [? ? ? ? e3]]].
  destruct e0, e1, e2, e3; reflexivity.
Qed.

Lemma length_lines_draw m : length (lines_of (draw m)) = wall_count (maze m).
Proof.
  unfold draw, wall_count. cbn [lines_of flat_map app].
  induction (maze m) as [|c l IH]; [reflexivity|].
  cbn [flat_map sum_list_with]. fold (lines_of (draw_cell c ++ flat_map draw_cell l)).
  rewrite lines_of_app, length_app, length_lines_draw_cell.
  unfold lines_of at 1. rewrite IH. reflexivity.
Qed.

Lemma remove_wall_standing c d c' :
  valid_dir d -> Cell.remove_wall c d = Ok c' ->
  match array4_get (Cell.segments c) d with
  | Ok s => Segment.exist s = true
  | _ => False
  end ->
  S (standing c') = standing c.
Proof.
  intros Hd Hrm Hex. unfold Cell.remove_wall in Hrm.
  destruct c as [cx cy cv [[? ? ? ? e0] [? ? ? ? e1] [? ? ? ? e2] [? ? ? ? e3]]].
  dir_cases d Hd; simpl in Hrm, Hex; injection Hrm as <-; subst;
    unfold standing; simpl; lia.
Qed.

Lemma remove_wall_at_walls st p d st1 :
  in_bounds p -> well_formed (maze (this st)) -> valid_dir d ->
  remove_wall_at (index p.1 p.2) d st = Ok st1 ->
  removed_at (maze (this st)) p d = false ->
  S (wall_count (maze (this st1))) = wall_count (maze (this st)).
Proof.
  intros Hp Hwf Hd H Hr.
  destruct (remove_wall_at_Ok st p d Hp Hwf Hd) as (c & c' & Hc & Hc' & E).
  rewrite E in H. injection H as <-. simpl.
  unfold wall_count.
  pose proof (sum_list_with_insert standing _ _ _ c' Hc) as Hs.
  rewrite <- (remove_wall_standing c d c' Hd Hc') in Hs.
  - lia.
  - unfold removed_at in Hr. rewrite Hc in Hr.
    destruct (array4_get _ _) as [s| |] eqn:Es.
    + destruct (Segment.exist s); [reflexivity | discriminate].
    + dir_cases d Hd; discriminate.
    + dir_cases d Hd; discriminate.
Qed.

Lemma mark_visited_walls st p st1 :
  in_bounds p -> well_formed (maze (this st)) ->
  mark_visited (index p.1 p.2) p st = Ok st1 ->
  wall_count (maze (this st1)) = wall_count (maze (this st)).
Proof.
  intros Hp Hwf E. destruct (mark_visited_Ok st p Hp Hwf) as (c & Hc & E').
  rewrite E' in E. injection E as <-. cbn [this maze]. unfold wall_count.
  pose proof (sum_list_with_insert standing _ _ _ (Cell.set_visited c true) Hc) as Hs.
  change (standing (Cell.set_visited c true)) with (standing c) in Hs. lia.
Qed.

Lemma all_walls_present_count cells :
  all_walls_present cells -> wall_count cells = (4 * length cells)%nat.
Proof.
  unfold wall_count. induction cells as [|a l IH]; intros H; simpl; [reflexivity|].
  unfold standing at 1. simpl.
  rewrite (H a 0%nat eq_refl NORTH (a0 (Cell.segments a)) eq_refl).
  rewrite (H a 0%nat eq_refl SOUTH (a1 (Cell.segments a)) eq_refl).
  rewrite (H a 0%nat eq_refl WEST (a2 (Cell.segments a)) eq_refl).
  rewrite (H a 0%nat eq_refl EAST (a3 (Cell.segments a)) eq_refl).
  rewrite IH; [lia|]. intros c i Hc. apply (H c (S i)). assumption.
Qed.

Lemma walls_counted_carve st p d st1 st2 st3 :
  well_formed (maze (this st)) -> tree_ok st -> walls_counted st ->
  in_bounds p -> valid_dir d -> in_bounds (step p d) ->
  visited_at (maze (this st)) (step p d) = false ->
  remove_wall_at (index p.1 p.2) d st = Ok st1 ->
  remove_wall_at (index (step p d).1 (step p d).2) (opposite d) st1 = Ok st2 ->
  mark_visited (index (step p d).1 (step p d).2) (step p d) st2 = Ok st3 ->
  walls_counted st3.
Proof.
  intros Hwf (Hok & Hrv & _) Hcnt Hp Hd Hnb Hvn E1 E2 E3.
  pose proof (carve_effect _ _ _ _ _ _ Hwf Hp Hd Hnb E1 E2 E3)
    as (Hwf3 & _ & _ & _ & Hn).
  assert (Hod : valid_dir (opposite d)) by (apply opposite_valid; assumption).
  assert (F1 : forall d', valid_dir d' ->
            removed_at (maze (this st)) (step p d) d' = false).
  { intros d' Hd'. destruct (removed_at _ (step p d) d') eqn:Er; [|reflexivity].
    rewrite (Hrv (step p d) d' Hnb Hd' Er) in Hvn. discriminate. }
  assert (F2 : removed_at (maze (this st)) p d = false).
  { destruct Hok as [Hsym _]. rewrite Hsym by assumption. apply F1. assumption. }
  assert (F3 : step p d <> p) by (apply step_neq; assumption).
  pose proof (remove_wall_at_effect _ _ _ _ Hp Hwf Hd E1)
    as (Hwf1 & _ & _ & _ & Hr1 & _).
  pose proof (remove_wall_at_effect _ _ _ _ Hnb Hwf1 Hod E2)
    as (Hwf2 & _ & _ & _ & _ & _).
  pose proof (remove_wall_at_walls _ _ _ _ Hp Hwf Hd E1 F2) as Hw1.
  assert (Hr1' : removed_at (maze (this st1)) (step p d) (opposite d) = false).
  { rewrite Hr1 by assumption. rewrite decide_False by ptauto.
    apply F1. assumption. }
  pose proof (remove_wall_at_walls _ _ _ _ Hnb Hwf1 Hod E2 Hr1') as Hw2.
  pose proof (mark_visited_walls _ _ _ Hnb Hwf2 E3) as Hw3.
  unfold walls_counted in *. rewrite Hvn in Hn.
  unfold well_formed in Hwf, Hwf3. lia.
Qed.

Lemma generate_maze_invariants fuel x y st st' :
  in_bounds (x, y) -> well_formed (maze (this st)) ->
  all_walls_present (maze (this st)) -> all_unvisited (maze (this st)) ->
  generate_maze fuel x y st = Ok st' ->
  well_formed (maze (this st')) /\ tree_ok st' /\ walls_counted st' /\
  forall q, in_bounds q -> visited_at (maze (this st')) q = true.
Proof.
  intros Hxy Hwf Hall Hunv Hrun.
  destruct (mark_origin st x y Hxy Hwf)
    as (st1 & Hmark & Hwf1 & _ & Hv1 & _ & Hn1 & _).
  rewrite all_unvisited_visited_at in Hn1 by assumption.
  rewrite (all_unvisited_count (maze (this st))) in Hn1 by assumption.
  pose proof (mark_visited_walls st (x, y) st1 Hxy Hwf Hmark) as Hw1.
  rewrite (all_walls_present_count (maze (this st))) in Hw1 by assumption.
  destruct (generate_returned
              (fun s => well_formed (maze (this s)) /\ tree_ok s /\ walls_counted s))
    with (fuel := fuel) (x := x) (y := y) (st := st) (st1 := st1) (st' := st')
    as [(Hwf' & Htree & Hcnt) Hex]; try assumption.
  - intros s g (Hw & Ht & Hc). split; [assumption|].
    split; [apply tree_ok_rng; assumption | exact Hc].
  - intros s p d s1 s2 s3 Hw (_ & Ht & Hc) Hp Hd Hnb Hvp Hvn E1 E2 E3.
    split; [|split].
    + apply (carve_effect s p d s1 s2 s3); assumption.
    + apply (tree_ok_carve s p d s1 s2 s3); assumption.
    + apply (walls_counted_carve s p d s1 s2 s3); assumption.
  - split; [assumption|]. split.
    + apply (tree_ok_initial st x y st1); assumption.
    + unfold walls_counted. unfold well_formed in Hwf, Hwf1. lia.
  - split; [assumption|]. split; [assumption|]. split; [assumption|].
    apply (explored_all st x y st1 st' Hxy Hwf Hunv Hv1 Hex).
Qed.

Lemma generated_wall_count fuel x y st st' :
  in_bounds (x, y) -> well_formed (maze (this st)) ->
  all_walls_present (maze (this st)) -> all_unvisited (maze (this st)) ->
  generate_maze fuel x y st = Ok st' ->
  Z.of_nat (wall_count (maze (this st'))) = 2 * COLS * ROWS + 2.
Proof.
  intros Hxy Hwf Hall Hunv Hrun.
  destruct (generate_maze_invariants fuel x y st st' Hxy Hwf Hall Hunv Hrun)
    as (Hwf' & _ & Hcnt & Hvis).
  unfold walls_counted in Hcnt. rewrite Hcnt.
  rewrite all_visited_count by (apply all_visited_cells; assumption).
  unfold well_formed in Hwf'. lia.
Qed.

(** X10: [Maze::draw] issues one line for each wall that stands.  On a
    grid that [generate_maze] has carved out of one with every wall
    standing and no cell visited, these are [2 * COLS * ROWS + 2]
    lines: of the four walls of each cell, two are down for every cell
    but the origin. *)
Theorem draw_generated_line_count (fuel : nat) (x y : Z) (st st' : Run) :
  in_bounds (x, y) -> well_formed (maze (this st)) ->
  all_walls_present (maze (this st)) -> all_unvisited (maze (this st)) ->
  generate_maze fuel x y st = Ok st' ->
  Z.of_nat (length (lines_of (draw (this st')))) = 2 * COLS * ROWS + 2.
Proof.
  intros Hxy Hwf Hall Hunv Hrun. rewrite length_lines_draw.
  apply (generated_wall_count fuel x y st st'); assumption.
Qed.

(** ** A second call of the generator *)

Lemma vec_get_cell cells p :
  in_bounds p -> well_formed cells ->
  exists c, cells !! Z.to_nat (index p.1 p.2) = Some c /\
            vec_get cells (index p.1 p.2) = Ok c.
Proof.
  intros Hp Hwf. destruct (cell_lookup cells p Hp Hwf) as [c Hc].
  exists c. split; [assumption|]. apply vec_get_Ok.
  split; [|assumption]. unfold well_formed in Hwf. rewrite Hwf.
  apply index_range. assumption.
Qed.

Lemma visit_dirs_all_visited rec x y ds st :
  well_formed (maze (this st)) ->
  (forall c, c ∈ maze (this st) -> Cell.visited c = true) ->
  foldM (visit_dir rec x y) ds st = Ok st.
Proof.
  intros Hwf Hall. induction ds as [|d ds IH]; [reflexivity|].
  cbn [foldM]. unfold visit_dir at 1.
  destruct (in_grid (step_x x d) (step_y y d)) eqn:Eg; [|exact IH].
  apply in_grid_spec in Eg.
  destruct (vec_get_cell (maze (this st)) _ Eg Hwf) as (c & Hc & Hget).
  cbn [fst snd] in Hget. unfold index in Hget. rewrite Hget. cbn [bind].
  rewrite (Hall c) by (eapply list_elem_of_lookup_2; eassumption).
  exact IH.
Qed.

(** X11: on a grid whose cells are all visited, as [generate_maze]
    leaves it, a further call of [generate_maze] at any cell of the
    grid returns at once (one level of recursion) and leaves every
    cell as it was: no wall is removed.  Only the generator advances,
    by the one shuffle of the four directions. *)
Theorem generate_maze_finished (fuel : nat) (x y : Z) (st : Run) :
  in_bounds (x, y) -> well_formed (maze (this st)) ->
  (forall c, c ∈ maze (this st) -> Cell.visited c = true) ->
  generate_maze (S fuel) x y st =
  Ok (mkRun (mkMaze (maze (this st))
                    (shuffle (rng (this st)) [NORTH; SOUTH; WEST; EAST]).2)
            (marks st ++ [(x, y)])).
Proof.
  intros Hxy Hwf Hall.
  destruct (mark_visited_Ok st (x, y) Hxy Hwf) as (c & Hc & E).
  cbn [fst snd] in E, Hc.
  assert (Hsame : Cell.set_visited c true = c).
  { pose proof (Hall c (list_elem_of_lookup_2 _ _ _ Hc)) as Hv.
    destruct c as [cx cy cv segs]. cbn in Hv. subst cv. reflexivity. }
  rewrite Hsame, list_insert_id in E by assumption.
  cbn [generate_maze]. unfold index in E. rewrite E. cbn [bind this maze rng marks].
  destruct (shuffle (rng (this st)) [NORTH; SOUTH; WEST; EAST]) as [ds g].
  cbn [snd]. apply visit_dirs_all_visited; assumption.
Qed.

(** ** The picture of a generated maze *)

Lemma elem_of_lines_draw m l :
  l ∈ lines_of (draw m) <->
  exists i c s, maze m !! i = Some c /\ s ∈ array4_list (Cell.segments c) /\
                Segment.exist s = true /\ line_of s = l.
Proof.
  unfold draw. cbn [lines_of flat_map app]. fold (lines_of (flat_map draw_cell (maze m))).
  unfold lines_of. rewrite list_elem_of_In, in_flat_map. split.
  - intros (cmd & Hcmd & Hl). apply in_flat_map in Hcmd as (c & Hc & Hcmd).
    unfold draw_cell in Hcmd. apply in_flat_map in Hcmd as (s & Hs & Hcmd).
    apply list_elem_of_In, list_elem_of_lookup in Hc as [i Hi].
    exists i, c, s. split; [assumption|]. split; [apply list_elem_of_In; assumption|].
    unfold draw_segment in Hcmd. destruct (Segment.exist s); [|destruct Hcmd].
    destruct Hcmd as [<- | []]. destruct Hl as [<- | []]. split; reflexivity.
  - intros (i & c & s & Hi & Hs & He & <-).
    exists (RenderDrawLine (Segment.sx s) (Segment.sy s) (Segment.ex s) (Segment.ey s)).
    split; [|left; reflexivity].
    apply in_flat_map. exists c. split.
    + apply list_elem_of_In. eapply list_elem_of_lookup_2. eassumption.
    + unfold draw_cell. apply in_flat_map. exists s.
      split; [apply list_elem_of_In; assumption|].
      unfold draw_segment. rewrite He. left. reflexivity.
Qed.

Lemma elem_of_array4_list {A : Type} (a : array4 A) (s : A) :
  s ∈ array4_list a <-> exists k, valid_dir k /\ array4_get a k = Ok s.
Proof.
  unfold array4_list. split.
  - intros H. repeat (apply elem_of_cons in H as [-> | H]).
    + exists 0. split; [unfold valid_dir; lia | reflexivity].
    + exists 1. split; [unfold valid_dir; lia | reflexivity].
    + exists 2. split; [unfold valid_dir; lia | reflexivity].
    + exists 3. split; [unfold valid_dir; lia | reflexivity].
    + apply elem_of_nil in H. destruct H.
  - intros (k & Hk & E).
    dir_cases k Hk; injection E as <-; repeat constructor.
Qed.

Lemma wall_line_inj p d q k :
  valid_dir d -> valid_dir k -> wall_line q k = wall_line p d ->
  (q = p /\ k = d) \/ (q = step p d /\ k = opposite d).
Proof.
  intros Hd Hk. destruct p as [x y], q as [x' y'].
  dir_cases d Hd; dir_cases k Hk;
    rewrite ?step_NORTH, ?step_SOUTH, ?step_WEST, ?step_EAST;
    unfold wall_line, line_of, opposite, NORTH, SOUTH, WEST, EAST, CELL_SIZE;
    simpl; intros [= E1 E2 E3 E4]; unfold CELL_SIZE in *;
    first [ left; split; [f_equal; lia | reflexivity]
          | right; split; [f_equal; lia | reflexivity]
          | exfalso; lia ].
Qed.

Lemma wall_line_segment p k s :
  array4_get (Cell.segments (Cell.new p.1 p.2)) k = Ok s -> wall_line p k = line_of s.
Proof. intros E. unfold wall_line. rewrite E. reflexivity. Qed.

Lemma evolves_segment c c' k s' :
  cell_evolves c c' -> array4_get (Cell.segments c') k = Ok s' ->
  exists s, array4_get (Cell.segments c) k = Ok s /\ line_of s' = line_of s.
Proof.
  intros (_ & _ & _ & [E0 _] & [E1 _] & [E2 _] & [E3 _]).
  unfold array4_get.
  destruct (k =? 0); [intros [= <-]; eauto|].
  destruct (k =? 1); [intros [= <-]; eauto|].
  destruct (k =? 2); [intros [= <-]; eauto|].
  destruct (k =? 3); [intros [= <-]; eauto|].
  discriminate.
Qed.

(** The cells of a maze that was generated from [Maze()] lie where the
    constructor put them. *)
Lemma generated_cell fuel x y g st' q :
  in_bounds (x, y) ->
  generate_maze fuel x y (mkRun (Maze_new g) []) = Ok st' ->
  in_bounds q ->
  exists c, maze (this st') !! Z.to_nat (index q.1 q.2) = Some c /\
            Cell.x c = q.1 /\ Cell.y c = q.2 /\
            forall k s, array4_get (Cell.segments c) k = Ok s ->
                        line_of s = wall_line q k.
Proof.
  intros Hxy Hrun Hq.
  pose proof (generate_maze_evolves fuel x y (mkRun (Maze_new g) []) st' Hxy
                (Maze_new_well_formed g) Hrun) as Hev.
  cbn [this] in Hev.
  destruct (Forall2_lookup_l _ _ _ _ _ Hev (Maze_new_lookup g q Hq))
    as (c & Hc & Hcc).
  exists c. split; [assumption|].
  pose proof Hcc as (Hx & Hy & _). split; [exact Hx|]. split; [exact Hy|].
  intros k s Hs. destruct (evolves_segment _ _ _ _ Hcc Hs) as (s0 & Hs0 & E).
  rewrite E. symmetry. apply wall_line_segment. assumption.
Qed.

Lemma drawn_wall_iff (fuel : nat) (x y : Z) (g : RNG) (st' : Run)
        (p : Z * Z) (d : Z) :
  in_bounds (x, y) ->
  generate_maze fuel x y (mkRun (Maze_new g) []) = Ok st' ->
  in_bounds p -> valid_dir d ->
  (wall_line p d ∈ lines_of (draw (this st')) <-> ~ walkable (this st') p d).
Proof.
  clear cells_fit_int.
  intros Hxy Hrun Hp Hd.
  destruct (generate_maze_walls fuel x y (mkRun (Maze_new g) []) st' Hxy
              (Maze_new_well_formed g) (Maze_new_all_walls g) Hrun)
    as [Hwf' [Hsym _]].
  rewrite walkable_removed by assumption.
  rewrite elem_of_lines_draw. split.
  - intros (i & c & s & Hi & Hs & He & El) [_ Hr].
    apply elem_of_array4_list in Hs as (k & Hk & Hs).
    destruct (index_surj i) as (q & Hq & <-).
    { apply lookup_lt_Some in Hi. unfold well_formed in Hwf'. lia. }
    destruct (generated_cell fuel x y g st' q Hxy Hrun Hq) as (c' & Hc' & _ & _ & Hl).
    rewrite Hi in Hc'. injection Hc' as <-.
    rewrite (Hl k s Hs) in El.
    assert (Hrq : removed_at (maze (this st')) q k = false).
    { unfold removed_at. rewrite Hi, Hs, He. reflexivity. }
    destruct (wall_line_inj p d q k Hd Hk El) as [[-> ->] | [-> ->]].
    + congruence.
    + rewrite (Hsym p d) in Hr by assumption. congruence.
  - intros Hnot.
    destruct (generated_cell fuel x y g st' p Hxy Hrun Hp) as (c & Hc & _ & _ & Hl).
    assert (Hs : exists s, array4_get (Cell.segments c) d = Ok s).
    { dir_cases d Hd; eexists; reflexivity. }
    destruct Hs as [s Hs]. exists (Z.to_nat (index p.1 p.2)), c, s.
    split; [assumption|].
    split; [apply elem_of_array4_list; exists d; split; assumption|].
    split; [|apply Hl; assumption].
    destruct (Segment.exist s) eqn:He; [reflexivity|].
    exfalso. apply Hnot. split; [assumption|].
    unfold removed_at. rewrite Hc, Hs, He. reflexivity.
Qed.

(** X12: the picture of a generated maze shows exactly its walls.  In
    the grid that [generate_maze] leaves when started on a newly
    constructed [Maze], every line that [draw] draws is the line of a
    wall of a cell of the grid (the line on which the constructor put
    that segment) that [is_walkable] does not let the path finder
    through; and the line of a wall is drawn if and only if
    [is_walkable] is false for it: no line is drawn across a passage,
    although each inner wall is stored twice. *)
Theorem draw_shows_walls (fuel : nat) (x y : Z) (g : RNG) (st' : Run) :
  in_bounds (x, y) ->
  generate_maze fuel x y (mkRun (Maze_new g) []) = Ok st' ->
  (forall l, l ∈ lines_of (draw (this st')) ->
     exists p d, in_bounds p /\ valid_dir d /\ l = wall_line p d /\
                 ~ walkable (this st') p d) /\
  (forall p d, in_bounds p -> valid_dir d ->
     (wall_line p d ∈ lines_of (draw (this st')) <-> ~ walkable (this st') p d)).
Proof.
  clear cells_fit_int.
  intros Hxy Hrun. split.
  - intros l Hl.
    destruct (generate_maze_walls fuel x y (mkRun (Maze_new g) []) st' Hxy
                (Maze_new_well_formed g) (Maze_new_all_walls g) Hrun)
      as [Hwf' _].
    apply elem_of_lines_draw in Hl as (i & c & s & Hi & Hs & He & <-).
    apply elem_of_array4_list in Hs as (k & Hk & Hs).
    destruct (index_surj i) as (q & Hq & <-).
    { apply lookup_lt_Some in Hi. unfold well_formed in Hwf'. lia. }
    destruct (generated_cell fuel x y g st' q Hxy Hrun Hq)
      as (c' & Hc' & _ & _ & Hl).
    rewrite Hi in Hc'. injection Hc' as <-.
    exists q, k. split; [assumption|]. split; [assumption|].
    split; [apply Hl; assumption|].
    rewrite walkable_removed by assumption. intros [_ Hr].
    unfold removed_at in Hr. rewrite Hi, Hs, He in Hr. discriminate.
  - intros p d Hp Hd. apply (drawn_wall_iff fuel x y g st' p d); assumption.
Qed.

(** ** Further properties of the search *)

(** X13: when the grid is a single cell the start is the goal, and
    [a_star] returns the path that consists of this cell, after one
    turn of its loop, whatever the cell's walls are. *)
Theorem a_star_single_cell (fuel : nat) (m : Maze) :
  COLS = 1 -> ROWS = 1 -> a_star (S fuel) m = Ok ([(0, 0)], m).
Proof.
  intros HC HR. unfold a_star, a_star_init, index, heuristic.
  rewrite HC, HR. cbn [bind vec_set replicate Z.to_nat Z.mul Pos.to_nat
                         Pos.iter_op Nat.add length].
  unfold vec_set. rewrite bool_decide_eq_true_2 by (simpl; lia).
  cbn [bind]. cbn [a_star_loop open_set].
  set (n0 := Node.mk 0 0 0 _).
  assert (Hq : pq_elems (pq_push n0 pq_empty) ≡ₚ [n0]).
  { rewrite pq_elems_push, pq_elems_empty. reflexivity. }
  destruct (pq_pop (pq_push n0 pq_empty)) as [[n rest]|] eqn:Epop.
  - apply pq_pop_some in Epop as [Hperm _]. rewrite Hq in Hperm.
    symmetry in Hperm. apply Permutation_singleton_r in Hperm.
    injection Hperm as -> Hrest.
    unfold n0. cbn [Node.x Node.y visited came_from g_cost index].
    unfold index. rewrite HC, HR. simpl. reflexivity.
  - apply pq_pop_none in Epop. rewrite Epop in Hq.
    apply Permutation_nil_l in Hq. discriminate.
Qed.

Lemma forward_path_cells m path :
  boundary_closed m -> forward_path m path ->
  forall q, q ∈ path -> in_bounds q.
Proof.
  intros Hcl (Hhd & _ & Hch & _) q Hq.
  apply list_elem_of_lookup in Hq as [i Hi]. destruct i as [|i].
  - rewrite head_lookup in Hhd. rewrite Hi in Hhd. injection Hhd as ->.
    apply in_bounds_start.
  - destruct (path !! i) as [u|] eqn:Hu.
    + apply (passage_in_bounds m Hcl u q). eapply Hch; eassumption.
    + apply lookup_ge_None in Hu. apply lookup_lt_Some in Hi. lia.
Qed.

Lemma NoDup_cells_length (l : list (Z * Z)) :
  NoDup l -> (forall q, q ∈ l -> in_bounds q) ->
  Z.of_nat (length l) <= COLS * ROWS.
Proof.
  intros Hnd Hin.
  assert (Hsub : (fun q : Z * Z => Z.to_nat (index q.1 q.2)) <$> l
                 ⊆+ seq 0 (Z.to_nat (COLS * ROWS))).
  { apply NoDup_submseteq.
    - apply NoDup_fmap_2_strong; [|assumption].
      intros a b Ha Hb. apply index_to_nat_inj; auto.
    - intros i Hi. apply list_elem_of_fmap in Hi as (q & -> & Hq).
      apply elem_of_seq. pose proof (index_range q (Hin q Hq)). lia. }
  apply submseteq_length in Hsub.
  rewrite length_fmap, length_seq in Hsub. lia.
Qed.

(** X14: on every grid of [COLS * ROWS] cells whose walkable steps
    stay inside the grid, generated or not, [a_star] decides whether
    the goal can be reached.  It returns, once the fuel suffices; the
    path it returns is non-empty exactly when the goal is reachable
    from the start; and a non-empty path has as many steps as a
    shortest walk from the start to the goal. *)
Theorem a_star_decides_reachability (m : Maze) :
  well_formed (maze m) -> boundary_closed m ->
  exists fuel0, forall fuel, (fuel0 <= fuel)%nat ->
    exists path,
      a_star fuel m = Ok (path, m) /\
      (path <> [] <-> reachable m start goal) /\
      (path <> [] -> shortest_distance m start goal (Nat.pred (length path))).
Proof.
  intros Hwf Hcl. destruct (a_star_total m Hwf Hcl) as (fuel0 & Hrun).
  exists fuel0. intros fuel Hfuel.
  destruct (Hrun fuel Hfuel) as (path & E & Hres).
  exists path. split; [assumption|].
  destruct Hres as [[-> Hno] | [(Hhd & _) [Hw Hmin]]].
  - split; [|intros H; contradiction].
    split; [intros H; contradiction | intros H; contradiction].
  - assert (Hne : path <> []) by (intros ->; discriminate).
    split; [|intros _; split; assumption].
    split; [intros _; eexists; eassumption | intros _; assumption].
Qed.

(** X15: the cells of a path that [a_star] returns on such a grid all
    lie on the grid, and a non-empty path has at least
    [COLS + ROWS - 1] cells (the Manhattan distance from the start to
    the goal, plus one) and at most [COLS * ROWS]. *)
Theorem a_star_path_cells (m m' : Maze) (fuel : nat) (path : list (Z * Z)) :
  well_formed (maze m) -> boundary_closed m ->
  a_star fuel m = Ok (path, m') ->
  (forall q, q ∈ path -> in_bounds q) /\
  (path <> [] ->
   COLS + ROWS - 1 <= Z.of_nat (length path) <= COLS * ROWS).
Proof.
  intros Hwf Hcl Hrun.
  destruct (a_star_returned m Hwf Hcl fuel path m' Hrun)
    as [[-> _] | [Hfp [Hw _]]].
  - split; [|intros H; contradiction].
    intros q Hq. apply elem_of_nil in Hq. destruct Hq.
  - pose proof (forward_path_cells m path Hcl Hfp) as Hin.
    split; [assumption|]. intros Hne. split.
    + pose proof (heuristic_walk m _ _ _ Hw) as Hh.
      rewrite heuristic_goal in Hh. unfold heuristic, start in Hh. simpl in Hh.
      destruct path; [contradiction|]. simpl in Hh |- *. lia.
    + destruct Hfp as (_ & _ & _ & Hnd). apply NoDup_cells_length; assumption.
Qed.

(** ** Drawing the path *)

Lemma vec_get_nat {A : Type} (l : list A) (i : nat) (a : A) :
  l !! i = Some a -> vec_get l (Z.of_nat i) = Ok a.
Proof.
  intros H. apply vec_get_Ok. pose proof (lookup_lt_Some _ _ _ H).
  split; [lia|]. rewrite Nat2Z.id. assumption.
Qed.

Lemma draw_path_loop rest : forall pre a out,
  foldM (draw_path_step (pre ++ a :: rest)) (seq (S (length pre)) (length rest)) out =
  Ok (out ++ path_cmds (a :: rest)).
Proof.
  induction rest as [|b rest IH]; intros pre a out.
  - simpl. rewrite app_nil_r. reflexivity.
  - cbn [length seq foldM]. unfold draw_path_step at 1.
    replace (Z.of_nat (S (length pre)) - 1) with (Z.of_nat (length pre)) by lia.
    rewrite (vec_get_nat _ _ a) by (apply list_lookup_middle; reflexivity).
    assert (E : pre ++ a :: b :: rest = (pre ++ [a]) ++ b :: rest)
      by (rewrite <- app_assoc; reflexivity).
    rewrite (vec_get_nat _ _ b)
      by (rewrite E; apply list_lookup_middle; rewrite length_app; simpl; lia).
    cbn [bind]. rewrite E.
    replace (S (S (length pre))) with (S (length (pre ++ [a])))
      by (rewrite length_app; simpl; lia).
    rewrite IH. rewrite <- app_assoc. reflexivity.
Qed.

Lemma lines_of_path_cmds path :
  lines_of (path_cmds path) =
  map (fun ab : (Z * Z) * (Z * Z) => centre_line ab.1 ab.2) (pairs path).
Proof.
  unfold path_cmds. induction (pairs path) as [|ab l IH]; [reflexivity|].
  cbn [flat_map map]. rewrite lines_of_app, IH. reflexivity.
Qed.

Lemma length_pairs {A : Type} (l : list A) : length (pairs l) = (length l - 1)%nat.
Proof.
  induction l as [|a [|b l] IH]; [reflexivity | reflexivity |].
  cbn [pairs length] in *. rewrite IH. lia.
Qed.

Lemma draw_path_Ok (path : list (Z * Z)) (m : Maze) :
  exists cmds,
    draw_path path m = Ok cmds /\
    cmds = [SetRenderDrawColor 0 0 0 0; RenderClear] ++ draw m ++ draw_start_end
           ++ [SetRenderDrawColor 255 0 255 255] ++ path_cmds path /\
    lines_of cmds =
      lines_of (draw m) ++
      map (fun ab : (Z * Z) * (Z * Z) => centre_line ab.1 ab.2) (pairs path) /\
    length (lines_of cmds) = (wall_count (maze m) + (length path - 1))%nat.
Proof.
  eexists. split; [|split; [reflexivity|]].
  - unfold draw_path. destruct path as [|a rest].
    + reflexivity.
    + cbn [length]. replace (S (length rest) - 1)%nat with (length rest) by lia.
      rewrite (draw_path_loop rest [] a). rewrite <- !app_assoc. reflexivity.
  - rewrite !lines_of_app.
    change (lines_of [SetRenderDrawColor 0 0 0 0; RenderClear])
      with (@nil (Z * Z * Z * Z)).
    change (lines_of draw_start_end) with (@nil (Z * Z * Z * Z)).
    change (lines_of [SetRenderDrawColor 255 0 255 255])
      with (@nil (Z * Z * Z * Z)).
    cbn [app]. rewrite lines_of_path_cmds. split; [reflexivity|].
    rewrite length_app, length_map, length_pairs, length_lines_draw. reflexivity.
Qed.

(** X16: [draw_path] never indexes the path out of range, also when
    the path is empty or has a single cell.  After clearing the
    renderer and drawing the maze and the two end marks again, it
    draws one line for each pair of consecutive cells of the path, in
    order, from the centre of the one to the centre of the other:
    [path.size() - 1] lines, and none at all, beyond the walls, for a
    path of fewer than two cells. *)
Theorem draw_path_spec (path : list (Z * Z)) (m : Maze) :
  exists cmds,
    draw_path path m = Ok cmds /\
    lines_of cmds =
      lines_of (draw m) ++
      map (fun ab : (Z * Z) * (Z * Z) => centre_line ab.1 ab.2) (pairs path) /\
    Z.of_nat (length (lines_of cmds)) =
      Z.of_nat (wall_count (maze m)) + Z.max 0 (Z.of_nat (length path) - 1) /\
    ((length path <= 1)%nat -> lines_of cmds = lines_of (draw m)).
Proof.
  clear.
  destruct (draw_path_Ok path m) as (cmds & E & _ & Hl & Hn).
  exists cmds. split; [exact E|]. split; [exact Hl|]. split.
  - rewrite Hn. lia.
  - intros Hlen. rewrite Hl.
    destruct path as [|a [|b path]]; [apply app_nil_r | apply app_nil_r |].
    simpl in Hlen. lia.
Qed.

Lemma elem_of_pairs {A : Type} (l : list A) (a b : A) :
  (a, b) ∈ pairs l <-> exists i, l !! i = Some a /\ l !! S i = Some b.
Proof.
  induction l as [|x [|y l] IH].
  - simpl. split; [intros H; apply elem_of_nil in H; destruct H|].
    intros (i & H & _). discriminate.
  - simpl. split; [intros H; apply elem_of_nil in H; destruct H|].
    intros ([|i] & _ & H); discriminate.
  - cbn [pairs]. rewrite elem_of_cons, IH. split.
    + intros [[= -> ->] | (i & Ha & Hb)].
      * exists 0%nat. split; reflexivity.
      * exists (S i). split; assumption.
    + intros ([|i] & Ha & Hb).
      * left. cbn in Ha, Hb. congruence.
      * right. exists i. split; assumption.
Qed.

Lemma centre_step a d :
  valid_dir d ->
  Z.abs ((centre (step a d)).1 - (centre a).1) +
  Z.abs ((centre (step a d)).2 - (centre a).2) = CELL_SIZE.
Proof.
  intros Hd. unfold centre, CELL_SIZE.
  dir_cases d Hd;
    rewrite ?step_NORTH, ?step_SOUTH, ?step_WEST, ?step_EAST; simpl; lia.
Qed.

Lemma centre_inside a :
  in_bounds a ->
  0 < (centre a).1 < COLS * CELL_SIZE /\ 0 < (centre a).2 < ROWS * CELL_SIZE.
Proof.
  intros [Hx Hy]. unfold centre, CELL_SIZE. simpl.
  change (5 / 2) with 2. lia.
Qed.

(** X17: the lines [draw_path] draws for a path that [a_star] returned
    follow the passages.  Each joins the centres of two cells of the
    grid that are one walkable step apart, so it is horizontal or
    vertical, [CELL_SIZE] long, and lies inside the area of the grid. *)
Theorem path_lines_follow_passages (m m' : Maze) (fuel : nat)
        (path : list (Z * Z)) (a b : Z * Z) :
  well_formed (maze m) -> boundary_closed m ->
  a_star fuel m = Ok (path, m') ->
  (a, b) ∈ pairs path ->
  (exists d, valid_dir d /\ b = step a d /\ walkable m a d) /\
  in_bounds a /\ in_bounds b /\
  Z.abs ((centre b).1 - (centre a).1) + Z.abs ((centre b).2 - (centre a).2)
    = CELL_SIZE /\
  ((centre a).1 = (centre b).1 \/ (centre a).2 = (centre b).2) /\
  0 < (centre a).1 < COLS * CELL_SIZE /\ 0 < (centre a).2 < ROWS * CELL_SIZE /\
  0 < (centre b).1 < COLS * CELL_SIZE /\ 0 < (centre b).2 < ROWS * CELL_SIZE.
Proof.
  intros Hwf Hcl Hrun Hab.
  destruct (a_star_returned m Hwf Hcl fuel path m' Hrun)
    as [[-> _] | [(_ & _ & Hch & _) _]].
  { apply elem_of_nil in Hab. destruct Hab. }
  apply elem_of_pairs in Hab as (i & Ha & Hb).
  pose proof (Hch i a b Ha Hb) as Hp.
  destruct (passage_in_bounds m Hcl a b Hp) as [Hia Hib].
  destruct Hp as (d & Hd & Hw & ->).
  split; [exists d; auto|]. split; [assumption|]. split; [assumption|].
  split; [apply centre_step; assumption|]. split.
  { unfold centre. dir_cases d Hd;
      rewrite ?step_NORTH, ?step_SOUTH, ?step_WEST, ?step_EAST; simpl; auto. }
  pose proof (centre_inside a Hia). pose proof (centre_inside _ Hib). ptauto.
Qed.

(** ** The program from end to end *)

(** X18: [main] always finds a path.  For every state of the random
    number generator and every shuffle, [main] returns once the fuel
    suffices: [generate_maze (0, 0)] carves the new maze, [a_star]
    returns a path on it that is not empty, leads from the start to
    the goal through passages open in both directions, visits no cell
    twice and is a shortest one; and the final picture has the
    [2 * COLS * ROWS + 2] walls of the maze and one line for each step
    of the path, none of them through a wall that is drawn. *)
Theorem main_shows_shortest_path (g : RNG) :
  exists fuel0, forall fuel, (fuel0 <= fuel)%nat ->
    exists st path final,
      generate_maze fuel 0 0 (mkRun (Maze_new g) []) = Ok st /\
      main fuel g = Ok (draw (this st) ++ draw_start_end, path, final) /\
      valid_path (this st) path /\
      shortest_distance (this st) start goal (Nat.pred (length path)) /\
      Z.of_nat (length (lines_of final)) =
        2 * COLS * ROWS + 2 + (Z.of_nat (length path) - 1) /\
      forall a b, (a, b) ∈ pairs path ->
        centre_line a b ∈ lines_of final /\
        exists d, valid_dir d /\ b = step a d /\
                  wall_line a d ∉ lines_of (draw (this st)).
Proof.
  set (fresh := mkRun (Maze_new g) []).
  assert (Hin : in_bounds (0, 0)) by apply in_bounds_start.
  pose proof (Maze_new_well_formed g) as Hwf0.
  destruct (generate_maze_terminates 0 0 fresh Hin Hwf0
              (S (length (maze (Maze_new g)))) ltac:(simpl; lia)) as [st Hgen].
  destruct (generate_maze_invariants _ 0 0 fresh st Hin Hwf0
              (Maze_new_all_walls g) (Maze_new_all_unvisited g) Hgen)
    as (Hwf & (Hok & _ & _ & Hconn & _) & _ & Hvis).
  pose proof (walls_ok_boundary_closed _ Hwf Hok) as Hcl.
  pose proof (walls_ok_wall_symmetric _ Hwf Hok) as Hsym.
  pose proof (generated_wall_count _ 0 0 fresh st Hin Hwf0
                (Maze_new_all_walls g) (Maze_new_all_unvisited g) Hgen) as Hwalls.
  destruct (a_star_total (this st) Hwf Hcl) as (fuel1 & Hrun).
  exists (Nat.max (S (length (maze (Maze_new g)))) fuel1).
  intros fuel Hfuel.
  assert (Hgen' : generate_maze fuel 0 0 fresh = Ok st).
  { eapply generate_maze_mono; [|exact Hgen]. lia. }
  destruct (Hrun fuel ltac:(lia)) as (path & Estar & Hres).
  destruct Hres as [[_ Hno] | [Hfp Hsd]].
  { exfalso. apply Hno. apply Hconn; auto using in_bounds_start, in_bounds_goal. }
  destruct (draw_path_Ok path (this st)) as (final & Edraw & _ & Hlines & Hlen).
  exists st, path, final. split; [exact Hgen'|]. split.
  { unfold main. fold fresh. rewrite Hgen'. cbn [bind]. rewrite Estar.
    cbn [bind fst snd]. rewrite Edraw. reflexivity. }
  pose proof Hfp as (Hhd & Hlast & Hch & Hnd).
  split.
  { split; [assumption|]. split; [assumption|]. split; [|assumption].
    intros i u v Hu Hv. apply passage_both_ways; try assumption.
    eapply Hch; eassumption. }
  split; [assumption|]. split.
  { rewrite Hlen. destruct path; [discriminate|]. simpl length. lia. }
  intros a b Hab. split.
  { rewrite Hlines. apply elem_of_app. right.
    apply list_elem_of_In, in_map_iff. exists (a, b).
    split; [reflexivity | apply list_elem_of_In; assumption]. }
  apply elem_of_pairs in Hab as (i & Ha & Hb).
  pose proof (Hch i a b Ha Hb) as Hp.
  destruct (passage_in_bounds _ Hcl a b Hp) as [Hia _].
  destruct Hp as (d & Hd & Hw & ->).
  exists d. split; [assumption|]. split; [reflexivity|].
  intros Hdrawn.
  apply (drawn_wall_iff _ 0 0 g st a d Hin Hgen Hia Hd) in Hdrawn.
  contradiction.
Qed.

(** ** One route between two cells *)

Lemma chain_linked m l : chain m l <-> linked m l.
Proof.
  unfold chain. induction l as [|a l IH]; [split; [constructor | intros _ i u v H; discriminate]|].
  destruct l as [|b l].
  - split; [constructor|]. intros _ [|i] u v _ H; discriminate.
  - cbn [linked]. rewrite <- IH. split.
    + intros H. split; [apply (H 0%nat); reflexivity|].
      intros i u v Hu Hv. apply (H (S i)); assumption.
    + intros [Hab H] [|i] u v Hu Hv.
      * cbn in Hu, Hv. congruence.
      * apply (H i); assumption.
Qed.

Lemma linked_app m l1 l2 :
  linked m (l1 ++ l2) <->
  linked m l1 /\ linked m l2 /\
  forall a b, last l1 = Some a -> head l2 = Some b -> passage m a b.
Proof.
  induction l1 as [|x l1 IH].
  - simpl. split; [intros H; split; [constructor|]; split; [assumption|]|].
    + intros a b H'. discriminate.
    + intros (_ & H & _). assumption.
  - destruct l1 as [|y l1].
    + destruct l2 as [|b l2]; simpl.
      * split; [intros _; split; [constructor|]; split; [constructor|]|constructor].
        intros a b _ H. discriminate.
      * split.
        -- intros [Hp Hl]. split; [constructor|]. split; [assumption|].
           intros a b' [= <-] [= <-]. assumption.
        -- intros (_ & Hl & Hp). split; [apply Hp; reflexivity | assumption].
    + change ((x :: y :: l1) ++ l2) with (x :: (y :: l1 ++ l2)).
      cbn [linked]. change (y :: l1 ++ l2) with ((y :: l1) ++ l2).
      rewrite IH. cbn [linked].
      change (last (x :: y :: l1)) with (last (y :: l1)).
      ptauto.
Qed.

Lemma linked_reverse m l :
  (forall a b, passage m a b -> passage m b a) ->
  linked m l -> linked m (reverse l).
Proof.
  intros Hsym. induction l as [|a l IH]; [constructor|].
  intros Hl. rewrite reverse_cons. apply linked_app.
  split; [|split; [constructor|]].
  - apply IH. destruct l; [constructor | apply Hl].
  - intros b a' Hb [= <-]. rewrite last_reverse in Hb.
    destruct l as [|b' l]; [discriminate|]. injection Hb as ->.
    apply Hsym. apply Hl.
Qed.

Lemma first_common (r1 r2 : list (Z * Z)) :
  (exists x, x ∈ r1 /\ x ∈ r2) ->
  exists p1 w s1, r1 = p1 ++ w :: s1 /\ w ∈ r2 /\ forall x, x ∈ p1 -> x ∉ r2.
Proof.
  induction r1 as [|a r1 IH]; intros (x & Hx1 & Hx2).
  - apply elem_of_nil in Hx1. destruct Hx1.
  - destruct (decide (a ∈ r2)) as [Ha | Ha].
    + exists [], a, r1. split; [reflexivity|]. split; [assumption|].
      intros y Hy. apply elem_of_nil in Hy. destruct Hy.
    + apply elem_of_cons in Hx1 as [-> | Hx1]; [contradiction|].
      destruct IH as (p1 & w & s1 & -> & Hw & Hp); [eauto|].
      exists (a :: p1), w, s1. split; [reflexivity|]. split; [assumption|].
      intros y Hy. apply elem_of_cons in Hy as [-> | Hy]; [assumption | auto].
Qed.

Lemma last_elem_of {A : Type} (l : list A) (x : A) : last l = Some x -> x ∈ l.
Proof.
  intros H. rewrite last_lookup in H. eapply list_elem_of_lookup_2. eassumption.
Qed.

(** Two routes that part at [u] and meet again close a cycle. *)
Lemma fork_cycle m u a1 r1 b1 r2 v :
  (forall a b, passage m a b -> passage m b a) ->
  a1 <> b1 ->
  linked m (u :: a1 :: r1) -> NoDup (u :: a1 :: r1) -> last (a1 :: r1) = Some v ->
  linked m (u :: b1 :: r2) -> NoDup (u :: b1 :: r2) -> last (b1 :: r2) = Some v ->
  exists l, cycle m l.
Proof.
  intros Hsym Hne L1 N1 E1 L2 N2 E2.
  destruct (first_common (a1 :: r1) (b1 :: r2)) as (p1 & w & s1 & Er1 & Hw & Hp1).
  { exists v. split; apply last_elem_of; assumption. }
  apply list_elem_of_split in Hw as (p2 & s2 & Er2).
  exists (u :: p1 ++ w :: reverse p2).
  rewrite Er1 in L1, N1. rewrite Er2 in L2, N2, Hp1.
  apply NoDup_cons in N1 as [Hu1 N1]. apply NoDup_cons in N2 as [Hu2 N2].
  apply NoDup_app in N1 as (Np1 & Hd1 & N1). apply NoDup_cons in N1 as [_ _].
  apply NoDup_app in N2 as (Np2 & Hd2 & N2). apply NoDup_cons in N2 as [_ _].
  rewrite elem_of_app, elem_of_cons in Hu1, Hu2.
  assert (Hhead2 : head (p2 ++ [w]) = Some b1).
  { destruct p2 as [|b p2]; simpl in Er2 |- *; congruence. }
  split; [|split; [|split]].
  - destruct p1 as [|x p1], p2 as [|y p2].
    + simpl in Er1, Er2. congruence.
    + simpl. rewrite reverse_cons, length_app. simpl. lia.
    + simpl. rewrite length_app. simpl. lia.
    + simpl. rewrite length_app. simpl. lia.
  - apply NoDup_cons. split.
    + rewrite elem_of_app, elem_of_cons, elem_of_reverse. ptauto.
    + apply NoDup_app. split; [assumption|]. split.
      * intros x Hx Hx'. apply elem_of_cons in Hx' as [-> | Hx'].
        -- apply (Hd1 w Hx). left.
        -- rewrite elem_of_reverse in Hx'. apply (Hp1 x Hx).
           apply elem_of_app. left. assumption.
      * apply NoDup_cons. split.
        -- rewrite elem_of_reverse. intros Hx. apply (Hd2 w Hx). left.
        -- rewrite reverse_Permutation. assumption.
  - apply chain_linked.
    change (u :: p1 ++ w :: reverse p2) with ((u :: p1) ++ w :: reverse p2).
    change (u :: p1 ++ w :: s1) with ((u :: p1) ++ w :: s1) in L1.
    apply linked_app in L1 as (La & _ & Hlink).
    apply linked_app. split; [assumption|]. split; [|exact Hlink].
    change (u :: p2 ++ w :: s2) with ([u] ++ p2 ++ w :: s2) in L2.
    apply linked_app in L2 as (_ & L2 & _).
    rewrite (cons_middle w p2 s2), app_assoc in L2.
    apply linked_app in L2 as (L2 & _).
    apply (linked_reverse m _ Hsym) in L2.
    rewrite reverse_snoc in L2. exact L2.
  - exists u, b1. split; [reflexivity|]. split.
    + replace (u :: p1 ++ w :: reverse p2) with ((u :: p1) ++ reverse (p2 ++ [w]))
        by (rewrite reverse_snoc; reflexivity).
      rewrite last_app, last_reverse, Hhead2. reflexivity.
    + apply Hsym. rewrite <- Er2 in L2. apply L2.
Qed.

(** Without cycles, and with passages open in both directions, two
    cells are joined by at most one path that repeats no cell. *)
Lemma simple_path_unique m :
  (forall a b, passage m a b -> passage m b a) -> acyclic m ->
  forall l1 l2 u v, simple_path m u v l1 -> simple_path m u v l2 -> l1 = l2.
Proof.
  intros Hsym Hacyc. induction l1 as [|a r1 IH]; intros l2 u v H1 H2.
  { destruct H1 as [H _]. discriminate. }
  destruct H1 as (Hh1 & E1 & L1 & N1), H2 as (Hh2 & E2 & L2 & N2).
  destruct l2 as [|a' r2]; [discriminate|].
  cbn in Hh1, Hh2. injection Hh1 as ->. injection Hh2 as ->.
  apply chain_linked in L1, L2.
  destruct r1 as [|a1 r1], r2 as [|b1 r2].
  - reflexivity.
  - exfalso. cbn in E1. injection E1 as <-.
    apply NoDup_cons in N2 as [Hu _]. apply Hu.
    apply last_elem_of. exact E2.
  - exfalso. cbn in E2. injection E2 as <-.
    apply NoDup_cons in N1 as [Hu _]. apply Hu.
    apply last_elem_of. exact E1.
  - destruct (decide (a1 = b1)) as [-> | Hne].
    + f_equal. apply (IH (b1 :: r2) b1 v).
      * split; [reflexivity|]. split; [exact E1|].
        split; [apply chain_linked; apply L1|].
        apply NoDup_cons in N1 as [_ N1]. exact N1.
      * split; [reflexivity|]. split; [exact E2|].
        split; [apply chain_linked; apply L2|].
        apply NoDup_cons in N2 as [_ N2]. exact N2.
    + exfalso.
      destruct (fork_cycle m u a1 r1 b1 r2 v Hsym Hne L1 N1 E1 L2 N2 E2)
        as [l Hl].
      exact (Hacyc l Hl).
Qed.

(** X19: a generated maze is perfect.  In the grid that
    [generate_maze] carves out of one with every wall standing and no
    cell visited, every cell can be reached from every other, and two
    cells are joined by one path only that repeats no cell: any two
    such paths between the same cells are equal. *)
Theorem generated_maze_unique_path (fuel : nat) (x y : Z) (st st' : Run)
        (u v : Z * Z) (l1 l2 : list (Z * Z)) :
  in_bounds (x, y) -> well_formed (maze (this st)) ->
  all_walls_present (maze (this st)) -> all_unvisited (maze (this st)) ->
  generate_maze fuel x y st = Ok st' ->
  (in_bounds u -> in_bounds v -> reachable (this st') u v) /\
  (simple_path (this st') u v l1 -> simple_path (this st') u v l2 -> l1 = l2).
Proof.
  intros Hxy Hwf Hall Hunv Hrun.
  destruct (generate_maze_invariants fuel x y st st' Hxy Hwf Hall Hunv Hrun)
    as (Hwf' & (Hok & _ & _ & Hconn & Hacyc) & _ & Hvis).
  split; [intros Hu Hv; apply Hconn; auto|].
  apply simple_path_unique; [|assumption].
  apply passage_sym.
  - apply walls_ok_boundary_closed; assumption.
  - apply walls_ok_wall_symmetric; assumption.
Qed.

(** X20: on a generated maze the path that [a_star] returns is the
    route from the start to the goal: it is a path from the start to
    the goal through passages that repeats no cell, and every such
    path is equal to it. *)
Theorem a_star_returns_the_only_path (fuel fuel' : nat) (x y : Z)
        (st st' : Run) (path : list (Z * Z)) (m' : Maze) :
  in_bounds (x, y) -> well_formed (maze (this st)) ->
  all_walls_present (maze (this st)) -> all_unvisited (maze (this st)) ->
  generate_maze fuel x y st = Ok st' ->
  a_star fuel' (this st') = Ok (path, m') ->
  simple_path (this st') start goal path /\
  forall l, simple_path (this st') start goal l -> l = path.
Proof.
  intros Hxy Hwf Hall Hunv Hrun Hstar.
  destruct (generate_maze_invariants fuel x y st st' Hxy Hwf Hall Hunv Hrun)
    as (Hwf' & (Hok & _ & _ & Hconn & Hacyc) & _ & Hvis).
  pose proof (walls_ok_boundary_closed _ Hwf' Hok) as Hcl.
  pose proof (walls_ok_wall_symmetric _ Hwf' Hok) as Hsym.
  destruct (a_star_returned (this st') Hwf' Hcl fuel' path m' Hstar)
    as [[_ Hno] | [Hfp _]].
  { exfalso. apply Hno. apply Hconn; auto using in_bounds_start, in_bounds_goal. }
  split; [exact Hfp|]. intros l Hl.
  apply (simple_path_unique (this st') (passage_sym _ Hcl Hsym) Hacyc l path
           start goal Hl Hfp).
Qed.

End Program.

Arguments mkMaze {RNG} maze rng.
Arguments maze {RNG} m.
Arguments rng {RNG} m.
Arguments mkRun {RNG} this marks.
Arguments this {RNG} r.
Arguments marks {RNG} r.
Arguments Maze_new COLS ROWS {RNG} g.
Arguments generate_maze COLS ROWS {RNG} shuffle fuel x y st.
Arguments is_walkable COLS ROWS {RNG} x y direction m.
Arguments a_star COLS ROWS {RNG PQ} pq_empty pq_push pq_pop fuel m.
Arguments walkable COLS ROWS {RNG} m p d.
Arguments passage COLS ROWS {RNG} m u v.
Arguments walk COLS ROWS {RNG} m _ _ _.
Arguments reachable COLS ROWS {RNG} m u v.
Arguments shortest_distance COLS ROWS {RNG} m u v n.
Arguments wall_symmetric COLS ROWS {RNG} m.
Arguments boundary_closed COLS ROWS {RNG} m.
Arguments connected COLS ROWS {RNG} m.
Arguments acyclic COLS ROWS {RNG} m.
Arguments carved COLS ROWS {RNG} shuffle m.
Arguments valid_path COLS ROWS {RNG} m path.
Arguments both_ways COLS ROWS {RNG} m u v.

(** ** The instances meet the assumptions *)

Lemma shuffle_rot_perm (g : nat) (l : list Z) : (shuffle_rot g l).1 ≡ₚ l.
Proof.
  unfold shuffle_rot, rotate. cbn [fst].
  rewrite Permutation_app_comm. rewrite take_drop. reflexivity.
Qed.

Lemma list_pq_pop_none (q : list Node.t) : list_pq_pop q = None <-> q = [].
Proof.
  destruct q as [|n q]; simpl; [split; reflexivity|].
  destruct (list_pq_pop q) as [[k r]|]; [destruct (Node.gt n k)|];
    split; discriminate.
Qed.

Lemma list_pq_pop_some (q : list Node.t) (n : Node.t) (q' : list Node.t) :
  list_pq_pop q = Some (n, q') ->
  q ≡ₚ n :: q' /\ forall k, k ∈ q -> Node.f_cost n <= Node.f_cost k.
Proof.
  revert n q'. induction q as [|a q IH]; intros n q'; simpl; [discriminate|].
  destruct (list_pq_pop q) as [[k r]|] eqn:E.
  - destruct (IH k r eq_refl) as [Hperm Hmin].
    unfold Node.gt. destruct (Z.ltb_spec (Node.f_cost k) (Node.f_cost a)) as [Hlt|Hge];
      intros [= <- <-].
    + split.
      * rewrite Hperm. apply perm_swap.
      * intros x Hx. apply elem_of_cons in Hx as [-> | Hx]; [lia | auto].
    + split; [reflexivity|].
      intros x Hx. apply elem_of_cons in Hx as [-> | Hx]; [lia|].
      specialize (Hmin x Hx). lia.
  - intros [= <- <-]. apply list_pq_pop_none in E. subst q.
    split; [reflexivity|].
    intros x Hx. apply list_elem_of_singleton in Hx. subst x. lia.
Qed.

Lemma list_pq_push (n : Node.t) (q : list Node.t) : id (n :: q) ≡ₚ n :: id q.
Proof. reflexivity. Qed.

(** ** Examples *)

(** The 2 x 2 maze is what the generator produces. *)
Lemma maze22_generated :
  generate_maze 2 2 shuffle_rot 4 0 0 (mkRun (Maze_new 2 2 0%nat) []) =
  Ok (mkRun (mkMaze maze22 4%nat) [(0, 0); (0, 1); (1, 1); (1, 0)]).
Proof. vm_compute. reflexivity. Qed.

Lemma maze22_carved : carved 2 2 shuffle_rot (mkMaze maze22 4%nat).
Proof.
  exists 4%nat, 0, 0, 0%nat, (mkRun (mkMaze maze22 4%nat) [(0, 0); (0, 1); (1, 1); (1, 0)]).
  split; [unfold in_bounds; simpl; lia|].
  split; [exact maze22_generated | reflexivity].
Qed.

Lemma maze22_well_formed : well_formed 2 2 maze22.
Proof. reflexivity. Qed.

Lemma maze22_walls_ok : walls_ok 2 2 maze22.
Proof.
  apply (carved_walls 2 2 nat shuffle_rot ltac:(lia) ltac:(lia) shuffle_rot_perm
           (mkMaze maze22 4%nat) maze22_carved).
Qed.

Lemma maze22_wall_symmetric : wall_symmetric 2 2 (mkMaze maze22 4%nat).
Proof.
  apply walls_ok_wall_symmetric; [lia | exact maze22_well_formed | exact maze22_walls_ok].
Qed.

Lemma maze22_boundary_closed : boundary_closed 2 2 (mkMaze maze22 4%nat).
Proof.
  apply walls_ok_boundary_closed; [lia | exact maze22_well_formed | exact maze22_walls_ok].
Qed.

Lemma maze22_walk : walk 2 2 (mkMaze maze22 4%nat) (0, 0) (1, 1) 2.
Proof.
  apply (walk_cons _ _ _ _ _ (0, 1)).
  { exists SOUTH. split; [unfold valid_dir, SOUTH; lia|].
    split; [|reflexivity]. eexists. vm_compute. reflexivity. }
  apply (walk_cons _ _ _ _ _ (1, 1)).
  { exists EAST. split; [unfold valid_dir, EAST; lia|].
    split; [|reflexivity]. eexists. vm_compute. reflexivity. }
  apply walk_nil.
Qed.

(** ** The theorems at concrete inputs *)

Lemma is_walkable_spec_witness :
  ((5 < 0 \/ 0 < 0 \/ 5 >= 2 \/ 0 >= 2) ->
     is_walkable 2 2 5 0 EAST (mkMaze maze22 4%nat) = Ok (false, mkMaze maze22 4%nat)) /\
  (0 <= 5 < 2 -> 0 <= 0 < 2 -> valid_dir EAST ->
     exists c s b,
       maze22 !! Z.to_nat (0 * 2 + 5) = Some c /\
       array4_get (Cell.segments c) EAST = Ok s /\
       is_walkable 2 2 5 0 EAST (mkMaze maze22 4%nat) = Ok (b, mkMaze maze22 4%nat) /\
       (b = true <-> Segment.exist s = false)).
Proof.
  apply (is_walkable_spec 2 2 nat ltac:(lia) ltac:(lia) (mkMaze maze22 4%nat) 5 0 EAST).
  exact maze22_well_formed.
Defined.

Lemma heuristic_admissible_witness : heuristic 2 2 0 0 <= Z.of_nat 2.
Proof.
  apply (proj2 (heuristic_admissible 2 2 nat) (mkMaze maze22 4%nat) 0 0 2%nat).
  split; [exact maze22_walk|].
  intros k Hk. apply heuristic_walk in Hk. vm_compute in Hk.
  destruct k as [|[|k]]; [exfalso; apply Hk; reflexivity.. | lia].
Defined.

Lemma a_star_read_only_witness :
  a_star 2 2 [] cons list_pq_pop 10 (mkMaze maze22 4%nat) =
    Ok ([(0, 0); (0, 1); (1, 1)], mkMaze maze22 4%nat) /\
  mkMaze maze22 4%nat = mkMaze maze22 4%nat.
Proof.
  assert (H : a_star 2 2 [] cons list_pq_pop 10 (mkMaze maze22 4%nat) =
              Ok ([(0, 0); (0, 1); (1, 1)], mkMaze maze22 4%nat))
    by (vm_compute; reflexivity).
  split; [exact H|].
  exact (a_star_read_only 2 2 nat (list Node.t) [] cons list_pq_pop 10
           (mkMaze maze22 4%nat) (mkMaze maze22 4%nat) [(0, 0); (0, 1); (1, 1)] H).
Defined.

Lemma generate_maze_wall_symmetry_witness :
  (forall fuel, (length (Maze_new 2 2 0%nat).(maze) < fuel)%nat ->
     exists st', generate_maze 2 2 shuffle_rot fuel 0 0 (mkRun (Maze_new 2 2 0%nat) []) = Ok st') /\
  (forall fuel st',
     generate_maze 2 2 shuffle_rot fuel 0 0 (mkRun (Maze_new 2 2 0%nat) []) = Ok st' ->
     wall_symmetric 2 2 (this st')).
Proof.
  apply (generate_maze_wall_symmetry 2 2 nat shuffle_rot ltac:(lia) ltac:(lia)
           shuffle_rot_perm 0 0 (mkRun (Maze_new 2 2 0%nat) [])).
  - unfold in_bounds. simpl. lia.
  - reflexivity.
  - apply Maze_new_all_walls.
Defined.

Lemma generate_maze_visits_each_cell_once_witness :
  exists st',
    generate_maze 2 2 shuffle_rot 4 0 0 (mkRun (Maze_new 2 2 0%nat) []) = Ok st' /\
    (forall c, c ∈ maze (this st') -> Cell.visited c = true) /\
    (forall q, in_bounds 2 2 q -> visited_at 2 (maze (this st')) q = true) /\
    NoDup (marks st') /\
    (forall q, q ∈ marks st' <-> in_bounds 2 2 q).
Proof.
  apply (generate_maze_visits_each_cell_once 2 2 nat shuffle_rot ltac:(lia) ltac:(lia)
           shuffle_rot_perm 0 0 (mkRun (Maze_new 2 2 0%nat) []) 4%nat).
  - unfold in_bounds. simpl. lia.
  - reflexivity.
  - apply Maze_new_all_unvisited.
  - reflexivity.
  - simpl. lia.
Defined.

Lemma generate_maze_spanning_tree_witness :
  exists st',
    generate_maze 2 2 shuffle_rot 4 0 0 (mkRun (Maze_new 2 2 0%nat) []) = Ok st' /\
    Z.of_nat (removed_pairs (maze (this st'))) = 2 * 2 - 1 /\
    connected 2 2 (this st') /\
    acyclic 2 2 (this st') /\
    wall_symmetric 2 2 (this st') /\
    boundary_closed 2 2 (this st').
Proof.
  apply (generate_maze_spanning_tree 2 2 nat shuffle_rot ltac:(lia) ltac:(lia)
           shuffle_rot_perm 0 0 (mkRun (Maze_new 2 2 0%nat) []) 4%nat).
  - unfold in_bounds. simpl. lia.
  - reflexivity.
  - apply Maze_new_all_walls.
  - apply Maze_new_all_unvisited.
  - simpl. lia.
Defined.




Lemma a_star_path_valid_witness :
  valid_path 2 2 (mkMaze maze22 4%nat) [(0, 0); (0, 1); (1, 1)].
Proof.
  apply (a_star_path_valid 2 2 nat (list Node.t) [] cons list_pq_pop id
           ltac:(lia) ltac:(lia) ltac:(vm_compute; reflexivity) eq_refl
           list_pq_push list_pq_pop_none list_pq_pop_some
           (mkMaze maze22 4%nat) (mkMaze maze22 4%nat) 10%nat).
  - exact maze22_well_formed.
  - exact maze22_boundary_closed.
  - exact maze22_wall_symmetric.
  - vm_compute. reflexivity.
  - discriminate.
Defined.

(** A grid on which every wall stands: nothing can be reached. *)
Lemma fresh22_unreachable :
  ~ reachable 2 2 (Maze_new 2 2 0%nat) start (goal 2 2).
Proof.
  intros [n Hw]. change (goal 2 2) with (1, 1) in Hw. unfold start in Hw.
  inversion Hw as [|u v w k Hp _]; subst.
  destruct Hp as (d & Hd & Hwd & _).
  apply (walkable_removed 2 2 nat ltac:(lia)) in Hwd as [_ Hr];
    [|reflexivity | assumption].
  rewrite all_walls_present_removed_at in Hr; [discriminate|].
  apply Maze_new_all_walls.
Qed.

Lemma fresh22_boundary_closed : boundary_closed 2 2 (Maze_new 2 2 0%nat).
Proof.
  apply walls_ok_boundary_closed; [lia | reflexivity |].
  apply walls_ok_initial. apply Maze_new_all_walls.
Qed.

Lemma a_star_unreachable_witness :
  (exists fuel0, forall fuel, (fuel0 <= fuel)%nat ->
     a_star 2 2 [] cons list_pq_pop fuel (Maze_new 2 2 0%nat) =
       Ok ([], Maze_new 2 2 0%nat)) /\
  (forall fuel path m',
     a_star 2 2 [] cons list_pq_pop fuel (Maze_new 2 2 0%nat) = Ok (path, m') ->
     path = []) /\
  (forall fuel,
     a_star 2 2 [] cons list_pq_pop fuel (Maze_new 2 2 0%nat) <> Undefined).
Proof.
  apply (a_star_unreachable 2 2 nat (list Node.t) [] cons list_pq_pop id
           ltac:(lia) ltac:(lia) ltac:(vm_compute; reflexivity) eq_refl
           list_pq_push list_pq_pop_none list_pq_pop_some (Maze_new 2 2 0%nat)).
  - reflexivity.
  - exact fresh22_boundary_closed.
  - exact fresh22_unreachable.
Defined.

Lemma generate_maze_keeps_boundary_witness :
  (forall cx, 0 <= cx < 2 ->
     is_walkable 2 2 cx 0 NORTH (mkMaze maze22 4%nat) = Ok (false, mkMaze maze22 4%nat) /\
     is_walkable 2 2 cx (2 - 1) SOUTH (mkMaze maze22 4%nat) = Ok (false, mkMaze maze22 4%nat)) /\
  (forall cy, 0 <= cy < 2 ->
     is_walkable 2 2 0 cy WEST (mkMaze maze22 4%nat) = Ok (false, mkMaze maze22 4%nat) /\
     is_walkable 2 2 (2 - 1) cy EAST (mkMaze maze22 4%nat) = Ok (false, mkMaze maze22 4%nat)) /\
  (forall cx cy dir m',
     in_bounds 2 2 (cx, cy) -> valid_dir dir ->
     is_walkable 2 2 cx cy dir (mkMaze maze22 4%nat) = Ok (true, m') ->
     in_bounds 2 2 (step_x cx dir, step_y cy dir) /\
     0 <= index 2 (step_x cx dir) (step_y cy dir) < 2 * 2) /\
  (forall fuel',
     a_star 2 2 [] cons list_pq_pop fuel' (mkMaze maze22 4%nat) <> Undefined).
Proof.
  apply (generate_maze_keeps_boundary 2 2 nat shuffle_rot (list Node.t) [] cons
           list_pq_pop id ltac:(lia) ltac:(lia) shuffle_rot_perm
           ltac:(vm_compute; reflexivity) eq_refl
           list_pq_push list_pq_pop_some
           0 0 (mkRun (Maze_new 2 2 0%nat) [])
           (mkRun (mkMaze maze22 4%nat) [(0, 0); (0, 1); (1, 1); (1, 0)]) 4%nat).
  - unfold in_bounds. simpl. lia.
  - reflexivity.
  - apply Maze_new_all_walls.
  - exact maze22_generated.
Defined.

(** ** Grids outside the generator's range *)

(** The dimensions of the program meet the assumptions. *)
Lemma main_dimensions :
  COLS_main = 256 /\ ROWS_main = 144 /\
  0 < COLS_main /\ 0 < ROWS_main /\ COLS_main * ROWS_main < INT_MAX.
Proof. repeat split. Qed.

Lemma returns_path_Ok {M : Type} (r : result (list (Z * Z) * M)) (p : list (Z * Z)) :
  returns_path r p = true -> exists m', r = Ok (p, m').
Proof.
  destruct r as [[p' m']| |]; simpl; try discriminate.
  intros H. apply bool_decide_eq_true in H. subst p'. eauto.
Qed.

Lemma answers_Ok {M : Type} (r : result (bool * M)) (b : bool) (m' : M) :
  r = Ok (b, m') -> answers r = b.
Proof. intros ->. reflexivity. Qed.








(** C4, as stated, fails: on the one-way corridor [a_star] returns the
    corridor, whose first step from (0,0) to (1,0) cannot be walked
    back. *)
Lemma a_star_one_way_corridor :
  exists fuel,
    a_star COLS_main ROWS_main [] cons list_pq_pop fuel (mkMaze one_way_corridor tt) =
      Ok (corridor_path, mkMaze one_way_corridor tt) /\
    corridor_path <> [] /\
    ~ valid_path COLS_main ROWS_main (mkMaze one_way_corridor tt) corridor_path.
Proof.
  exists 500%nat. split; [|split].
  - assert (Hb : returns_path
              (a_star COLS_main ROWS_main [] cons list_pq_pop 500 (mkMaze one_way_corridor tt))
              corridor_path = true) by (vm_compute; reflexivity).
    apply returns_path_Ok in Hb as [m' E].
    pose proof (a_star_frame _ _ _ _ _ _ _ _ _ _ _ E) as Hm.
    rewrite Hm in E. exact E.
  - discriminate.
  - intros (_ & _ & Hpairs & _).
    destruct (Hpairs 0%nat (0, 0) (1, 0) eq_refl eq_refl) as (d & Hd & Hs & _ & Hback).
    assert (d = EAST).
    { destruct (valid_dir_cases d Hd) as [-> | [-> | [-> | ->]]];
        try reflexivity; discriminate. }
    subst d. destruct Hback as [m' Hm'].
    cbn [fst snd] in Hm'. change (opposite EAST) with WEST in Hm'.
    apply answers_Ok in Hm'.
    assert (Hb : answers (is_walkable COLS_main ROWS_main 1 0 WEST (mkMaze one_way_corridor tt))
                 = false) by (vm_compute; reflexivity).
    rewrite Hb in Hm'. discriminate.
Qed.

(** C5, as stated, fails: with the NORTH wall of the start cell removed
    the goal cannot be reached, and [a_star] reads [g_cost] at index
    [-256]. *)
Lemma a_star_north_open :
  well_formed COLS_main ROWS_main north_open /\
  ~ reachable COLS_main ROWS_main (mkMaze north_open tt) start (goal COLS_main ROWS_main) /\
  forall fuel,
    a_star COLS_main ROWS_main [] cons list_pq_pop (S fuel) (mkMaze north_open tt) = Undefined.
Proof.
  split; [|split].
  - vm_compute. reflexivity.
  - intros [n Hw]. change (goal COLS_main ROWS_main) with (255, 143) in Hw. unfold start in Hw.
    inversion Hw as [|u v w k Hp Hrest]; subst.
    destruct Hp as (d & Hd & [m' Hm'] & ->).
    cbn [fst snd] in Hm'. apply answers_Ok in Hm'.
    assert (d = NORTH).
    { assert (Hb : forall d', d' = SOUTH \/ d' = WEST \/ d' = EAST ->
                answers (is_walkable COLS_main ROWS_main 0 0 d' (mkMaze north_open tt)) = false).
      { intros d' [-> | [-> | ->]]; vm_compute; reflexivity. }
      destruct (valid_dir_cases d Hd) as [-> | Hd']; [reflexivity|].
      specialize (Hb d Hd'). rewrite Hb in Hm'. discriminate. }
    subst d. change (step (0, 0) NORTH) with (0, -1) in Hrest.
    inversion Hrest as [|u v w k' Hp' _]; subst.
    destruct Hp' as (d' & _ & Hwd & _).
    apply walkable_in_bounds in Hwd. destruct Hwd as [_ Hy].
    cbn [snd] in Hy. lia.
  - intros fuel. vm_compute. reflexivity.
Qed.

(** ** The further properties at concrete inputs *)

Arguments draw {RNG} m.
Arguments draw_path {RNG} path m.
Arguments main COLS ROWS {RNG} shuffle {PQ} pq_empty pq_push pq_pop fuel g.
Arguments simple_path COLS ROWS {RNG} m u v l.

Lemma opposite_round_trip_witness :
  valid_dir (opposite EAST) /\ opposite EAST <> EAST /\
  opposite (opposite EAST) = EAST /\
  step (step (0, 0) EAST) (opposite EAST) = (0, 0) /\ step (0, 0) EAST <> (0, 0).
Proof.
  apply (opposite_round_trip (0, 0) EAST). unfold valid_dir, EAST. lia.
Defined.

Lemma remove_wall_spec_witness :
  (exists c',
     Cell.remove_wall (Cell.new 0 0) EAST = Ok c' /\
     Cell.x c' = Cell.x (Cell.new 0 0) /\ Cell.y c' = Cell.y (Cell.new 0 0) /\
     Cell.visited c' = Cell.visited (Cell.new 0 0) /\
     (forall d' s, array4_get (Cell.segments (Cell.new 0 0)) d' = Ok s ->
        array4_get (Cell.segments c') d' =
        Ok (if decide (d' = EAST) then Segment.set_exist s false else s)) /\
     Cell.remove_wall c' EAST = Ok c') /\
  Cell.remove_wall (Cell.new 0 0) 7 = Undefined.
Proof.
  split.
  - apply (proj1 (remove_wall_spec (Cell.new 0 0) EAST)). unfold valid_dir, EAST. lia.
  - apply (proj2 (remove_wall_spec (Cell.new 0 0) 7)). unfold valid_dir. lia.
Defined.

Lemma Node_gt_strict_weak_order_witness :
  Node.gt (Node.mk 0 0 2 2) (Node.mk 1 1 0 0) = true /\
  (Node.gt (Node.mk 0 0 1 2) (Node.mk 0 1 3 0) = false /\
   Node.gt (Node.mk 0 1 3 0) (Node.mk 0 0 1 2) = false).
Proof.
  split.
  - apply (proj1 (proj2 Node_gt_strict_weak_order)
             (Node.mk 0 0 2 2) (Node.mk 0 1 1 1) (Node.mk 1 1 0 0));
      reflexivity.
  - apply (proj2 (proj2 Node_gt_strict_weak_order)
             (Node.mk 0 0 1 2) (Node.mk 1 0 2 1) (Node.mk 0 1 3 0));
      reflexivity.
Defined.

Lemma heuristic_consistent_witness :
  (heuristic 2 2 1 1 = 0 <-> (1, 1) = goal 2 2) /\
  Z.abs (heuristic 2 2 (step (0, 0) EAST).1 (step (0, 0) EAST).2
         - heuristic 2 2 0 0) = 1.
Proof.
  split.
  - apply (proj1 (proj2 (heuristic_consistent 2 2)) 1 1).
    unfold in_bounds. simpl. lia.
  - apply (proj2 (proj2 (heuristic_consistent 2 2)) (0, 0) EAST).
    unfold valid_dir, EAST. lia.
Defined.

Lemma is_walkable_bad_direction_witness :
  is_walkable 2 2 0 0 4 (mkMaze maze22 4%nat) = Undefined.
Proof.
  apply (is_walkable_bad_direction 2 2 nat ltac:(lia) ltac:(lia)
           (mkMaze maze22 4%nat) 0 0 4).
  - unfold in_bounds. simpl. lia.
  - exact maze22_well_formed.
  - unfold valid_dir. lia.
Defined.

Lemma generate_maze_origin_out_of_range_witness :
  generate_maze 2 2 shuffle_rot 1 0 2 (mkRun (Maze_new 2 2 0%nat) []) = Undefined.
Proof.
  apply (generate_maze_origin_out_of_range 2 2 nat shuffle_rot 0%nat 0 2
           (mkRun (Maze_new 2 2 0%nat) [])).
  simpl. lia.
Defined.

Lemma shared_wall_same_line_witness :
  exists s s',
    array4_get (Cell.segments (Cell.new 0 0)) EAST = Ok s /\
    array4_get (Cell.segments (Cell.new (step (0, 0) EAST).1 (step (0, 0) EAST).2))
               (opposite EAST) = Ok s' /\
    line_of s = line_of s' /\
    Segment.exist s = true /\ Segment.exist s' = true.
Proof.
  apply (shared_wall_same_line (0, 0) EAST). unfold valid_dir, EAST. lia.
Defined.

Lemma Maze_new_layout_witness :
  vec_get (maze (Maze_new 2 2 0%nat)) (1 * 2 + 1) = Ok (Cell.new 1 1) /\
  vec_get (maze (Maze_new 2 2 0%nat)) 4 = Undefined.
Proof.
  pose proof (Maze_new_layout 2 2 nat ltac:(lia) ltac:(lia) 0%nat) as (_ & Hin & Hout).
  split.
  - apply (Hin 1 1). unfold in_bounds. simpl. lia.
  - apply (Hout 4). lia.
Defined.

Lemma generate_maze_frame_witness :
  length maze22 = length (maze (Maze_new 2 2 0%nat)) /\
  forall i c, maze (Maze_new 2 2 0%nat) !! i = Some c ->
    exists c', maze22 !! i = Some c' /\ cell_evolves c c'.
Proof.
  apply (generate_maze_frame 2 2 nat shuffle_rot ltac:(lia) ltac:(lia)
           shuffle_rot_perm 4 0 0 (mkRun (Maze_new 2 2 0%nat) [])
           (mkRun (mkMaze maze22 4%nat) [(0, 0); (0, 1); (1, 1); (1, 0)])).
  - unfold in_bounds. simpl. lia.
  - reflexivity.
  - exact maze22_generated.
Defined.

Lemma draw_generated_line_count_witness :
  Z.of_nat (length (lines_of (draw (mkMaze maze22 4%nat)))) = 2 * 2 * 2 + 2.
Proof.
  apply (draw_generated_line_count 2 2 nat shuffle_rot ltac:(lia) ltac:(lia)
           shuffle_rot_perm 4 0 0 (mkRun (Maze_new 2 2 0%nat) [])
           (mkRun (mkMaze maze22 4%nat) [(0, 0); (0, 1); (1, 1); (1, 0)])).
  - unfold in_bounds. simpl. lia.
  - reflexivity.
  - apply Maze_new_all_walls.
  - apply Maze_new_all_unvisited.
  - exact maze22_generated.
Defined.

Lemma maze22_all_visited c : c ∈ maze22 -> Cell.visited c = true.
Proof.
  intros Hc. unfold maze22 in Hc.
  repeat (apply elem_of_cons in Hc as [-> | Hc]; [reflexivity|]).
  apply elem_of_nil in Hc. destruct Hc.
Qed.

Lemma generate_maze_finished_witness :
  generate_maze 2 2 shuffle_rot 1 1 1 (mkRun (mkMaze maze22 4%nat) []) =
  Ok (mkRun (mkMaze maze22 5%nat) [(1, 1)]).
Proof.
  apply (generate_maze_finished 2 2 nat shuffle_rot ltac:(lia) ltac:(lia)
           0%nat 1 1 (mkRun (mkMaze maze22 4%nat) [])).
  - unfold in_bounds. simpl. lia.
  - exact maze22_well_formed.
  - exact maze22_all_visited.
Defined.

Lemma draw_shows_walls_witness :
  (forall l, l ∈ lines_of (draw (mkMaze maze22 4%nat)) ->
     exists p d, in_bounds 2 2 p /\ valid_dir d /\ l = wall_line p d /\
                 ~ walkable 2 2 (mkMaze maze22 4%nat) p d) /\
  (forall p d, in_bounds 2 2 p -> valid_dir d ->
     (wall_line p d ∈ lines_of (draw (mkMaze maze22 4%nat)) <->
      ~ walkable 2 2 (mkMaze maze22 4%nat) p d)).
Proof.
  apply (draw_shows_walls 2 2 nat shuffle_rot ltac:(lia) ltac:(lia)
           shuffle_rot_perm 4 0 0 0%nat
           (mkRun (mkMaze maze22 4%nat) [(0, 0); (0, 1); (1, 1); (1, 0)])).
  - unfold in_bounds. simpl. lia.
  - exact maze22_generated.
Defined.

Lemma a_star_single_cell_witness :
  a_star 1 1 [] cons list_pq_pop 1 (Maze_new 1 1 0%nat) =
  Ok ([(0, 0)], Maze_new 1 1 0%nat).
Proof.
  apply (a_star_single_cell 1 1 nat (list Node.t) [] cons list_pq_pop id
           eq_refl list_pq_push list_pq_pop_none list_pq_pop_some
           0%nat (Maze_new 1 1 0%nat) eq_refl eq_refl).
Defined.

Lemma a_star_decides_reachability_witness :
  exists fuel0, forall fuel, (fuel0 <= fuel)%nat ->
    exists path,
      a_star 2 2 [] cons list_pq_pop fuel (mkMaze maze22 4%nat) =
        Ok (path, mkMaze maze22 4%nat) /\
      (path <> [] <-> reachable 2 2 (mkMaze maze22 4%nat) start (goal 2 2)) /\
      (path <> [] ->
       shortest_distance 2 2 (mkMaze maze22 4%nat) start (goal 2 2)
         (Nat.pred (length path))).
Proof.
  apply (a_star_decides_reachability 2 2 nat (list Node.t) [] cons list_pq_pop id
           ltac:(lia) ltac:(lia) ltac:(vm_compute; reflexivity) eq_refl
           list_pq_push list_pq_pop_none list_pq_pop_some (mkMaze maze22 4%nat)).
  - exact maze22_well_formed.
  - exact maze22_boundary_closed.
Defined.

Lemma a_star_path_cells_witness :
  (forall q, q ∈ [(0, 0); (0, 1); (1, 1)] -> in_bounds 2 2 q) /\
  ([(0, 0); (0, 1); (1, 1)] <> [] ->
   2 + 2 - 1 <= Z.of_nat (length [(0, 0); (0, 1); (1, 1)]) <= 2 * 2).
Proof.
  apply (a_star_path_cells 2 2 nat (list Node.t) [] cons list_pq_pop id
           ltac:(lia) ltac:(lia) ltac:(vm_compute; reflexivity) eq_refl
           list_pq_push list_pq_pop_none list_pq_pop_some
           (mkMaze maze22 4%nat) (mkMaze maze22 4%nat) 10%nat).
  - exact maze22_well_formed.
  - exact maze22_boundary_closed.
  - vm_compute. reflexivity.
Defined.

Lemma draw_path_spec_witness :
  exists cmds,
    draw_path [(0, 0)] (mkMaze maze22 4%nat) = Ok cmds /\
    lines_of cmds = lines_of (draw (mkMaze maze22 4%nat)).
Proof.
  destruct (draw_path_spec nat [(0, 0)] (mkMaze maze22 4%nat))
    as (cmds & E & _ & _ & Hshort).
  exists cmds. split; [exact E|]. apply Hshort. simpl. lia.
Defined.

Lemma path_lines_follow_passages_witness :
  (exists d, valid_dir d /\ (0, 1) = step (0, 0) d /\
             walkable 2 2 (mkMaze maze22 4%nat) (0, 0) d) /\
  in_bounds 2 2 (0, 0) /\ in_bounds 2 2 (0, 1) /\
  Z.abs ((centre (0, 1)).1 - (centre (0, 0)).1) +
  Z.abs ((centre (0, 1)).2 - (centre (0, 0)).2) = CELL_SIZE /\
  ((centre (0, 0)).1 = (centre (0, 1)).1 \/ (centre (0, 0)).2 = (centre (0, 1)).2) /\
  0 < (centre (0, 0)).1 < 2 * CELL_SIZE /\ 0 < (centre (0, 0)).2 < 2 * CELL_SIZE /\
  0 < (centre (0, 1)).1 < 2 * CELL_SIZE /\ 0 < (centre (0, 1)).2 < 2 * CELL_SIZE.
Proof.
  apply (path_lines_follow_passages 2 2 nat (list Node.t) [] cons list_pq_pop id
           ltac:(lia) ltac:(lia) ltac:(vm_compute; reflexivity) eq_refl
           list_pq_push list_pq_pop_none list_pq_pop_some
           (mkMaze maze22 4%nat) (mkMaze maze22 4%nat) 10%nat
           [(0, 0); (0, 1); (1, 1)] (0, 0) (0, 1)).
  - exact maze22_well_formed.
  - exact maze22_boundary_closed.
  - vm_compute. reflexivity.
  - simpl. left.
Defined.

Lemma main_shows_shortest_path_witness :
  exists fuel0, forall fuel, (fuel0 <= fuel)%nat ->
    exists st path final,
      generate_maze 2 2 shuffle_rot fuel 0 0 (mkRun (Maze_new 2 2 0%nat) []) = Ok st /\
      main 2 2 shuffle_rot [] cons list_pq_pop fuel 0%nat =
        Ok (draw (this st) ++ draw_start_end, path, final) /\
      valid_path 2 2 (this st) path /\
      shortest_distance 2 2 (this st) start (goal 2 2) (Nat.pred (length path)) /\
      Z.of_nat (length (lines_of final)) =
        2 * 2 * 2 + 2 + (Z.of_nat (length path) - 1) /\
      forall a b, (a, b) ∈ pairs path ->
        centre_line a b ∈ lines_of final /\
        exists d, valid_dir d /\ b = step a d /\
                  wall_line a d ∉ lines_of (draw (this st)).
Proof.
  apply (main_shows_shortest_path 2 2 nat shuffle_rot (list Node.t) [] cons
           list_pq_pop id ltac:(lia) ltac:(lia) shuffle_rot_perm
           ltac:(vm_compute; reflexivity) eq_refl
           list_pq_push list_pq_pop_none list_pq_pop_some 0%nat).
Defined.

Lemma maze22_route :
  simple_path 2 2 (mkMaze maze22 4%nat) start (goal 2 2) [(0, 0); (0, 1); (1, 1)].
Proof.
  split; [reflexivity|]. split; [reflexivity|]. split.
  - intros [|[|i]] u v Hu Hv; cbn in Hu, Hv; try discriminate.
    + injection Hu as <-. injection Hv as <-.
      exists SOUTH. split; [unfold valid_dir, SOUTH; lia|].
      split; [|reflexivity]. eexists. vm_compute. reflexivity.
    + injection Hu as <-. injection Hv as <-.
      exists EAST. split; [unfold valid_dir, EAST; lia|].
      split; [|reflexivity]. eexists. vm_compute. reflexivity.
  - apply (bool_decide_unpack _). vm_compute. exact I.
Qed.

Lemma generated_maze_unique_path_witness :
  (in_bounds 2 2 start -> in_bounds 2 2 (goal 2 2) ->
   reachable 2 2 (mkMaze maze22 4%nat) start (goal 2 2)) /\
  [(0, 0); (0, 1); (1, 1)] = [(0, 0); (0, 1); (1, 1)].
Proof.
  destruct (generated_maze_unique_path 2 2 nat shuffle_rot ltac:(lia) ltac:(lia)
              shuffle_rot_perm 4 0 0 (mkRun (Maze_new 2 2 0%nat) [])
              (mkRun (mkMaze maze22 4%nat) [(0, 0); (0, 1); (1, 1); (1, 0)])
              start (goal 2 2) [(0, 0); (0, 1); (1, 1)] [(0, 0); (0, 1); (1, 1)])
    as [Hreach Huniq].
  - unfold in_bounds. simpl. lia.
  - reflexivity.
  - apply Maze_new_all_walls.
  - apply Maze_new_all_unvisited.
  - exact maze22_generated.
  - split; [exact Hreach|]. apply Huniq; exact maze22_route.
Defined.

Lemma a_star_returns_the_only_path_witness :
  simple_path 2 2 (mkMaze maze22 4%nat) start (goal 2 2) [(0, 0); (0, 1); (1, 1)] /\
  forall l, simple_path 2 2 (mkMaze maze22 4%nat) start (goal 2 2) l ->
            l = [(0, 0); (0, 1); (1, 1)].
Proof.
  apply (a_star_returns_the_only_path 2 2 nat shuffle_rot (list Node.t) [] cons
           list_pq_pop id ltac:(lia) ltac:(lia) shuffle_rot_perm
           ltac:(vm_compute; reflexivity) eq_refl
           list_pq_push list_pq_pop_none list_pq_pop_some
           4%nat 10%nat 0 0 (mkRun (Maze_new 2 2 0%nat) [])
           (mkRun (mkMaze maze22 4%nat) [(0, 0); (0, 1); (1, 1); (1, 0)])
           [(0, 0); (0, 1); (1, 1)] (mkMaze maze22 4%nat)).
  - unfold in_bounds. simpl. lia.
  - reflexivity.
  - apply Maze_new_all_walls.
  - apply Maze_new_all_unvisited.
  - exact maze22_generated.
  - vm_compute. reflexivity.
Defined.
